(** * formenc: a shallow embedding of the form codec

    The development follows the Go sources of the package:
    - [path.go]    the bracket path parser ([parseKey]);
    - [tags.go]    the struct-tag metadata ([parseTag], [tags]);
    - [decode.go]  the decode engine ([Unmarshal], [assign], the
                   [infer*] functions);
    - the encoder  ([Marshal], [marshalValue], [renderPath], ...).

    Go strings are byte strings, and so are Rocq's [string]s (lists of
    8-bit [ascii]).  Go's [reflect.Value]s are modelled by an inductive
    universe of values that carry as much of their type as the code
    inspects.  A Go function that returns an [error] returns a [result]
    here, and a run-time panic is a third outcome of its own. *)

From Stdlib Require Import String Ascii List ZArith Lia Bool Arith.
From Stdlib Require Import Permutation Sorting.Sorted Classes.RelationClasses.
From Stdlib Require OrdersEx.
From Equations Require Import Equations.
Import ListNotations.

Local Open Scope string_scope.
Local Open Scope list_scope.

Set Implicit Arguments.
Set Warnings "-register-all".

(** ** Outcomes *)

(** What a call can come to: a value, a returned [error] (with its
    message), or a panic that unwinds the whole call. *)
Inductive result (A : Type) : Type :=
| Ok (a : A)
| Err (msg : string)
| Panic (msg : string).

Arguments Ok {A} a.
Arguments Err {A} msg.
Arguments Panic {A} msg.

Definition bind {A B} (r : result A) (k : A -> result B) : result B :=
  match r with
  | Ok a => k a
  | Err e => Err e
  | Panic e => Panic e
  end.

Notation "x <- r ;; k" := (bind r (fun x => k))
  (at level 61, r at next level, right associativity).

Definition isOk {A} (r : result A) : bool :=
  match r with Ok _ => true | _ => false end.

Definition isErr {A} (r : result A) : bool :=
  match r with Err _ => true | _ => false end.

Definition isPanic {A} (r : result A) : bool :=
  match r with Panic _ => true | _ => false end.

(** ** Byte strings *)

Module Str.

(** [strings.IndexByte]: the first position of [c], [None] for -1. *)
Fixpoint IndexByte (s : string) (c : ascii) : option nat :=
  match s with
  | EmptyString => None
  | String a s' =>
      if Ascii.eqb a c then Some 0
      else option_map S (IndexByte s' c)
  end.

(** [s[:n]] *)
Fixpoint take (n : nat) (s : string) : string :=
  match n, s with
  | S n', String a s' => String a (take n' s')
  | _, _ => EmptyString
  end.

(** [s[n:]] *)
Fixpoint drop (n : nat) (s : string) : string :=
  match n, s with
  | S n', String _ s' => drop n' s'
  | _, _ => s
  end.

(** The byte at position [i], if any. *)
Fixpoint at_ (s : string) (i : nat) : option ascii :=
  match s, i with
  | EmptyString, _ => None
  | String a _, 0 => Some a
  | String _ s', S i' => at_ s' i'
  end.

Definition isEmpty (s : string) : bool :=
  match s with EmptyString => true | _ => false end.

End Str.

Definition inspect {A} (a : A) : {b : A | a = b} := exist _ a eq_refl.

(** ** path.go *)

Record pathSegment : Type := mkSeg { Key : string; Index : bool }.

Definition named (k : string) : pathSegment := mkSeg k false.
Definition indexMarker : pathSegment := mkSeg "" true.

Definition lbracket : ascii := "["%char.
Definition rbracket : ascii := "]"%char.

(** One turn of the [for len(key) > 0] loop of [parseKey]. *)
Inductive parseStep : Type :=
| Break (path : list pathSegment)
| Continue (key : string) (path : list pathSegment)
| SyntaxError.

Definition parseKey_body (key : string) (path : list pathSegment) : parseStep :=
  match Str.IndexByte key lbracket with
  | None => Break (path ++ [named key])
  | Some i =>
      let path := if Nat.ltb 0 i then path ++ [named (Str.take i key)] else path in
      let key := Str.drop (i + 1) key in
      match Str.IndexByte key rbracket with
      | None => SyntaxError
      | Some j =>
          let part := Str.take j key in
          let path :=
            if Str.isEmpty part then path ++ [indexMarker]
            else path ++ [named part] in
          Continue (Str.drop (j + 1) key) path
      end
  end.

Lemma drop_length n s : String.length (Str.drop n s) = String.length s - n.
Proof.
  revert s; induction n as [|n IH]; intros [|a s]; simpl; auto.
Qed.

Lemma IndexByte_lt s c i : Str.IndexByte s c = Some i -> i < String.length s.
Proof.
  revert i; induction s as [|a s IH]; simpl; intros i H; [discriminate|].
  destruct (Ascii.eqb a c).
  - inversion H; lia.
  - destruct (Str.IndexByte s c) as [k|]; simpl in H; [|discriminate].
    inversion H; subst. specialize (IH k eq_refl). lia.
Qed.

Lemma parseKey_body_decreases key path key' path' :
  parseKey_body key path = Continue key' path' ->
  String.length key' < String.length key.
Proof.
  unfold parseKey_body.
  destruct (Str.IndexByte key lbracket) as [i|] eqn:Hi; [|discriminate].
  destruct (Str.IndexByte (Str.drop (i + 1) key) rbracket) as [j|] eqn:Hj;
    [|discriminate].
  intros H; inversion H; subst.
  apply IndexByte_lt in Hi.
  rewrite !drop_length. lia.
Qed.

Definition errInvalidKey : string := "form: invalid key syntax".

Equations parseKey_loop (key : string) (path : list pathSegment)
  : result (list pathSegment) by wf (String.length key) lt :=
  parseKey_loop key path with Str.isEmpty key := {
    | true := Ok path
    | false with inspect (parseKey_body key path) := {
        | exist _ (Break p) _ := Ok p
        | exist _ (Continue k p) e := parseKey_loop k p
        | exist _ SyntaxError _ := Err errInvalidKey } }.
Next Obligation.
  eapply parseKey_body_decreases; eassumption.
Qed.

Definition parseKey (key : string) : result (list pathSegment) :=
  parseKey_loop key [].

(** ** The standard-library functions the package calls

    [strings.TrimSpace], [strconv.ParseInt] and friends, and the parts of
    [net/url] behind [url.ParseQuery] and [url.Values.Encode], written
    after the Go standard library. *)

Definition byteOf (n : nat) : ascii := ascii_of_nat n.
Definition codeOf (a : ascii) : nat := nat_of_ascii a.

Module Strings.

Fixpoint rev_onto (s acc : string) : string :=
  match s with
  | EmptyString => acc
  | String a s' => rev_onto s' (String a acc)
  end.

Definition rev (s : string) : string := rev_onto s EmptyString.

(** The six ASCII bytes of [asciiSpace]. *)
Definition asciiSpace (a : ascii) : bool :=
  let n := codeOf a in
  (Nat.eqb n 9 || Nat.eqb n 10 || Nat.eqb n 11 || Nat.eqb n 12
   || Nat.eqb n 13 || Nat.eqb n 32)%bool.

(** [unicode.IsSpace] on the two-byte runes U+0085 and U+00A0. *)
Definition space2 (a b : ascii) : bool :=
  (Nat.eqb (codeOf a) 194
   && (Nat.eqb (codeOf b) 133 || Nat.eqb (codeOf b) 160))%bool.

(** [unicode.IsSpace] on the three-byte runes U+1680, U+2000..U+200A,
    U+2028, U+2029, U+202F, U+205F and U+3000. *)
Definition space3 (a b c : ascii) : bool :=
  let x := codeOf a in let y := codeOf b in let z := codeOf c in
  ((Nat.eqb x 225 && Nat.eqb y 154 && Nat.eqb z 128)
   || (Nat.eqb x 226 && Nat.eqb y 128
       && ((Nat.leb 128 z && Nat.leb z 138)
           || Nat.eqb z 168 || Nat.eqb z 169 || Nat.eqb z 175))
   || (Nat.eqb x 226 && Nat.eqb y 129 && Nat.eqb z 159)
   || (Nat.eqb x 227 && Nat.eqb y 128 && Nat.eqb z 128))%bool.

(** Drop the space runes at the front; [p2] and [p3] recognise the
    multi-byte ones in the order their bytes are met. *)
Fixpoint trimFront (p2 : ascii -> ascii -> bool)
         (p3 : ascii -> ascii -> ascii -> bool) (s : string) : string :=
  match s with
  | EmptyString => EmptyString
  | String a s1 =>
      if asciiSpace a then trimFront p2 p3 s1
      else
        match s1 with
        | EmptyString => s
        | String b s2 =>
            if p2 a b then trimFront p2 p3 s2
            else
              match s2 with
              | EmptyString => s
              | String c s3 => if p3 a b c then trimFront p2 p3 s3 else s
              end
        end
  end.

Definition TrimLeftSpace (s : string) : string := trimFront space2 space3 s.

Definition TrimRightSpace (s : string) : string :=
  rev (trimFront (fun a b => space2 b a) (fun a b c => space3 c b a) (rev s)).

Definition TrimSpace (s : string) : string :=
  TrimRightSpace (TrimLeftSpace s).

(** [strings.Cut(s, sep)] for a one-byte separator. *)
Definition Cut (s : string) (sep : ascii) : string * string :=
  match Str.IndexByte s sep with
  | Some i => (Str.take i s, Str.drop (i + 1) s)
  | None => (s, EmptyString)
  end.

Definition ContainsByte (s : string) (c : ascii) : bool :=
  match Str.IndexByte s c with Some _ => true | None => false end.

(** [strings.Split(s, sep)] for a one-byte separator. *)
Fixpoint Split (s : string) (sep : ascii) : list string :=
  match s with
  | EmptyString => [EmptyString]
  | String a s' =>
      if Ascii.eqb a sep then EmptyString :: Split s' sep
      else
        match Split s' sep with
        | [] => [String a EmptyString]
        | p :: ps => String a p :: ps
        end
  end.

End Strings.

Module Strconv.

Definition isDigit (a : ascii) : bool :=
  (Nat.leb 48 (codeOf a) && Nat.leb (codeOf a) 57)%bool.

(** The value of a non-empty run of decimal digits. *)
Fixpoint digits (s : string) (acc : Z) : option Z :=
  match s with
  | EmptyString => Some acc
  | String a s' =>
      if isDigit a then digits s' (10 * acc + Z.of_nat (codeOf a - 48))%Z
      else None
  end.

Definition decimal (s : string) : option Z :=
  match s with
  | EmptyString => None
  | _ => digits s 0%Z
  end.

Definition errSyntax : string := "invalid syntax".
Definition errRange : string := "value out of range".

(** [strconv.ParseUint(s, 10, bits)] *)
Definition ParseUint (s : string) (bits : nat) : result Z :=
  match decimal s with
  | None => Err errSyntax
  | Some n => if (n <? 2 ^ Z.of_nat bits)%Z then Ok n else Err errRange
  end.

(** [strconv.ParseInt(s, 10, bits)] *)
Definition ParseInt (s : string) (bits : nat) : result Z :=
  match s with
  | EmptyString => Err errSyntax
  | String a s' =>
      let neg := Ascii.eqb a "-"%char in
      let body := if (Ascii.eqb a "+"%char || neg)%bool then s' else s in
      match decimal body with
      | None => Err errSyntax
      | Some n =>
          let cutoff := (2 ^ (Z.of_nat bits - 1))%Z in
          if neg then
            if (n <=? cutoff)%Z then Ok (- n)%Z else Err errRange
          else
            if (n <? cutoff)%Z then Ok n else Err errRange
      end
  end.

(** [strconv.ParseBool] *)
Definition ParseBool (s : string) : result bool :=
  if (String.eqb s "1" || String.eqb s "t" || String.eqb s "T"
      || String.eqb s "TRUE" || String.eqb s "true" || String.eqb s "True")%bool
  then Ok true
  else if (String.eqb s "0" || String.eqb s "f" || String.eqb s "F"
      || String.eqb s "FALSE" || String.eqb s "false" || String.eqb s "False")%bool
  then Ok false
  else Err errSyntax.

(** The decimal digits of a natural number, most significant first. *)
Fixpoint natDigits (fuel : nat) (n : N) (acc : string) : string :=
  match fuel with
  | O => acc
  | S fuel' =>
      let acc' := String (byteOf (48 + N.to_nat (n mod 10))) acc in
      if (n / 10 =? 0)%N then acc' else natDigits fuel' (n / 10)%N acc'
  end.

Definition FormatUint (n : Z) : string :=
  let m := Z.to_N n in natDigits (S (N.to_nat (N.log2 m))) m EmptyString.

(** [strconv.FormatInt(i, 10)] *)
Definition FormatInt (i : Z) : string :=
  if (i <? 0)%Z then String "-"%char (FormatUint (- i)) else FormatUint i.

Definition FormatBool (b : bool) : string := if b then "true" else "false".

End Strconv.

(** [url.Values]: a Go [map[string][]string].  The entries are kept as a
    list with one entry per key; the order of the list has no meaning. *)
Definition Values : Type := list (string * list string).

Module Url.

Definition Get (m : Values) (k : string) : list string :=
  match find (fun e => String.eqb (fst e) k) m with
  | Some e => snd e
  | None => []
  end.

(** [m[k] = append(m[k], v)] *)
Fixpoint Add (m : Values) (k v : string) : Values :=
  match m with
  | [] => [(k, [v])]
  | (k', vs) :: m' =>
      if String.eqb k' k then (k', vs ++ [v]) :: m'
      else (k', vs) :: Add m' k v
  end.

Definition ishex (a : ascii) : bool :=
  let n := codeOf a in
  ((Nat.leb 48 n && Nat.leb n 57) || (Nat.leb 97 n && Nat.leb n 102)
   || (Nat.leb 65 n && Nat.leb n 70))%bool.

Definition unhex (a : ascii) : nat :=
  let n := codeOf a in
  if (Nat.leb 48 n && Nat.leb n 57)%bool then n - 48
  else if (Nat.leb 97 n && Nat.leb n 102)%bool then n - 97 + 10
  else if (Nat.leb 65 n && Nat.leb n 70)%bool then n - 65 + 10
  else 0.

Definition errEscape : string := "invalid URL escape".

(** [url.QueryUnescape] *)
Fixpoint QueryUnescape (s : string) : result string :=
  match s with
  | EmptyString => Ok EmptyString
  | String a s1 =>
      if Ascii.eqb a "%"%char then
        match s1 with
        | String h1 (String h2 s3) =>
            if (ishex h1 && ishex h2)%bool then
              r <- QueryUnescape s3 ;;
              Ok (String (byteOf (16 * unhex h1 + unhex h2)) r)
            else Err errEscape
        | _ => Err errEscape
        end
      else
        r <- QueryUnescape s1 ;;
        Ok (String (if Ascii.eqb a "+"%char then " "%char else a) r)
  end.

(** The bytes [shouldEscape] leaves alone in a query component. *)
Definition unreserved (a : ascii) : bool :=
  let n := codeOf a in
  ((Nat.leb 97 n && Nat.leb n 122) || (Nat.leb 65 n && Nat.leb n 90)
   || (Nat.leb 48 n && Nat.leb n 57)
   || Nat.eqb n 45 || Nat.eqb n 95 || Nat.eqb n 46 || Nat.eqb n 126)%bool.

Definition upperhex (n : nat) : ascii :=
  if Nat.ltb n 10 then byteOf (48 + n) else byteOf (65 + (n - 10)).

(** [url.QueryEscape] *)
Fixpoint QueryEscape (s : string) : string :=
  match s with
  | EmptyString => EmptyString
  | String a s' =>
      if unreserved a then String a (QueryEscape s')
      else if Ascii.eqb a " "%char then String "+"%char (QueryEscape s')
      else
        String "%"%char
          (String (upperhex (codeOf a / 16))
             (String (upperhex (codeOf a mod 16)) (QueryEscape s')))
  end.

(** One [key=value] piece of the loop of [parseQuery].  [None] when the
    piece sets the error that [ParseQuery] returns in the end. *)
Definition parsePiece (m : Values) (piece : string) : option Values :=
  if Strings.ContainsByte piece ";"%char then None
  else if Str.isEmpty piece then Some m
  else
    let (key, value) := Strings.Cut piece "="%char in
    match QueryUnescape key with
    | Ok key' =>
        match QueryUnescape value with
        | Ok value' => Some (Add m key' value')
        | _ => None
        end
    | _ => None
    end.

Definition errQuery : string := "form: invalid form data".

(** [url.ParseQuery]: the pieces between [&] are taken from left to
    right; a piece in error is skipped and makes the call return an
    error, which is all [Unmarshal] looks at. *)
Fixpoint parseQuery (m : Values) (pieces : list string) (failed : bool)
  : result Values :=
  match pieces with
  | [] => if failed then Err errQuery else Ok m
  | p :: ps =>
      match parsePiece m p with
      | Some m' => parseQuery m' ps failed
      | None => parseQuery m ps true
      end
  end.

Definition ParseQuery (query : string) : result Values :=
  parseQuery [] (Strings.Split query "&"%char) false.

(** Insertion of a key into a list of keys in ascending byte order. *)
Fixpoint insertKey (k : string) (ks : list string) : list string :=
  match ks with
  | [] => [k]
  | k' :: ks' =>
      if String.leb k k' then k :: ks else k' :: insertKey k ks'
  end.

Definition sortKeys (ks : list string) : list string :=
  fold_right insertKey [] ks.

Definition joinAmp (ps : list string) : string := String.concat "&" ps.

(** [url.Values.Encode]: keys in ascending order, the values of a key in
    the order they were added. *)
Definition encodePairs (m : Values) : list (string * string) :=
  flat_map (fun k => map (fun v => (k, v)) (Get m k)) (sortKeys (map fst m)).

Definition Encode (m : Values) : string :=
  joinAmp (map (fun kv => QueryEscape (fst kv) ++ "=" ++ QueryEscape (snd kv))%string
               (encodePairs m)).

End Url.

(** ** The universe of Go values

    A [reflect.Value] is modelled by a [value] that carries the part of
    its [reflect.Type] the code looks at: the element type of slices,
    arrays, maps and pointers, the declared fields of a struct, and the
    name of a defined type.  Kinds the codec has no case for (channels,
    functions, complex numbers, ...) are kept as [VOther], with whether
    the value is nil.  A float is kept as its IEEE bit pattern, a slice
    without elements stands for the nil slice, and [int] and [uint] are
    64 bits wide. *)

Inductive otherKind : Type :=
| Chan | Func | Complex64 | Complex128 | Uintptr | UnsafePointer.

(** A declared struct field: its Go identifier and the value of the
    [form] key of its tag. *)
Record structField : Type := mkField { fieldName : string; fieldTag : string }.

Inductive type : Type :=
| TBool
| TString
| TInt (bits : nat)
| TUint (bits : nat)
| TFloat (bits : nat)
| TOther (k : otherKind)
| TPointer (elem : type)
| TInterface
| TSlice (elem : type)
| TArray (len : nat) (elem : type)
| TMap (key elem : type)
| TStruct (fields : list (structField * type))
| TNamed (name : string) (underlying : type).

Inductive value : Type :=
| VBool (b : bool)
| VString (s : string)
| VInt (bits : nat) (i : Z)
| VUint (bits : nat) (u : Z)
| VFloat (bits : nat) (f : Z)
| VOther (k : otherKind) (isnil : bool)
| VPointer (elem : type) (p : option value)
| VInterface (e : option value)
| VSlice (elem : type) (xs : list value)
| VArray (elem : type) (xs : list value)
| VMap (key elem : type) (m : option (list (string * value)))
| VStruct (fs : list (structField * value))
| VNamed (name : string) (v : value).

(** [reflect.Zero] *)
Fixpoint zero (t : type) : value :=
  match t with
  | TBool => VBool false
  | TString => VString ""
  | TInt b => VInt b 0
  | TUint b => VUint b 0
  | TFloat b => VFloat b 0
  | TOther k => VOther k true
  | TPointer e => VPointer e None
  | TInterface => VInterface None
  | TSlice e => VSlice e []
  | TArray n e => VArray e (repeat (zero e) n)
  | TMap k e => VMap k e None
  | TStruct fs => VStruct (map (fun ft => (fst ft, zero (snd ft))) fs)
  | TNamed n u =>
      VNamed n (match zero u with VNamed _ x => x | x => x end)
  end.

(** The type behind the names of a defined type. *)
Fixpoint underlyingType (t : type) : type :=
  match t with
  | TNamed _ u => underlyingType u
  | _ => t
  end.

(** The value behind the name of a defined type: what [v.Kind()] and the
    accessors of [reflect] see.  A value has at most one name. *)
Definition underlying (v : value) : value :=
  match v with
  | VNamed _ u => u
  | _ => v
  end.

(** The same defined type around a new underlying value. *)
Definition rewrap (v u' : value) : value :=
  match v with
  | VNamed n _ => VNamed n u'
  | _ => u'
  end.

Definition isInterfaceType (t : type) : bool :=
  match underlyingType t with TInterface => true | _ => false end.

Definition isSliceType (t : type) : option type :=
  match underlyingType t with TSlice e => Some e | _ => None end.

Definition isStringKind (t : type) : bool :=
  match underlyingType t with TString => true | _ => false end.

(** Entries of a Go map, one per key. *)
Definition entries : Type := list (string * value).

Fixpoint lookup (m : entries) (k : string) : option value :=
  match m with
  | [] => None
  | (k', v) :: m' => if String.eqb k' k then Some v else lookup m' k
  end.

(** [m[k] = v] *)
Fixpoint store (m : entries) (k : string) (v : value) : entries :=
  match m with
  | [] => [(k, v)]
  | (k', v') :: m' =>
      if String.eqb k' k then (k', v) :: m' else (k', v') :: store m' k v
  end.

(** ** tags.go *)

Record tag : Type := mkTag { Name : string; Omit : bool; Ignore : bool }.

Definition parseTag (str : string) : tag :=
  let str := Strings.TrimSpace str in
  if String.eqb str "-" then mkTag "" false true
  else
    match Strings.Split str ","%char with
    | [] => mkTag "" false true
    | first :: flags =>
        let name := Strings.TrimSpace first in
        let t :=
          if String.eqb name "-" then mkTag "" false true
          else mkTag name false false in
        fold_left
          (fun t p =>
             let p := Strings.TrimSpace p in
             if String.eqb p "omitempty" then mkTag (Name t) true (Ignore t)
             else if String.eqb p "ignore" then mkTag (Name t) (Omit t) true
             else t)
          flags t
    end.

(** The tag of one field, as the loop of [tags] stores it. *)
Definition fieldTagOf (f : structField) : tag :=
  let t := parseTag (fieldTag f) in
  if (negb (Ignore t) && String.eqb (Name t) "")%bool
  then mkTag (fieldName f) (Omit t) (Ignore t)
  else t.

(** [tags]: the metadata of the fields of a struct in declaration order.
    The cache in front of the computation does not change what is
    returned and is not modelled. *)
Definition tags (v : value) : list tag :=
  match underlying v with
  | VStruct fs => map (fun fv => fieldTagOf (fst fv)) fs
  | VPointer _ (Some p) =>
      match underlying p with
      | VStruct fs => map (fun fv => fieldTagOf (fst fv)) fs
      | _ => []
      end
  | _ => []
  end.

(** An identifier is exported when it starts with an upper-case letter
    (the ASCII ones here). *)
Definition isExported (name : string) : bool :=
  match name with
  | String a _ => (Nat.leb 65 (codeOf a) && Nat.leb (codeOf a) 90)%bool
  | EmptyString => false
  end.

(** ** The environment of a call

    What the code reaches through interfaces and the run time: the
    [Unmarshaler] and [Marshaler] methods of the value types at hand,
    the float conversions of [strconv], and the order in which a [range]
    over a map, or [MapKeys], yields the keys. *)
Record Env : Type := mkEnv {
  (** [v.Addr().Interface().(Unmarshaler)]: the new value of [v] after
      [UnmarshalForm s], or its error. *)
  ptrUnmarshaler : value -> option (string -> result value);
  (** [v.Interface().(Unmarshaler)] *)
  valUnmarshaler : value -> option (string -> result value);
  (** [v.Addr().Interface().(Marshaler)]: the result of [MarshalForm]. *)
  ptrMarshaler : value -> option (result string);
  (** [v.Interface().(Marshaler)] *)
  valMarshaler : value -> option (result string);
  (** [strconv.ParseFloat s bits], as bits; [None] for an error. *)
  ParseFloat : string -> nat -> option Z;
  (** [strconv.FormatFloat f 'f' -1 bits] *)
  FormatFloat : Z -> nat -> string;
  (** [v.IsZero()] for a float. *)
  floatIsZero : Z -> bool;
  (** The order in which [range values] visits a [url.Values]. *)
  rangeValues : Values -> Values;
  (** The order in which [v.MapKeys()] lists the keys of a map. *)
  mapKeys : list string -> list string
}.

(** The run time visits every key once. *)
Definition fairOrder (E : Env) : Prop :=
  (forall m, Permutation (rangeValues E m) m) /\
  (forall ks, Permutation (mapKeys E ks) ks).

(** ** decode.go *)

(** A call that works on a [reflect.Value] in place: the value it leaves
    behind, and how the call ended. *)
Definition update : Type := (value * result unit)%type.

Definition errUnaddressable : string := "reflect: value is not addressable".
Definition errIsNil : string := "reflect: call of reflect.Value.IsNil on a wrong kind".
Definition errConversion : string := "interface conversion: wrong dynamic type".
Definition errNilMap : string := "assignment to entry in nil map".
Definition errMapKey : string := "reflect.Value.MapIndex: key type mismatch".
Definition errUnsupported : string := "unsupported type".
Definition errUnknownField : string := "unknown field in struct".
Definition errSliceIndex : string := "form: expected slice index".
Definition errCannotAssign : string := "cannot assign to kind".

(** [v.Set(x)] and the typed setters: they panic on a value that is not
    addressable. *)
Definition set (addr : bool) (v x : value) : update :=
  if addr then (x, Ok tt) else (v, Panic errUnaddressable).

(** [v.IsValid() && !v.IsNil()], where [None] is the invalid
    [reflect.Value{}]. *)
Definition validNotNil (v : option value) : result bool :=
  match v with
  | None => Ok false
  | Some x =>
      match underlying x with
      | VPointer _ p => Ok (match p with Some _ => true | None => false end)
      | VInterface e => Ok (match e with Some _ => true | None => false end)
      | VSlice _ xs => Ok (match xs with [] => false | _ => true end)
      | VMap _ _ m => Ok (match m with Some _ => true | None => false end)
      | VOther Chan n | VOther Func n | VOther UnsafePointer n => Ok (negb n)
      | _ => Panic errIsNil
      end
  end.

(** [v.Interface()]: the dynamic value, also behind an interface kind. *)
Definition dynamic (v : value) : option value :=
  match v with
  | VInterface e => e
  | _ => Some v
  end.

(** [reflect.ValueOf(x)] for an [x] of type [interface{}] read from a
    map or a slice. *)
Definition valueOf (x : option value) : option value :=
  match x with
  | Some (VInterface e) => e
  | other => other
  end.

(** [inferSliceValue], with [elem] the result of its call
    [inferInterfaceValue(reflect.Value{}, path[1:], val)]. *)
Definition inferSliceValue (elem : result value) (v : option value)
  : result value :=
  slice <- (b <- validNotNil v ;;
            if b then
              match v with
              | Some x =>
                  match dynamic x with
                  | Some (VSlice TInterface xs) => Ok xs
                  | _ => Panic errConversion
                  end
              | None => Ok []
              end
            else Ok []) ;;
  e <- elem ;;
  Ok (VSlice TInterface (slice ++ [VInterface (Some e)])).

(** [inferMapValue], with [rec] its call of [inferInterfaceValue] on
    [path[1:]]. *)
Definition inferMapValue (rec : option value -> result value)
           (v : option value) (seg : pathSegment) : result value :=
  m <- (b <- validNotNil v ;;
        if b then
          match v with
          | Some x =>
              match dynamic x with
              | Some (VMap TString TInterface m) => Ok m
              | _ => Panic errConversion
              end
          | None => Ok (Some [])
          end
        else Ok (Some [])) ;;
  let old := match m with Some es => lookup es (Key seg) | None => None end in
  e <- rec (valueOf old) ;;
  match m with
  | Some es => Ok (VMap TString TInterface (Some (store es (Key seg) (VInterface (Some e)))))
  | None => Panic errNilMap
  end.

Fixpoint inferInterfaceValue (v : option value) (path : list pathSegment)
         (val : string) {struct path} : result value :=
  match path with
  | [] => Ok (VString val)
  | seg :: rest =>
      if Index seg
      then inferSliceValue (inferInterfaceValue None rest val) v
      else inferMapValue (fun old => inferInterfaceValue old rest val) v seg
  end.

Section Decode.

Variable E : Env.

Definition asUnmarshaler (addr : bool) (v : value)
  : option (string -> result value) :=
  match (if addr then ptrUnmarshaler E v else None) with
  | Some u => Some u
  | None => valUnmarshaler E v
  end.

Definition setInt (addr : bool) (v : value) (bits : nat) (s : string) : update :=
  if Str.isEmpty s then set addr v (rewrap v (VInt bits 0))
  else
    match Strconv.ParseInt s bits with
    | Ok i => set addr v (rewrap v (VInt bits i))
    | Err e => (v, Err ("setInt: " ++ e)%string)
    | Panic e => (v, Panic e)
    end.

Definition setUint (addr : bool) (v : value) (bits : nat) (s : string) : update :=
  if Str.isEmpty s then set addr v (rewrap v (VUint bits 0))
  else
    match Strconv.ParseUint s bits with
    | Ok i => set addr v (rewrap v (VUint bits i))
    | Err e => (v, Err ("parseUint: " ++ e)%string)
    | Panic e => (v, Panic e)
    end.

Definition setFloat (addr : bool) (v : value) (bits : nat) (s : string) : update :=
  if Str.isEmpty s then set addr v (rewrap v (VFloat bits 0))
  else
    match ParseFloat E s bits with
    | Some f => set addr v (rewrap v (VFloat bits f))
    | None => (v, Err "parseFloat: invalid syntax")
    end.

Definition parseBool (addr : bool) (v : value) (s : string) : update :=
  if Str.isEmpty s then set addr v (rewrap v (VBool false))
  else
    match Strconv.ParseBool s with
    | Ok b => set addr v (rewrap v (VBool b))
    | Err e => (v, Err ("parseBool: " ++ e)%string)
    | Panic e => (v, Panic e)
    end.

Definition setScalar (addr : bool) (v : value) (val : string) : update :=
  match underlying v with
  | VString _ => set addr v (rewrap v (VString val))
  | VInt bits _ => setInt addr v bits val
  | VUint bits _ => setUint addr v bits val
  | VFloat bits _ => setFloat addr v bits val
  | VBool _ => parseBool addr v val
  | _ => (v, Err errUnsupported)
  end.

Definition assignLeaf (addr : bool) (v : value) (val : string) : update :=
  match asUnmarshaler addr v with
  | Some u =>
      match u val with
      | Ok v' => (v', Ok tt)
      | Err e => (v, Err e)
      | Panic e => (v, Panic e)
      end
  | None => setScalar addr v val
  end.

(** [deref], followed by the work [k] on the value it returns.  The
    pointee of a pointer is addressable; a nil pointer is first set to
    a fresh zero value, which takes an addressable pointer. *)
Definition deref (addr : bool) (v : value) (k : bool -> value -> update)
  : update :=
  match underlying v with
  | VPointer t None =>
      if addr then
        let (x, r) := k true (zero t) in (rewrap v (VPointer t (Some x)), r)
      else (v, Panic errUnaddressable)
  | VPointer t (Some x) =>
      let (x', r) := k true x in (rewrap v (VPointer t (Some x')), r)
  | _ => k addr v
  end.

(** The index of the field [findStructField] returns. *)
Fixpoint findField (ts : list tag) (key : string) (i : nat) : option nat :=
  match ts with
  | [] => None
  | t :: ts' =>
      if Ignore t then findField ts' key (S i)
      else if String.eqb (Name t) key then Some i
      else findField ts' key (S i)
  end.

Definition findStructField (v : value) (key : string) : option nat :=
  findField (tags v) key 0.

Fixpoint setNth {A} (i : nat) (x : A) (l : list A) : list A :=
  match l, i with
  | [], _ => []
  | _ :: l', 0 => x :: l'
  | y :: l', S i' => y :: setNth i' x l'
  end.

(** [field.CanSet()]: the struct is addressable and the field exported. *)
Definition assignStructField (rec : bool -> value -> update) (addr : bool)
           (v : value) (key : string) : update :=
  match underlying v with
  | VStruct fs =>
      match findStructField v key with
      | Some i =>
          match nth_error fs i with
          | Some (f, fv) =>
              if (addr && isExported (fieldName f))%bool then
                let (fv', r) := rec true fv in
                (rewrap v (VStruct (setNth i (f, fv') fs)), r)
              else (v, Err errUnknownField)
          | None => (v, Err errUnknownField)
          end
      | None => (v, Err errUnknownField)
      end
  | _ => (v, Err errUnknownField)
  end.

Definition mapOf (v : value) (kt et : type) (es : entries) : value :=
  rewrap v (VMap kt et (Some es)).

(** The three branches of [assignMapValue], after the map has been made
    and the key looked up. *)
Definition assignMapInterface (v : value) (kt et : type) (es : entries)
           (seg : pathSegment) (path : list pathSegment) (val : string)
  : update :=
  match inferInterfaceValue (lookup es (Key seg)) path val with
  | Ok newVal =>
      (mapOf v kt et (store es (Key seg) (VInterface (Some newVal))), Ok tt)
  | Err e => (mapOf v kt et es, Err e)
  | Panic e => (mapOf v kt et es, Panic e)
  end.

Definition assignMapSlice (v : value) (kt et elemT : type) (es : entries)
           (seg : pathSegment) (val : string) : update :=
  let slice := match lookup es (Key seg) with
               | Some s => s
               | None => zero et
               end in
  let (newElem, r) := assignLeaf true (zero elemT) val in
  match r with
  | Ok _ =>
      match underlying slice with
      | VSlice t xs =>
          (mapOf v kt et
             (store es (Key seg) (rewrap slice (VSlice t (xs ++ [newElem])))),
           Ok tt)
      | _ => (mapOf v kt et es, Panic "reflect.Append: not a slice")
      end
  | Err e => (mapOf v kt et es, Err e)
  | Panic e => (mapOf v kt et es, Panic e)
  end.

Definition assignMapSingle (rec : bool -> value -> update) (v : value)
           (kt et : type) (es : entries) (seg : pathSegment) : update :=
  match lookup es (Key seg) with
  | Some elem =>
      (* the element is a copy out of the map: not addressable; what
         it refers to (a pointee, a map) is shared with the map *)
      let (elem', r) := deref false elem rec in
      (mapOf v kt et (store es (Key seg) elem'), r)
  | None =>
      let (elem', r) := deref true (zero et) rec in
      match r with
      | Ok _ => (mapOf v kt et (store es (Key seg) elem'), Ok tt)
      | _ => (mapOf v kt et es, r)
      end
  end.

Definition assignMapValue (rec : bool -> value -> update) (addr : bool)
           (v : value) (seg : pathSegment) (path : list pathSegment)
           (val : string) : update :=
  match underlying v with
  | VMap kt et m =>
      match m, addr with
      | None, false => (v, Panic errUnaddressable)
      | _, _ =>
          let es := match m with Some es => es | None => [] end in
          match kt with
          | TString =>
              if isInterfaceType et then assignMapInterface v kt et es seg path val
              else
                match isSliceType et with
                | Some elemT => assignMapSlice v kt et elemT es seg val
                | None => assignMapSingle rec v kt et es seg
                end
          | _ => (mapOf v kt et es, Panic errMapKey)
          end
      end
  | _ => (v, Err errCannotAssign)
  end.

Definition assignSliceValue (rec : bool -> value -> update) (addr : bool)
           (v : value) (seg : pathSegment) (path : list pathSegment)
           (val : string) : update :=
  if negb (Index seg) then (v, Err errSliceIndex)
  else
    match underlying v with
    | VSlice t xs =>
        let (newElem, r) :=
          (if isInterfaceType t then
             match inferInterfaceValue None path val with
             | Ok e => (VInterface (Some e), Ok tt)
             | Err e => (VInterface None, Err e)
             | Panic e => (VInterface None, Panic e)
             end
           else
             match path with
             | [] => assignLeaf true (zero t) val
             | _ => rec true (zero t)
             end) : update in
        match r with
        | Ok _ => set addr v (rewrap v (VSlice t (xs ++ [newElem])))
        | _ => (v, r)
        end
    | _ => (v, Err errCannotAssign)
    end.

(** The [switch v.Kind()] of [assign] for the kinds with a structure. *)
Definition assignKind (rec : bool -> value -> update) (addr : bool)
           (v : value) (seg : pathSegment) (path : list pathSegment)
           (val : string) : update :=
  match underlying v with
  | VStruct _ => assignStructField rec addr v (Key seg)
  | VMap _ _ _ => assignMapValue rec addr v seg path val
  | VSlice _ _ => assignSliceValue rec addr v seg path val
  | _ => (v, Err errCannotAssign)
  end.

(** [assign].  [addr] tells whether [v] is addressable.  The case of a
    non-nil interface is the call [assign(v.Elem(), path, val)] of
    [assignInterfaceValue]: the element of an interface is not
    addressable, and is never of interface kind itself. *)
Fixpoint assign (addr : bool) (v : value) (path : list pathSegment)
         (val : string) {struct path} : update :=
  deref addr v (fun addr v =>
    match path with
    | [] => assignLeaf addr v val
    | seg :: rest =>
        let rec := fun a x => assign a x rest val in
        match underlying v with
        | VInterface None =>
            match inferInterfaceValue (Some v) path val with
            | Ok newVal => set addr v (rewrap v (VInterface (Some newVal)))
            | Err e => (v, Err e)
            | Panic e => (v, Panic e)
            end
        | VInterface (Some x) =>
            let (x', r) :=
              deref false x (fun a y => assignKind rec a y seg rest val) in
            (rewrap v (VInterface (Some x')), r)
        | _ => assignKind rec addr v seg rest val
        end
    end).

Definition assignInterfaceValue (addr : bool) (v : value)
           (path : list pathSegment) (val : string) : update :=
  assign addr v path val.

(** The inner loop of [unmarshalForm]: the values of one key. *)
Fixpoint assignAll (v : value) (path : list pathSegment) (vals : list string)
  : update :=
  match vals with
  | [] => (v, Ok tt)
  | val :: vals' =>
      let (v', r) := assign true v path val in
      match r with
      | Ok _ => assignAll v' path vals'
      | Err e => (v', Err ("form: " ++ e)%string)
      | Panic e => (v', Panic e)
      end
  end.

(** The outer loop of [unmarshalForm], over the keys in the order the
    [range] yields them. *)
Fixpoint unmarshalKeys (v : value) (kvs : Values) : update :=
  match kvs with
  | [] => (v, Ok tt)
  | (rawKey, vals) :: kvs' =>
      match parseKey rawKey with
      | Ok path =>
          let (v', r) := assignAll v path vals in
          match r with
          | Ok _ => unmarshalKeys v' kvs'
          | _ => (v', r)
          end
      | Err e => (v, Err e)
      | Panic e => (v, Panic e)
      end
  end.

Definition unmarshalForm (values : Values) (v : value) : update :=
  unmarshalKeys v (rangeValues E values).

Definition errEmptyInput : string := "form: empty input".
Definition errInvalidUnmarshal : string := "form: Unmarshal(nil or non-pointer)".
Definition errTopLevel : string := "form: top-level value must be struct or map".
Definition errMapKeys : string := "form: map keys must be strings".

(** [Unmarshal(data, v)].  [v] is the [interface{}] argument, [None]
    for nil.  The result holds the argument as the call leaves it:
    the pointer is the same, what it points to may have changed. *)
Definition Unmarshal (data : string) (v : option value)
  : option value * result unit :=
  if Nat.eqb (String.length data) 0 then (v, Err errEmptyInput)
  else
    match v with
    | None => (v, Err errInvalidUnmarshal)
    | Some rv =>
        match underlying rv with
        | VPointer t (Some target) =>
            let checked : result unit :=
              match underlying target with
              | VStruct _ => Ok tt
              | VMap kt _ _ =>
                  if isStringKind kt then Ok tt else Err errMapKeys
              | _ => Err errTopLevel
              end in
            match checked with
            | Ok _ =>
                match Url.ParseQuery (Strings.TrimSpace data) with
                | Ok values =>
                    let (target', r) := unmarshalForm values target in
                    (Some (rewrap rv (VPointer t (Some target'))), r)
                | Err e => (v, Err e)
                | Panic e => (v, Panic e)
                end
            | Err e => (v, Err e)
            | Panic e => (v, Panic e)
            end
        | _ => (v, Err errInvalidUnmarshal)
        end
    end.

Definition DecodeString (data : string) (v : option value)
  : option value * result unit :=
  Unmarshal data v.

End Decode.

(** ** The encoder *)

Definition errIndexRange : string := "runtime error: index out of range".
Definition errUnexported : string :=
  "reflect.Value.Interface: value obtained from unexported field".
Definition errScalar : string := "form: unsupported type".

Definition renderPath (path : list string) : result string :=
  match path with
  | [] => Panic errIndexRange
  | first :: rest =>
      Ok (fold_left
            (fun b p =>
               if Str.isEmpty p then (b ++ "[]")%string
               else (b ++ "[" ++ p ++ "]")%string)
            rest first)
  end.

Section Encode.

Variable E : Env.

Definition asMarshaler (addr : bool) (v : value) : option (result string) :=
  match (if addr then ptrMarshaler E v else None) with
  | Some m => Some m
  | None => valMarshaler E v
  end.

Definition marshaler (out : Values) (path : list string) (m : result string)
  : result Values :=
  s <- m ;;
  k <- renderPath path ;;
  Ok (Url.Add out k s).

Definition getScalar (v : value) : result string :=
  match underlying v with
  | VString s => Ok s
  | VInt _ i => Ok (Strconv.FormatInt i)
  | VUint _ u => Ok (Strconv.FormatUint u)
  | VFloat bits f => Ok (FormatFloat E f bits)
  | VBool b => Ok (Strconv.FormatBool b)
  | _ => Panic errScalar
  end.

Definition marshalScalar (out : Values) (path : list string) (v : value)
  : result Values :=
  k <- renderPath path ;;
  s <- getScalar v ;;
  Ok (Url.Add out k s).

Definition isEmptyValue (v : value) : bool :=
  match underlying v with
  | VArray _ xs | VSlice _ xs => Nat.eqb (List.length xs) 0
  | VMap _ _ m =>
      match m with Some es => Nat.eqb (List.length es) 0 | None => true end
  | VString s => Nat.eqb (String.length s) 0
  | VBool b => negb b
  | VInt _ i | VUint _ i => Z.eqb i 0
  | VFloat _ f => floatIsZero E f
  | VInterface e => match e with Some _ => false | None => true end
  | VPointer _ p => match p with Some _ => false | None => true end
  | _ => false
  end.

(** [mv.Kind() == reflect.Interface && mv.IsNil()] *)
Definition isNilInterface (v : value) : bool :=
  match underlying v with
  | VInterface None => true
  | _ => false
  end.

(** A visit of one element: from the output so far to the output after. *)
Definition visit : Type := Values -> result Values.

(** The loop of [marshalStruct] over the fields and their tags. *)
Fixpoint structLoop (fields : list (tag * bool * visit)) (out : Values)
  : result Values :=
  match fields with
  | [] => Ok out
  | (t, empty, go) :: rest =>
      if Ignore t then structLoop rest out
      else if (Omit t && empty)%bool then structLoop rest out
      else if String.eqb (Name t) "" then structLoop rest out
      else out' <- go out ;; structLoop rest out'
  end.

(** The loop of [marshalMap] over [v.MapKeys()]; [table] holds the
    visit of the value under each key ([None] for a nil interface). *)
Fixpoint mapLoop (table : list (string * option visit)) (keys : list string)
         (out : Values) : result Values :=
  match keys with
  | [] => Ok out
  | k :: rest =>
      match find (fun e => String.eqb (fst e) k) table with
      | Some (_, Some go) => out' <- go out ;; mapLoop table rest out'
      | _ => mapLoop table rest out
      end
  end.

(** The loop of [marshalSlice]. *)
Fixpoint sliceLoop (elems : list (option visit)) (out : Values)
  : result Values :=
  match elems with
  | [] => Ok out
  | Some go :: rest => out' <- go out ;; sliceLoop rest out'
  | None :: rest => sliceLoop rest out
  end.

(** [marshalValue].  [addr] tells whether [v] is addressable and [ro]
    whether it was reached through an unexported field, in which case
    [v.Interface()] in [asMarshaler] panics. *)
Fixpoint marshalValue (addr ro : bool) (path : list string) (v : value)
         (out : Values) {struct v} : result Values :=
  let afterDeref := fun (addr : bool) (v : value) (dispatch : result Values) =>
    if ro then Panic errUnexported
    else
      match asMarshaler addr v with
      | Some m => marshaler out path m
      | None => dispatch
      end in
  let kinds := fun (addr : bool) (self : value) (u : value) =>
    match u with
    | VStruct fs =>
        structLoop
          (map (fun fv =>
                  (fieldTagOf (fst fv), isEmptyValue (snd fv),
                   marshalValue addr (negb (isExported (fieldName (fst fv))))
                     (path ++ [Name (fieldTagOf (fst fv))]) (snd fv)))
               fs)
          out
    | VMap _ _ (Some es) =>
        mapLoop
          (map (fun kv =>
                  (fst kv,
                   if isNilInterface (snd kv) then None
                   else Some (marshalValue false false (path ++ [fst kv]) (snd kv))))
               es)
          (mapKeys E (map fst es))
          out
    | VMap _ _ None => mapLoop [] (mapKeys E []) out
    | VSlice _ xs =>
        sliceLoop
          (map (fun x =>
                  if isNilInterface x then None
                  else Some (marshalValue true false (path ++ [""]) x))
               xs)
          out
    | VArray _ xs =>
        sliceLoop
          (map (fun x =>
                  if isNilInterface x then None
                  else Some (marshalValue addr false (path ++ [""]) x))
               xs)
          out
    | VInterface (Some x) => marshalValue false false path x out
    | VInterface None => Ok out
    | _ => marshalScalar out path self
    end in
  match underlying v with
  | VPointer _ None => Ok out
  | VPointer _ (Some x) => afterDeref true x (kinds true x (underlying x))
  | u => afterDeref addr v (kinds addr v u)
  end.

(** The functions [marshalValue] dispatches to, under their names in
    the source. *)
Definition marshalStruct (addr : bool) (path : list string)
           (fs : list (structField * value)) (out : Values) : result Values :=
  structLoop
    (map (fun fv =>
            (fieldTagOf (fst fv), isEmptyValue (snd fv),
             marshalValue addr (negb (isExported (fieldName (fst fv))))
               (path ++ [Name (fieldTagOf (fst fv))]) (snd fv)))
         fs)
    out.

Definition marshalMap (path : list string) (es : entries) (out : Values)
  : result Values :=
  mapLoop
    (map (fun kv =>
            (fst kv,
             if isNilInterface (snd kv) then None
             else Some (marshalValue false false (path ++ [fst kv]) (snd kv))))
         es)
    (mapKeys E (map fst es))
    out.

Definition marshalSlice (addr : bool) (path : list string) (xs : list value)
           (out : Values) : result Values :=
  sliceLoop
    (map (fun x =>
            if isNilInterface x then None
            else Some (marshalValue addr false (path ++ [""]) x))
         xs)
    out.

(** The [switch v.Kind()] of [marshalValue]. *)
Definition marshalKind (addr : bool) (path : list string) (v : value)
           (out : Values) : result Values :=
  match underlying v with
  | VStruct fs => marshalStruct addr path fs out
  | VMap _ _ (Some es) => marshalMap path es out
  | VMap _ _ None => marshalMap path [] out
  | VSlice _ xs => marshalSlice true path xs out
  | VArray _ xs => marshalSlice addr path xs out
  | VInterface (Some x) => marshalValue false false path x out
  | VInterface None => Ok out
  | _ => marshalScalar out path v
  end.

(** [marshalValue] from the test for a custom [Marshaler] on. *)
Definition marshalDereferenced (addr ro : bool) (path : list string)
           (v : value) (out : Values) : result Values :=
  if ro then Panic errUnexported
  else
    match asMarshaler addr v with
    | Some m => marshaler out path m
    | None => marshalKind addr path v out
    end.

(** [Marshal(v)]; [v] is the [interface{}] argument, [None] for nil. *)
Definition Marshal (v : option value) : result string :=
  match v with
  | None => Ok ""
  | Some rv0 =>
      let checked := fun (addr : bool) (rv : value) =>
        match underlying rv with
        | VStruct _ =>
            out <- marshalValue addr false [] rv [] ;; Ok (Url.Encode out)
        | VMap kt _ _ =>
            if isStringKind kt then
              out <- marshalValue addr false [] rv [] ;; Ok (Url.Encode out)
            else Err errMapKeys
        | _ => Err errTopLevel
        end in
      match underlying rv0 with
      | VPointer _ None => Ok ""
      | VPointer _ (Some rv) => checked true rv
      | _ => checked false rv0
      end
  end.

Definition EncodeToString (v : option value) : result string := Marshal v.

End Encode.

(** An environment for values without [Marshaler] or [Unmarshaler]
    methods and without floats, in which every map is visited in the
    order of its list of entries. *)
Definition plain : Env :=
  {| ptrUnmarshaler := fun _ => None;
     valUnmarshaler := fun _ => None;
     ptrMarshaler := fun _ => None;
     valMarshaler := fun _ => None;
     ParseFloat := fun _ _ => None;
     FormatFloat := fun _ _ => "";
     floatIsZero := fun f => Z.eqb f 0;
     rangeValues := fun m => m;
     mapKeys := fun ks => ks |}.

(** The same, with every map visited in the reverse order. *)
Definition plainReversed : Env :=
  {| ptrUnmarshaler := fun _ => None;
     valUnmarshaler := fun _ => None;
     ptrMarshaler := fun _ => None;
     valMarshaler := fun _ => None;
     ParseFloat := fun _ _ => None;
     FormatFloat := fun _ _ => "";
     floatIsZero := fun f => Z.eqb f 0;
     rangeValues := fun m => rev m;
     mapKeys := fun ks => rev ks |}.

(** The targets of the examples: [new(map[string]interface{})],
    [new(map[string]string)], [new(map[string][]string)], and a pointer
    to the record [Person] of the package's tests. *)
Definition dynamicMap (m : option entries) : value := VMap TString TInterface m.

Definition newDynamicMap : option value :=
  Some (VPointer (TMap TString TInterface) (Some (dynamicMap None))).

Definition newMapOf (elem : type) : option value :=
  Some (VPointer (TMap TString elem) (Some (VMap TString elem None))).

Definition PersonT : type :=
  TNamed "Person"
    (TStruct [ (mkField "Name" "name", TString);
               (mkField "Age" "age,omitempty", TInt 64);
               (mkField "Pronouns" "pronouns", TSlice TString) ]).

Definition newPerson : option value :=
  Some (VPointer PersonT (Some (zero PersonT))).

(** What a pointer argument points to after a call. *)
Definition pointee (v : option value) : option value :=
  match v with
  | Some p =>
      match underlying p with
      | VPointer _ x => x
      | _ => None
      end
  | None => None
  end.

(** ** Notions the properties are stated with *)

(** Some [[] of the key has no []] anywhere after it. *)
Fixpoint openBracket (key : string) : bool :=
  match key with
  | EmptyString => false
  | String a rest =>
      ((Ascii.eqb a lbracket && negb (Strings.ContainsByte rest rbracket))
       || openBracket rest)%bool
  end.

(** The same as a statement about positions. *)
Definition unterminated (key : string) : Prop :=
  exists i, Str.at_ key i = Some lbracket /\
            forall j, i < j -> Str.at_ key j <> Some rbracket.

Definition noBrackets (key : string) : bool :=
  (negb (Strings.ContainsByte key lbracket)
   && negb (Strings.ContainsByte key rbracket))%bool.

(** Go declares methods on defined types only: a value of an unnamed
    scalar, slice, array or map type has neither [MarshalForm] nor
    [UnmarshalForm], also when it is held in an interface. *)
Fixpoint methodless (v : value) : bool :=
  match v with
  | VBool _ | VString _ | VInt _ _ | VUint _ _ | VFloat _ _ | VOther _ _
  | VSlice _ _ | VArray _ _ | VMap _ _ _ => true
  | VInterface None => true
  | VInterface (Some x) => methodless x
  | _ => false
  end.

Definition goMethods (E : Env) : Prop :=
  forall v, methodless v = true ->
            ptrUnmarshaler E v = None /\ valUnmarshaler E v = None /\
            ptrMarshaler E v = None /\ valMarshaler E v = None.

(** A dynamic value held in a slot of type [interface{}]. *)
Definition boxed (v : value) : value := VInterface (Some v).

(** A record with one field [m] of type [map[string][]string]. *)
Definition TaggedT : type :=
  TNamed "Tagged" (TStruct [ (mkField "M" "m", TMap TString (TSlice TString)) ]).

Definition newTagged : option value :=
  Some (VPointer TaggedT (Some (zero TaggedT))).

Definition taggedWith (m : option entries) : option value :=
  Some (VPointer TaggedT
          (Some (VNamed "Tagged"
                   (VStruct [ (mkField "M" "m",
                               VMap TString (TSlice TString) m) ])))).

(** The two checks of [Unmarshal] and [Marshal] on the top-level value: a
    struct, or a map whose keys are of string kind. *)
Definition topLevelOk (target : value) : bool :=
  match underlying target with
  | VStruct _ => true
  | VMap kt _ _ => isStringKind kt
  | _ => false
  end.

(** The input is made of white-space runes only: trimming them from the
    front leaves nothing. *)
Definition onlySpace (data : string) : bool :=
  Str.isEmpty (Strings.TrimLeftSpace data).

(** An element of a kind the encoder has no case for (a channel, a
    function, a complex number, ...) sits where the traversal of [v]
    comes by: not in an ignored field, not in a field left out as empty,
    not in a field with an empty name, not behind a nil pointer or
    interface, and not inside a value that brings its own [MarshalForm].
    The flag tells whether [v] is looked at before ([true]) or after
    ([false]) the pointer at the head of [marshalValue] is followed. *)
Inductive reachesUnsupported (E : Env) : bool -> bool -> value -> Prop :=
| reach_pointer addr v t x :
    underlying v = VPointer t (Some x) ->
    reachesUnsupported E false true x ->
    reachesUnsupported E true addr v
| reach_direct addr v :
    (forall t p, underlying v <> VPointer t p) ->
    reachesUnsupported E false addr v ->
    reachesUnsupported E true addr v
| reach_here addr v k n :
    underlying v = VOther k n ->
    asMarshaler E addr v = None ->
    reachesUnsupported E false addr v
| reach_field addr v fs f fv :
    underlying v = VStruct fs ->
    asMarshaler E addr v = None ->
    In (f, fv) fs ->
    Ignore (fieldTagOf f) = false ->
    (Omit (fieldTagOf f) && isEmptyValue E fv)%bool = false ->
    Name (fieldTagOf f) <> "" ->
    reachesUnsupported E true addr fv ->
    reachesUnsupported E false addr v
| reach_entry addr v kt et es k mv :
    underlying v = VMap kt et (Some es) ->
    asMarshaler E addr v = None ->
    lookup es k = Some mv ->
    isNilInterface mv = false ->
    reachesUnsupported E true false mv ->
    reachesUnsupported E false addr v
| reach_slice addr v t xs x :
    underlying v = VSlice t xs ->
    asMarshaler E addr v = None ->
    In x xs ->
    isNilInterface x = false ->
    reachesUnsupported E true true x ->
    reachesUnsupported E false addr v
| reach_array addr v t xs x :
    underlying v = VArray t xs ->
    asMarshaler E addr v = None ->
    In x xs ->
    isNilInterface x = false ->
    reachesUnsupported E true addr x ->
    reachesUnsupported E false addr v
| reach_interface addr v x :
    underlying v = VInterface (Some x) ->
    asMarshaler E addr v = None ->
    reachesUnsupported E true false x ->
    reachesUnsupported E false addr v.

(** The values of the examples of the encoder: a record with an ignored
    channel field, and a dynamic map that holds a channel. *)
Definition withIgnoredChannel : value :=
  VStruct [ (mkField "Name" "name", VString "x");
            (mkField "Ch" "-", VOther Chan false) ].

Definition withChannelEntry : value :=
  dynamicMap (Some [("c", boxed (VOther Chan false))]).

(** ** The pairs of an encode

    What [marshalValue] adds to the output, as the list of the leaves in
    the order of the traversal, each with the path it was reached by. *)

Definition leaf : Type := (list string * string)%type.

(** The rendered path, as a total function. *)
Definition renderKey (path : list string) : string :=
  match renderPath path with
  | Ok k => k
  | _ => ""
  end.

(** The results of the visits of a loop, in order, up to the first that
    fails. *)
Fixpoint concatResults {A} (rs : list (result (list A))) : result (list A) :=
  match rs with
  | [] => Ok []
  | r :: rest => xs <- r ;; ys <- concatResults rest ;; Ok (xs ++ ys)
  end.

Fixpoint leaves (E : Env) (addr ro : bool) (path : list string) (v : value)
         {struct v} : result (list leaf) :=
  let afterDeref := fun (addr : bool) (v : value) (dispatch : result (list leaf)) =>
    if ro then Panic errUnexported
    else
      match asMarshaler E addr v with
      | Some m => s <- m ;; _ <- renderPath path ;; Ok [(path, s)]
      | None => dispatch
      end in
  let kinds := fun (addr : bool) (self : value) (u : value) =>
    match u with
    | VStruct fs =>
        concatResults
          (map (fun fv =>
                  let t := fieldTagOf (fst fv) in
                  if Ignore t then Ok []
                  else if (Omit t && isEmptyValue E (snd fv))%bool then Ok []
                  else if String.eqb (Name t) "" then Ok []
                  else leaves E addr (negb (isExported (fieldName (fst fv))))
                         (path ++ [Name t]) (snd fv))
               fs)
    | VMap _ _ (Some es) =>
        let table :=
          map (fun kv =>
                 (fst kv,
                  if isNilInterface (snd kv) then None
                  else Some (leaves E false false (path ++ [fst kv]) (snd kv)))) es in
        concatResults
          (map (fun k =>
                  match find (fun e => String.eqb (fst e) k) table with
                  | Some (_, Some r) => r
                  | _ => Ok []
                  end)
               (mapKeys E (map fst es)))
    | VMap _ _ None => Ok []
    | VSlice _ xs =>
        concatResults
          (map (fun x =>
                  if isNilInterface x then Ok []
                  else leaves E true false (path ++ [""]) x) xs)
    | VArray _ xs =>
        concatResults
          (map (fun x =>
                  if isNilInterface x then Ok []
                  else leaves E addr false (path ++ [""]) x) xs)
    | VInterface (Some x) => leaves E false false path x
    | VInterface None => Ok []
    | _ => _ <- renderPath path ;; s <- getScalar E self ;; Ok [(path, s)]
    end in
  match underlying v with
  | VPointer _ None => Ok []
  | VPointer _ (Some x) => afterDeref true x (kinds true x (underlying x))
  | u => afterDeref addr v (kinds addr v u)
  end.

(** [out.Add(renderPath(path), s)] for every leaf, in order. *)
Definition addAll (out : Values) (ps : list leaf) : Values :=
  fold_left (fun m p => Url.Add m (renderKey (fst p)) (snd p)) ps out.

Definition samePath (p q : list string) : bool :=
  if list_eq_dec String.string_dec p q then true else false.

(** The leaves of [ps] that were reached by the path [p], in order. *)
Definition under (p : list string) (ps : list leaf) : list leaf :=
  filter (fun x => samePath (fst x) p) ps.

(** Two lists of leaves hold, for every path, the same leaves in the same
    order. *)
Definition agree (ps qs : list leaf) : Prop :=
  forall p, under p ps = under p qs.

(** Different paths of [ps] render to different keys. *)
Definition renderInjective (ps : list leaf) : Prop :=
  forall a b, In a ps -> In b ps ->
              renderKey (fst a) = renderKey (fst b) -> fst a = fst b.

(** Two environments with the same [Marshaler]s and float formatting:
    they differ in the order of their map iterations at most. *)
Definition sameCodecs (E1 E2 : Env) : Prop :=
  (forall v, ptrMarshaler E1 v = ptrMarshaler E2 v) /\
  (forall v, valMarshaler E1 v = valMarshaler E2 v) /\
  (forall f b, FormatFloat E1 f b = FormatFloat E2 f b) /\
  (forall f, floatIsZero E1 f = floatIsZero E2 f).

(** Every map inside the value has one entry per key, as a Go map has. *)
Inductive wellKeyed : value -> Prop :=
| wk_bool b : wellKeyed (VBool b)
| wk_string s : wellKeyed (VString s)
| wk_int b i : wellKeyed (VInt b i)
| wk_uint b u : wellKeyed (VUint b u)
| wk_float b f : wellKeyed (VFloat b f)
| wk_other k n : wellKeyed (VOther k n)
| wk_nil_pointer t : wellKeyed (VPointer t None)
| wk_pointer t x : wellKeyed x -> wellKeyed (VPointer t (Some x))
| wk_nil_interface : wellKeyed (VInterface None)
| wk_interface x : wellKeyed x -> wellKeyed (VInterface (Some x))
| wk_slice t xs : Forall wellKeyed xs -> wellKeyed (VSlice t xs)
| wk_array t xs : Forall wellKeyed xs -> wellKeyed (VArray t xs)
| wk_nil_map kt et : wellKeyed (VMap kt et None)
| wk_map kt et es :
    NoDup (map fst es) ->
    Forall (fun kv => wellKeyed (snd kv)) es ->
    wellKeyed (VMap kt et (Some es))
| wk_struct fs :
    Forall (fun fv => wellKeyed (snd fv)) fs -> wellKeyed (VStruct fs)
| wk_named n v : wellKeyed v -> wellKeyed (VNamed n v).

(** The output of [url.Values.Encode] for a list of leaves. *)
Definition encodeLeaves (ps : list leaf) : string := Url.Encode (addAll [] ps).

(** The value of the counterexample to determinism: the entry ["a[b]"]
    and the entry ["b"] of the map under ["a"] render to the same key. *)
Definition collidingKeys : value :=
  dynamicMap
    (Some [ ("a[b]", boxed (VString "1"));
            ("a", boxed (dynamicMap (Some [("b", boxed (VString "2"))]))) ]).

(** The pairs of a list in ascending order of their keys. *)
Definition sortedByKey (ps : list (string * string)) : Prop :=
  StronglySorted (fun a b => String.leb (fst a) (fst b) = true) ps.

(** A pair as the serialization writes it. *)
Definition escapePair (kv : string * string) : string :=
  (Url.QueryEscape (fst kv) ++ "=" ++ Url.QueryEscape (snd kv))%string.

(** A leaf as the pair that goes to the output. *)
Definition rendered (p : leaf) : string * string := (renderKey (fst p), snd p).

(** The record [Person] of the tests with the given name and nothing else. *)
Definition personNamed (name : string) : value :=
  VNamed "Person"
    (VStruct [ (mkField "Name" "name", VString name);
               (mkField "Age" "age,omitempty", VInt 64 0);
               (mkField "Pronouns" "pronouns", VSlice TString []) ]).

Definition stringMap (m : option entries) : value := VMap TString TString m.

(** [leaves], call by call, as [marshalValue] is cut into
    [marshalStruct], [marshalMap], [marshalSlice] and the rest. *)
Definition leavesStruct (E : Env) (addr : bool) (path : list string)
           (fs : list (structField * value)) : result (list leaf) :=
  concatResults
    (map (fun fv =>
            let t := fieldTagOf (fst fv) in
            if Ignore t then Ok []
            else if (Omit t && isEmptyValue E (snd fv))%bool then Ok []
            else if String.eqb (Name t) "" then Ok []
            else leaves E addr (negb (isExported (fieldName (fst fv))))
                   (path ++ [Name t]) (snd fv))
         fs).

Definition leavesOfKey (E : Env) (path : list string) (es : entries)
           (k : string) : result (list leaf) :=
  match find (fun e => String.eqb (fst e) k)
             (map (fun kv =>
                     (fst kv,
                      if isNilInterface (snd kv) then None
                      else Some (leaves E false false (path ++ [fst kv]) (snd kv))))
                  es) with
  | Some (_, Some r) => r
  | _ => Ok []
  end.

Definition leavesMap (E : Env) (path : list string) (es : entries)
  : result (list leaf) :=
  concatResults (map (leavesOfKey E path es) (mapKeys E (map fst es))).

Definition leavesSlice (E : Env) (addr : bool) (path : list string)
           (xs : list value) : result (list leaf) :=
  concatResults
    (map (fun x =>
            if isNilInterface x then Ok []
            else leaves E addr false (path ++ [""]) x) xs).

Definition leavesKind (E : Env) (addr : bool) (path : list string) (v : value)
  : result (list leaf) :=
  match underlying v with
  | VStruct fs => leavesStruct E addr path fs
  | VMap _ _ (Some es) => leavesMap E path es
  | VMap _ _ None => Ok []
  | VSlice _ xs => leavesSlice E true path xs
  | VArray _ xs => leavesSlice E addr path xs
  | VInterface (Some x) => leaves E false false path x
  | VInterface None => Ok []
  | _ => _ <- renderPath path ;; s <- getScalar E v ;; Ok [(path, s)]
  end.

Definition leavesDereferenced (E : Env) (addr ro : bool) (path : list string)
           (v : value) : result (list leaf) :=
  if ro then Panic errUnexported
  else
    match asMarshaler E addr v with
    | Some m => s <- m ;; _ <- renderPath path ;; Ok [(path, s)]
    | None => leavesKind E addr path v
    end.

(** The leaves of a whole encode: [Marshal] up to the serialization. *)
Definition marshalLeaves (E : Env) (v : option value) : result (list leaf) :=
  match v with
  | None => Ok []
  | Some rv0 =>
      let checked := fun (addr : bool) (rv : value) =>
        match underlying rv with
        | VStruct _ => leaves E addr false [] rv
        | VMap kt _ _ =>
            if isStringKind kt then leaves E addr false [] rv
            else Err errMapKeys
        | _ => Err errTopLevel
        end in
      match underlying rv0 with
      | VPointer _ None => Ok []
      | VPointer _ (Some rv) => checked true rv
      | _ => checked false rv0
      end
  end.

(** The value [Marshal] traverses: the argument, or what it points to. *)
Definition marshalled (v : option value) : option value :=
  match v with
  | None => None
  | Some rv0 =>
      match underlying rv0 with
      | VPointer _ p => p
      | _ => Some rv0
      end
  end.

(** Every leaf of [ps] was reached by a path that starts with [path]. *)
Definition prefixed (path : list string) (ps : list leaf) : Prop :=
  forall x, In x ps -> exists suffix, fst x = path ++ suffix.

(** If the first traversal succeeds, so does the second, with the same
    leaves under every path. *)
Definition sameLeaves (r1 r2 : result (list leaf)) : Prop :=
  forall ps1, r1 = Ok ps1 -> exists ps2, r2 = Ok ps2 /\ agree ps1 ps2.

Definition related (path : list string) (r1 r2 : result (list leaf)) : Prop :=
  (forall ps, r1 = Ok ps -> prefixed path ps) /\
  (forall ps, r2 = Ok ps -> prefixed path ps) /\
  sameLeaves r1 r2.

(** The leaves of a successful visit, none for a failed one. *)
Definition okBlock (r : result (list leaf)) : list leaf :=
  match r with
  | Ok b => b
  | _ => []
  end.

(** A dynamic map with two entries, for the examples of the encoder. *)
Definition twoEntries : value :=
  dynamicMap (Some [ ("b", boxed (VString "2")); ("a", boxed (VString "1")) ]).

(** ** Dynamic values and the pairs of an input *)

(** The environment [E] with every map visited in the order of its list. *)
Definition inListOrder (E : Env) : Env :=
  {| ptrUnmarshaler := ptrUnmarshaler E;
     valUnmarshaler := valUnmarshaler E;
     ptrMarshaler := ptrMarshaler E;
     valMarshaler := valMarshaler E;
     ParseFloat := ParseFloat E;
     FormatFloat := FormatFloat E;
     floatIsZero := floatIsZero E;
     rangeValues := fun m => m;
     mapKeys := fun ks => ks |}.

(** What the inference builds: a string, a non-empty [[]interface{}] or a
    non-empty [map[string]interface{}], of such values. *)
Inductive dynTree : value -> Prop :=
| dyn_string s : dynTree (VString s)
| dyn_slice xs :
    xs <> [] ->
    Forall (fun x => exists t, x = boxed t /\ dynTree t) xs ->
    dynTree (VSlice TInterface xs)
| dyn_map es :
    es <> [] ->
    NoDup (map fst es) ->
    Forall (fun kv => exists t, snd kv = boxed t /\ dynTree t) es ->
    dynTree (VMap TString TInterface (Some es)).

(** The entries of a decoded [map[string]interface{}] target. *)
Definition dynEntries (es : entries) : Prop :=
  NoDup (map fst es) /\
  Forall (fun kv => exists t, snd kv = boxed t /\ dynTree t) es.

(** The leaves of a dynamic value, each with its path, in the order of
    the lists that hold them. *)
Fixpoint dleaves (path : list string) (v : value) : list leaf :=
  match v with
  | VString s => [(path, s)]
  | VInterface (Some x) => dleaves path x
  | VSlice _ xs => flat_map (fun x => dleaves (path ++ [""]) x) xs
  | VMap _ _ (Some es) =>
      flat_map (fun kv => dleaves (path ++ [fst kv]) (snd kv)) es
  | _ => []
  end.

(** An index marker carries no key, as in the paths [parseKey] returns. *)
Definition wfPath (path : list pathSegment) : Prop :=
  Forall (fun seg => Index seg = true -> Key seg = "") path.

(** The path of a raw key as the list of its segment keys. *)
Definition keyPath (rawKey : string) : list string :=
  match parseKey rawKey with
  | Ok path => map Key path
  | _ => []
  end.

(** The (path, leaf) pairs of a flat multimap, key by key. *)
Definition inputLeaves (kvs : Values) : list leaf :=
  flat_map (fun kv => map (fun v => (keyPath (fst kv), v)) (snd kv)) kvs.

(** The canonical form of an input: its pairs under their rendered
    paths, serialized in key order. *)
Definition canonicalize (kvs : Values) : string :=
  encodeLeaves (inputLeaves kvs).

(** Different raw keys of the input render to different canonical keys. *)
Definition distinctRender (kvs : Values) : Prop :=
  forall kv1 kv2, In kv1 kvs -> In kv2 kvs ->
    renderKey (keyPath (fst kv1)) = renderKey (keyPath (fst kv2)) ->
    fst kv1 = fst kv2.

(** What a slot held before an inference: nothing, a dynamic value, or a
    dynamic value in an interface. *)
Definition priorLeaves (prefix : list string) (old : option value) : list leaf :=
  match old with
  | Some v => dleaves prefix v
  | None => []
  end.

Inductive dynPrior : option value -> Prop :=
| prior_none : dynPrior None
| prior_value t : dynTree t -> dynPrior (Some t)
| prior_boxed t : dynTree t -> dynPrior (Some (boxed t)).

(** The leaves of one entry of a dynamic map reached by [prefix]. *)
Definition entryLeaves (prefix : list string) (kv : string * value) : list leaf :=
  dleaves (prefix ++ [fst kv]) (snd kv).

(** A segment as [parseKey] makes them: an index marker without a key, or
    a named segment with a key that is not empty. *)
Definition segmentOk (seg : pathSegment) : Prop :=
  if Index seg then Key seg = "" else Key seg <> "".

(** The entries of a dynamic top-level map, none for the nil map. *)
Definition topEntries (m : option entries) : entries :=
  match m with
  | Some es => es
  | None => []
  end.

(** The decoded value has one leaf for every pair of the input: no
    assignment replaced what an earlier one had stored. *)
Definition lossless (values : Values) (decoded : option value) : Prop :=
  List.length (priorLeaves [] (pointee decoded))
  = List.length (inputLeaves values).

(** The segment [parseKey] makes of the text between two brackets. *)
Definition segmentOf (p : string) : pathSegment :=
  if Str.isEmpty p then indexMarker else named p.

(** The bracketed parts [renderPath] writes after the first name. *)
Fixpoint bracketed (ps : list string) : string :=
  match ps with
  | [] => ""
  | p :: ps' => ("[" ++ p ++ "]" ++ bracketed ps')%string
  end.

(** The next segment of a key does not fit what an earlier key has
    stored in the slot: a string cannot be extended, a slice takes an
    index marker only, and a map a named segment only. *)
Definition shapeConflict (t : value) (seg : pathSegment) : bool :=
  match t with
  | VSlice _ _ => negb (Index seg)
  | VMap _ _ _ => Index seg
  | _ => true
  end.

(** The argument of [Unmarshal] passes its checks: a pointer that is not
    nil, to a struct or to a map with keys of string kind. *)
Definition validTarget (v : option value) : bool :=
  match pointee v with
  | Some target => topLevelOk target
  | None => false
  end.

(** An environment in which the defined type [Stamp] has a [MarshalForm]
    method with a value receiver, which returns a fixed text. *)
Definition stamped : Env :=
  {| ptrUnmarshaler := fun _ => None;
     valUnmarshaler := fun _ => None;
     ptrMarshaler := fun _ => None;
     valMarshaler := fun v =>
       match v with
       | VNamed n _ => if String.eqb n "Stamp" then Some (Ok "2025.02.08") else None
       | _ => None
       end;
     ParseFloat := fun _ _ => None;
     FormatFloat := fun _ _ => "";
     floatIsZero := fun f => Z.eqb f 0;
     rangeValues := fun m => m;
     mapKeys := fun ks => ks |}.

(** A value of the struct type [Stamp]. *)
Definition stamp : value :=
  VNamed "Stamp" (VStruct [ (mkField "Day" "day", VInt 64 8) ]).

(** The argument of [Marshal] for a top-level value [rv], passed as it is
    or through a pointer. *)
Definition passed (viaPointer : bool) (t : type) (rv : value) : option value :=
  Some (if viaPointer then VPointer t (Some rv) else rv).

(** A scalar whose text the decoder reads back: a string, a boolean, or
    an integer within the range of its width. *)
Definition readableScalar (v : value) : bool :=
  match v with
  | VString _ | VBool _ => true
  | VInt bits i =>
      ((- 2 ^ (Z.of_nat bits - 1) <=? i)%Z && (i <? 2 ^ (Z.of_nat bits - 1))%Z)%bool
  | VUint bits u => ((0 <=? u)%Z && (u <? 2 ^ Z.of_nat bits)%Z)%bool
  | _ => false
  end.

(** Two scalars of the same unnamed type. *)
Definition sameScalarType (a b : value) : bool :=
  match a, b with
  | VString _, VString _ | VBool _, VBool _ => true
  | VInt m _, VInt n _ | VUint m _, VUint n _ => Nat.eqb m n
  | _, _ => false
  end.

(** A flag of a struct tag, up to the white space around it. *)
Definition isFlag (flag p : string) : bool :=
  String.eqb (Strings.TrimSpace p) flag.

(** The tag that [parseTag] returns, read off the parts of its text: the
    name, and whether some flag is [omitempty] or [ignore]. *)
Definition tagOfParts (first : string) (flags : list string) : tag :=
  let name := Strings.TrimSpace first in
  mkTag (if String.eqb name "-" then "" else name)
        (existsb (isFlag "omitempty") flags)
        (String.eqb name "-" || existsb (isFlag "ignore") flags).

(** A field of a struct that [marshalStruct] does not skip. *)
Definition keptField (E : Env) (fv : structField * value) : bool :=
  let t := fieldTagOf (fst fv) in
  (negb (Ignore t) && negb (Omit t && isEmptyValue E (snd fv))
   && negb (String.eqb (Name t) ""))%bool.

(** * Properties *)

(** ** The path parser *)

Section StringFacts.

Lemma IndexByte_none_at s c :
  Str.IndexByte s c = None <-> forall i, Str.at_ s i <> Some c.
Proof.
  induction s as [|a s IH]; simpl.
  - split; [intros _ i; destruct i; discriminate | reflexivity].
  - destruct (Ascii.eqb a c) eqn:Hac.
    + apply Ascii.eqb_eq in Hac; subst. split; [discriminate|].
      intros H; exfalso; apply (H 0); reflexivity.
    + apply Ascii.eqb_neq in Hac.
      destruct (Str.IndexByte s c) as [k|] eqn:Hk; simpl.
      * split; [discriminate|]. intros H; exfalso.
        assert (Hn : forall i, Str.at_ s i <> Some c)
          by (intros i; apply (H (S i))).
        apply IH in Hn; discriminate.
      * split; [|reflexivity]. intros _ [|i]; simpl.
        -- intros Heq; inversion Heq; contradiction.
        -- apply IH; reflexivity.
Qed.

Lemma ContainsByte_false_at s c :
  Strings.ContainsByte s c = false <-> forall i, Str.at_ s i <> Some c.
Proof.
  unfold Strings.ContainsByte. rewrite <- IndexByte_none_at.
  destruct (Str.IndexByte s c); split; congruence.
Qed.

Lemma ContainsByte_cons a s c :
  Strings.ContainsByte (String a s) c
  = (Ascii.eqb a c || Strings.ContainsByte s c)%bool.
Proof.
  unfold Strings.ContainsByte; simpl.
  destruct (Ascii.eqb a c); simpl; [reflexivity|].
  destruct (Str.IndexByte s c); reflexivity.
Qed.

Lemma openBracket_spec key : openBracket key = true <-> unterminated key.
Proof.
  induction key as [|a key IH]; simpl.
  - split; [discriminate | intros [i [H _]]; destruct i; discriminate].
  - rewrite Bool.orb_true_iff, Bool.andb_true_iff, Bool.negb_true_iff, IH.
    rewrite ContainsByte_false_at. split.
    + intros [[Ha Hr] | [i [Hi Hj]]].
      * apply Ascii.eqb_eq in Ha; subst. exists 0. split; [reflexivity|].
        intros [|j] Hlt; [lia|]. simpl. apply Hr.
      * exists (S i). split; [exact Hi|].
        intros [|j] Hlt; [lia|]. simpl. apply Hj. lia.
    + intros [[|i] [Hi Hj]].
      * left. simpl in Hi. inversion Hi; subst. split.
        -- apply Ascii.eqb_refl.
        -- intros j. apply (Hj (S j)). lia.
      * right. exists i. split; [exact Hi|].
        intros j Hlt. apply (Hj (S j)). lia.
Qed.

(** The key around the first occurrence of a byte. *)
Lemma IndexByte_some s c i :
  Str.IndexByte s c = Some i ->
  s = (Str.take i s ++ String c (Str.drop (i + 1) s))%string /\
  Strings.ContainsByte (Str.take i s) c = false.
Proof.
  revert i; induction s as [|a s IH]; simpl; intros i H; [discriminate|].
  destruct (Ascii.eqb a c) eqn:Hac.
  - inversion H; subst. apply Ascii.eqb_eq in Hac; subst.
    split; reflexivity.
  - destruct (Str.IndexByte s c) as [k|] eqn:Hk; simpl in H; [|discriminate].
    inversion H; subst. destruct (IH k eq_refl) as [Heq Hno].
    simpl. rewrite ContainsByte_cons, Hac, Hno. split; [|reflexivity].
    f_equal. exact Heq.
Qed.

Lemma ContainsByte_app s t c :
  Strings.ContainsByte (s ++ t)%string c
  = (Strings.ContainsByte s c || Strings.ContainsByte t c)%bool.
Proof.
  induction s as [|a s IH]; simpl.
  - reflexivity.
  - rewrite !ContainsByte_cons, IH. apply Bool.orb_assoc.
Qed.

(** A prefix without [[] does not matter. *)
Lemma openBracket_skip pre rest :
  Strings.ContainsByte pre lbracket = false ->
  openBracket (pre ++ rest)%string = openBracket rest.
Proof.
  induction pre as [|a pre IH]; simpl; intros H; [reflexivity|].
  rewrite ContainsByte_cons in H. apply Bool.orb_false_iff in H.
  destruct H as [Ha Hp]. rewrite Ha. simpl. apply IH, Hp.
Qed.

(** Neither does a prefix that is followed by a []]. *)
Lemma openBracket_closed mid rest :
  openBracket (mid ++ String rbracket rest)%string = openBracket rest.
Proof.
  induction mid as [|a mid IH]; simpl.
  - reflexivity.
  - rewrite ContainsByte_app, ContainsByte_cons, Ascii.eqb_refl.
    destruct (Strings.ContainsByte mid rbracket); simpl;
      rewrite ?Bool.andb_false_r; simpl; exact IH.
Qed.

Lemma openBracket_open rest :
  openBracket (String lbracket rest)
  = (negb (Strings.ContainsByte rest rbracket) || openBracket rest)%bool.
Proof. reflexivity. Qed.

End StringFacts.

Lemma parseKey_loop_outcome key path :
  (openBracket key = true -> parseKey_loop key path = Err errInvalidKey) /\
  (openBracket key = false -> exists p, parseKey_loop key path = Ok p).
Proof.
  apply (parseKey_loop_elim
           (fun key path r =>
              (openBracket key = true -> r = Err errInvalidKey) /\
              (openBracket key = false -> exists p, r = Ok p))); clear key path.
  - intros key path Hempty. destruct key; [|discriminate]. simpl.
    split; [discriminate | eauto].
  - intros key path p e _ _. unfold parseKey_body in e.
    destruct (Str.IndexByte key lbracket) as [i|] eqn:Hi.
    + destruct (Str.IndexByte (Str.drop (i + 1) key) rbracket); discriminate.
    + assert (Hno : Strings.ContainsByte key lbracket = false)
        by (unfold Strings.ContainsByte; rewrite Hi; reflexivity).
      assert (Hopen : openBracket key = false).
      { destruct (openBracket key) eqn:Ho; [|reflexivity].
        apply openBracket_spec in Ho. destruct Ho as [k [Hk _]].
        apply ContainsByte_false_at with (i := k) in Hno. contradiction. }
      rewrite Hopen. split; [discriminate | eauto].
  - intros key path k p e IH _ _. unfold parseKey_body in e.
    destruct (Str.IndexByte key lbracket) as [i|] eqn:Hi; [|discriminate].
    destruct (Str.IndexByte (Str.drop (i + 1) key) rbracket) as [j|] eqn:Hj;
      [|discriminate].
    inversion e; subst; clear e.
    destruct (IndexByte_some _ _ Hi) as [Hkey Hpre].
    destruct (IndexByte_some _ _ Hj) as [Hrest _].
    assert (Hopen : openBracket key
                    = openBracket (Str.drop (j + 1) (Str.drop (i + 1) key))).
    { rewrite Hkey at 1. rewrite (openBracket_skip _ _ Hpre).
      rewrite openBracket_open. rewrite Hrest at 1 2.
      rewrite ContainsByte_app, ContainsByte_cons, Ascii.eqb_refl.
      rewrite Bool.orb_true_l, Bool.orb_true_r.
      apply openBracket_closed. }
    rewrite Hopen. exact IH.
  - intros key path e _ _. unfold parseKey_body in e.
    destruct (Str.IndexByte key lbracket) as [i|] eqn:Hi; [|discriminate].
    destruct (Str.IndexByte (Str.drop (i + 1) key) rbracket) as [j|] eqn:Hj;
      [discriminate|].
    destruct (IndexByte_some _ _ Hi) as [Hkey Hpre].
    assert (Hopen : openBracket key = true).
    { rewrite Hkey. rewrite (openBracket_skip _ _ Hpre).
      rewrite openBracket_open.
      unfold Strings.ContainsByte at 1. rewrite Hj. reflexivity. }
    rewrite Hopen. split; [reflexivity | discriminate].
Qed.

(** The loop of [parseKey], one turn at a time. *)
Lemma parseKey_loop_eq key path :
  parseKey_loop key path =
  if Str.isEmpty key then Ok path
  else match parseKey_body key path with
       | Break p => Ok p
       | Continue k p => parseKey_loop k p
       | SyntaxError => Err errInvalidKey
       end.
Proof.
  rewrite parseKey_loop_equation_1.
  destruct (Str.isEmpty key); simpl; [reflexivity|].
  unfold inspect.
  destruct (parseKey_body key path); reflexivity.
Qed.

(** C8, as the spec states it, fails at the empty key: it has no
    brackets, and [parseKey] returns the empty path for it, not a path of
    one named segment. *)
Lemma parseKey_empty_key_has_no_segment :
  noBrackets "" = true /\
  parseKey "" = Ok [] /\
  parseKey "" <> Ok [named ""].
Proof.
  repeat split; discriminate.
Qed.

(** C8 (amended).  [parseKey] returns its syntax error exactly for the
    keys in which some [[] has no []] after it; every other key parses;
    and a key that is not empty and has no brackets parses to the single
    named segment that holds the whole key. *)
Theorem parseKey_syntax_error_iff_unterminated (key : string) :
  (parseKey key = Err errInvalidKey <-> unterminated key) /\
  (~ unterminated key -> exists path, parseKey key = Ok path) /\
  (noBrackets key = true -> key <> "" -> parseKey key = Ok [named key]).
Proof.
  unfold parseKey.
  destruct (parseKey_loop_outcome key []) as [Hbad Hgood].
  rewrite <- openBracket_spec.
  repeat split.
  - intros Herr. destruct (openBracket key) eqn:Ho; [reflexivity|].
    destruct (Hgood eq_refl) as [p Hp]. congruence.
  - exact Hbad.
  - intros Hno. apply Hgood. destruct (openBracket key); congruence.
  - intros Hno Hne. unfold noBrackets in Hno.
    apply Bool.andb_true_iff in Hno. destruct Hno as [Hl _].
    apply Bool.negb_true_iff in Hl. unfold Strings.ContainsByte in Hl.
    rewrite parseKey_loop_eq. destruct key as [|a key]; [contradiction|].
    cbn [Str.isEmpty]. unfold parseKey_body.
    destruct (Str.IndexByte (String a key) lbracket); [discriminate|].
    reflexivity.
Qed.

Lemma parseKey_syntax_error_iff_unterminated_witness :
  (noBrackets "name" = true /\ "name" <> "" /\
   parseKey "name" = Ok [named "name"]) /\
  (~ unterminated "a[b]" /\ exists path, parseKey "a[b]" = Ok path).
Proof.
  split.
  - assert (Hn : noBrackets "name" = true) by reflexivity.
    assert (He : "name" <> "") by discriminate.
    split; [exact Hn|]. split; [exact He|].
    exact (proj2 (proj2 (parseKey_syntax_error_iff_unterminated "name")) Hn He).
  - assert (Hu : ~ unterminated "a[b]").
    { intros H. apply openBracket_spec in H. discriminate. }
    split; [exact Hu|].
    exact (proj1 (proj2 (parseKey_syntax_error_iff_unterminated "a[b]")) Hu).
Defined.

(** ** The environments of the examples *)

Lemma fairOrder_plain : fairOrder plain.
Proof. split; intros; apply Permutation_refl. Qed.

Lemma fairOrder_plainReversed : fairOrder plainReversed.
Proof.
  split; intros; simpl; apply Permutation_sym, Permutation_rev.
Qed.

Lemma goMethods_plain : goMethods plain.
Proof. intros v _. repeat split. Qed.

(** A [range] over a map with one key has one order. *)
Lemma rangeValues_single E kv :
  fairOrder E -> rangeValues E [kv] = [kv].
Proof.
  intros [H _]. apply Permutation_length_1_inv, Permutation_sym, H.
Qed.

Lemma rangeValues_nil E : fairOrder E -> rangeValues E [] = [].
Proof.
  intros [H _]. apply Permutation_nil, Permutation_sym, H.
Qed.

(** ** Type inference *)

(** Without a prior value the inference neither fails nor panics. *)
Lemma inferInterfaceValue_fresh path val :
  exists e, inferInterfaceValue None path val = Ok e.
Proof.
  induction path as [|seg rest [e IH]]; simpl; [eauto|].
  destruct (Index seg).
  - unfold inferSliceValue. simpl. rewrite IH. simpl. eauto.
  - unfold inferMapValue. simpl.
    (* the recursive call is on the absent entry of a fresh map *)
    rewrite IH. simpl. eauto.
Qed.

(** C2.  When the path is exhausted, the inference returns the leaf as a
    string whatever the slot held before, and that string is what a
    dynamic map entry or a dynamic slice element receives: no number or
    boolean is ever made of it.  Decoding [val=007] into a
    [map[string]interface{}] gives the string ["007"]. *)
Theorem inferInterfaceValue_leaf_is_the_string :
  (forall (prior : option value) (val : string),
      inferInterfaceValue prior [] val = Ok (VString val)) /\
  (forall E rec addr es seg val,
      assignMapValue E rec addr (dynamicMap (Some es)) seg [] val
      = (dynamicMap (Some (store es (Key seg) (boxed (VString val)))), Ok tt)) /\
  (forall E rec xs key val,
      assignSliceValue E rec true (VSlice TInterface xs) (mkSeg key true) [] val
      = (VSlice TInterface (xs ++ [boxed (VString val)]), Ok tt)) /\
  (forall E, fairOrder E ->
      Unmarshal E "val=007" newDynamicMap
      = (Some (VPointer (TMap TString TInterface)
                 (Some (dynamicMap (Some [("val", boxed (VString "007"))])))),
         Ok tt)).
Proof.
  repeat split.
  intros E HE. unfold Unmarshal, unmarshalForm. simpl.
  rewrite (rangeValues_single _ HE). reflexivity.
Qed.

Lemma inferInterfaceValue_leaf_is_the_string_witness :
  Unmarshal plain "val=007" newDynamicMap
  = (Some (VPointer (TMap TString TInterface)
             (Some (dynamicMap (Some [("val", boxed (VString "007"))])))),
     Ok tt).
Proof.
  exact (proj2 (proj2 (proj2 inferInterfaceValue_leaf_is_the_string))
           plain fairOrder_plain).
Defined.

(** C4.  In the inference, an index marker appends one new element to
    the sequence that is there (none, an empty one, or [xs]); the element
    is inferred from no prior value and the rest of the path, and that
    inference always succeeds.  No element of [xs] is touched.  Decoding
    [items[]=a&items[]=b&items[]=c] into a [map[string]interface{}] gives
    the three strings in input order. *)
Theorem inferSliceValue_appends_new_element :
  (forall rest val, exists e, inferInterfaceValue None rest val = Ok e) /\
  (forall xs key rest val,
      inferInterfaceValue (Some (VSlice TInterface xs)) (mkSeg key true :: rest) val
      = (e <- inferInterfaceValue None rest val ;;
         Ok (VSlice TInterface (xs ++ [boxed e])))) /\
  (forall xs key rest val,
      inferInterfaceValue (Some (boxed (VSlice TInterface xs)))
        (mkSeg key true :: rest) val
      = (e <- inferInterfaceValue None rest val ;;
         Ok (VSlice TInterface (xs ++ [boxed e])))) /\
  (forall key rest val,
      inferInterfaceValue None (mkSeg key true :: rest) val
      = (e <- inferInterfaceValue None rest val ;;
         Ok (VSlice TInterface [boxed e]))) /\
  (forall E, fairOrder E ->
      Unmarshal E "items[]=a&items[]=b&items[]=c" newDynamicMap
      = (Some (VPointer (TMap TString TInterface)
                 (Some (dynamicMap
                          (Some [("items",
                                  boxed (VSlice TInterface
                                           [boxed (VString "a");
                                            boxed (VString "b");
                                            boxed (VString "c")]))])))),
         Ok tt)).
Proof.
  split; [exact inferInterfaceValue_fresh|].
  split; [|split; [|split]].
  - intros xs key rest val. simpl. unfold inferSliceValue. simpl.
    destruct xs; reflexivity.
  - intros xs key rest val. reflexivity.
  - intros key rest val. reflexivity.
  - intros E HE. unfold Unmarshal, unmarshalForm. simpl.
    rewrite (rangeValues_single _ HE). reflexivity.
Qed.

Lemma inferSliceValue_appends_new_element_witness :
  Unmarshal plain "items[]=a&items[]=b&items[]=c" newDynamicMap
  = (Some (VPointer (TMap TString TInterface)
             (Some (dynamicMap
                      (Some [("items",
                              boxed (VSlice TInterface
                                       [boxed (VString "a");
                                        boxed (VString "b");
                                        boxed (VString "c")]))])))),
     Ok tt).
Proof.
  exact (proj2 (proj2 (proj2 (proj2 inferSliceValue_appends_new_element)))
           plain fairOrder_plain).
Defined.

(** ** Leaves *)

(** Run [parseKey] on the literal key in the goal. *)
Ltac run_parseKey :=
  match goal with
  | |- context [parseKey ?k] =>
      let r := eval vm_compute in (parseKey k) in
      change (parseKey k) with r
  end.

Lemma asUnmarshaler_methodless E addr v :
  goMethods E -> methodless v = true -> asUnmarshaler E addr v = None.
Proof.
  intros HE Hv. destruct (HE v Hv) as [Hp [Hv' _]].
  unfold asUnmarshaler. rewrite Hp, Hv'. destruct addr; reflexivity.
Qed.

Lemma assignLeaf_methodless E addr v val :
  goMethods E -> methodless v = true ->
  assignLeaf E addr v val = setScalar E addr v val.
Proof.
  intros HE Hv. unfold assignLeaf.
  rewrite asUnmarshaler_methodless by assumption. reflexivity.
Qed.

(** [Unmarshal] on an input with a single key. *)
Lemma Unmarshal_one_key E data t target k vals :
  fairOrder E ->
  Nat.eqb (String.length data) 0 = false ->
  topLevelOk target = true ->
  Url.ParseQuery (Strings.TrimSpace data) = Ok [(k, vals)] ->
  Unmarshal E data (Some (VPointer t (Some target)))
  = (let (t', r) := unmarshalKeys E target [(k, vals)] in
     (Some (VPointer t (Some t')), r)).
Proof.
  intros HE Hlen Htop Hq. unfold Unmarshal. rewrite Hlen. cbn [underlying].
  unfold topLevelOk in Htop.
  destruct (underlying target); try discriminate.
  - rewrite Htop, Hq. unfold unmarshalForm.
    rewrite (rangeValues_single _ HE). reflexivity.
  - rewrite Hq. unfold unmarshalForm.
    rewrite (rangeValues_single _ HE). reflexivity.
Qed.

(** ** Maps of typed sequences *)

(** C10.  In a map whose elements are typed sequences, an assignment
    under a key does not look at the path after the key: it assigns the
    leaf to one fresh element and appends it, so the result is the same
    for every rest of the path.  The keys [m[k][]=v] and [m[k]=v] decode
    to the same value. *)
Theorem assignMapValue_typed_slice_ignores_rest_of_path :
  (forall E rec rec' addr v kt et elemT m seg path path' val,
      underlying v = VMap kt et m ->
      isInterfaceType et = false ->
      isSliceType et = Some elemT ->
      assignMapValue E rec addr v seg path val
      = assignMapValue E rec' addr v seg path' val) /\
  (forall E rec addr elemT es seg path val e xs,
      assignLeaf E true (zero elemT) val = (e, Ok tt) ->
      lookup es (Key seg) = Some (VSlice elemT xs) \/
      (lookup es (Key seg) = None /\ xs = []) ->
      assignMapValue E rec addr (VMap TString (TSlice elemT) (Some es)) seg path val
      = (VMap TString (TSlice elemT)
           (Some (store es (Key seg) (VSlice elemT (xs ++ [e])))),
         Ok tt)) /\
  (forall E, fairOrder E -> goMethods E ->
      Unmarshal E "m[k][]=v" newTagged
      = (taggedWith (Some [("k", VSlice TString [VString "v"])]), Ok tt) /\
      Unmarshal E "m[k]=v" newTagged
      = (taggedWith (Some [("k", VSlice TString [VString "v"])]), Ok tt)).
Proof.
  split; [|split].
  - intros E rec rec' addr v kt et elemT m seg path path' val Hv Hi Hs.
    unfold assignMapValue. rewrite Hv.
    destruct m as [es|]; destruct addr; try reflexivity;
      destruct kt; try reflexivity; rewrite Hi, Hs; reflexivity.
  - intros E rec addr elemT es seg path val e xs Hleaf Hold.
    unfold assignMapValue. cbn [underlying].
    assert (Hi : isInterfaceType (TSlice elemT) = false) by reflexivity.
    assert (Hs : isSliceType (TSlice elemT) = Some elemT) by reflexivity.
    rewrite Hi, Hs. unfold assignMapSlice. rewrite Hleaf.
    destruct Hold as [Hold | [Hold Hxs]]; rewrite Hold.
    + destruct addr; reflexivity.
    + subst xs. destruct addr; reflexivity.
  - intros E HE HM.
    destruct (HM (VString "") eq_refl) as [Hp [Hv _]].
    vm_compute in Hp, Hv.
    split; unfold newTagged.
    + rewrite Unmarshal_one_key with (k := "m[k][]") (vals := ["v"])
        by (assumption || (vm_compute; reflexivity)).
      vm_compute. rewrite Hp, Hv. reflexivity.
    + rewrite Unmarshal_one_key with (k := "m[k]") (vals := ["v"])
        by (assumption || (vm_compute; reflexivity)).
      vm_compute. rewrite Hp, Hv. reflexivity.
Qed.

Lemma assignMapValue_typed_slice_ignores_rest_of_path_witness :
  Unmarshal plain "m[k][]=v" newTagged = Unmarshal plain "m[k]=v" newTagged.
Proof.
  destruct (proj2 (proj2 assignMapValue_typed_slice_ignores_rest_of_path)
              plain fairOrder_plain goMethods_plain) as [H1 H2].
  rewrite H1, H2. reflexivity.
Defined.

(** ** Empty and blank input *)

Lemma rewrap_underlying rv u : underlying rv = u -> rewrap rv u = rv.
Proof. destruct rv; simpl; intros; subst; reflexivity. Qed.

Lemma TrimSpace_onlySpace data :
  onlySpace data = true -> Strings.TrimSpace data = "".
Proof.
  unfold onlySpace, Strings.TrimSpace. intros H.
  destruct (Strings.TrimLeftSpace data); [reflexivity | discriminate].
Qed.

(** C6, as the spec states it, fails on blank input: three spaces decode
    into a record without an error, and leave it as it was. *)
Lemma Unmarshal_accepts_blank_input :
  onlySpace "   " = true /\
  Unmarshal plain "   " newPerson = (newPerson, Ok tt).
Proof. split; vm_compute; reflexivity. Qed.

(** C6 (amended).  [Unmarshal] rejects the empty input with an error
    before it looks at the target, which it leaves unchanged.  An input
    that is not empty and holds white space only is not rejected: for a
    pointer to a struct or to a map with string keys the call succeeds
    and leaves the target unchanged. *)
Theorem Unmarshal_rejects_empty_accepts_blank :
  (forall E v, Unmarshal E "" v = (v, Err errEmptyInput)) /\
  (forall E data rv t target,
      fairOrder E ->
      data <> "" ->
      onlySpace data = true ->
      underlying rv = VPointer t (Some target) ->
      topLevelOk target = true ->
      Unmarshal E data (Some rv) = (Some rv, Ok tt)).
Proof.
  split; [reflexivity|].
  intros E data rv t target HE Hne Hsp Hrv Htop.
  unfold Unmarshal.
  destruct data as [|a data]; [contradiction|].
  cbn [String.length Nat.eqb]. rewrite Hrv.
  rewrite (TrimSpace_onlySpace _ Hsp).
  change (Url.ParseQuery "") with (@Ok Values []).
  unfold unmarshalForm. rewrite (rangeValues_nil HE). cbn [unmarshalKeys].
  unfold topLevelOk in Htop.
  rewrite (rewrap_underlying rv Hrv).
  destruct (underlying target); try discriminate; [|reflexivity].
  rewrite Htop. reflexivity.
Qed.

Lemma Unmarshal_rejects_empty_accepts_blank_witness :
  Unmarshal plain (String (byteOf 9) " ") newPerson = (newPerson, Ok tt).
Proof.
  unfold newPerson.
  apply (proj2 Unmarshal_rejects_empty_accepts_blank plain
           (String (byteOf 9) " ") _ PersonT (zero PersonT)).
  - exact fairOrder_plain.
  - discriminate.
  - vm_compute. reflexivity.
  - reflexivity.
  - reflexivity.
Defined.

(** ** Repeated keys *)

(** C3 at work.  A repeated key decoded into the record of the tests
    leaves the later value in the string field, in every environment.
    The same repetition decoded into a [map[string]string] does not:
    the second assignment reads the element out of the map, which gives
    a value that is not addressable, and [SetString] panics on it. *)
Theorem Unmarshal_repeated_key_last_wins_in_record_panics_in_map :
  forall E, fairOrder E -> goMethods E ->
    Unmarshal E "name=john&name=jane" newPerson
    = (Some (VPointer PersonT (Some (personNamed "jane"))), Ok tt) /\
    Unmarshal E "a=1&a=2" (newMapOf TString)
    = (Some (VPointer (TMap TString TString)
               (Some (stringMap (Some [("a", VString "1")])))),
       Panic errUnaddressable).
Proof.
  intros E HE HM.
  assert (Hs : forall s, ptrUnmarshaler E (VString s) = None /\
                         valUnmarshaler E (VString s) = None).
  { intros s. destruct (HM (VString s) eq_refl) as [Hp [Hv _]]. auto. }
  destruct (Hs "") as [Hp0 Hv0]. destruct (Hs "john") as [Hp1 Hv1].
  destruct (Hs "1") as [Hp2 Hv2].
  vm_compute in Hp0, Hv0, Hp1, Hv1, Hp2, Hv2.
  split.
  - assert (A1 : assign E true (personNamed "") [named "name"] "john"
                 = (personNamed "john", Ok tt)).
    { vm_compute. rewrite Hp0, Hv0. reflexivity. }
    assert (A2 : assign E true (personNamed "john") [named "name"] "jane"
                 = (personNamed "jane", Ok tt)).
    { vm_compute. rewrite Hp1, Hv1. reflexivity. }
    unfold newPerson.
    rewrite Unmarshal_one_key with (k := "name") (vals := ["john"; "jane"])
      by (assumption || (vm_compute; reflexivity)).
    change (zero PersonT) with (personNamed "").
    unfold unmarshalKeys. run_parseKey. unfold assignAll.
    change [{| Key := "name"; Index := false |}] with [named "name"].
    rewrite A1, A2. reflexivity.
  - assert (A1 : assign E true (stringMap None) [named "a"] "1"
                 = (stringMap (Some [("a", VString "1")]), Ok tt)).
    { vm_compute. rewrite Hp0, Hv0. reflexivity. }
    assert (A2 : assign E true (stringMap (Some [("a", VString "1")]))
                   [named "a"] "2"
                 = (stringMap (Some [("a", VString "1")]), Panic errUnaddressable)).
    { vm_compute. rewrite Hv2. reflexivity. }
    unfold newMapOf.
    rewrite Unmarshal_one_key with (k := "a") (vals := ["1"; "2"])
      by (assumption || (vm_compute; reflexivity)).
    change (VMap TString TString None) with (stringMap None).
    unfold unmarshalKeys. run_parseKey. unfold assignAll.
    change [{| Key := "a"; Index := false |}] with [named "a"].
    rewrite A1, A2. reflexivity.
Qed.

Lemma Unmarshal_repeated_key_last_wins_in_record_panics_in_map_witness :
  isOk (snd (Unmarshal plain "name=john&name=jane" newPerson)) = true /\
  isPanic (snd (Unmarshal plain "a=1&a=2" (newMapOf TString))) = true.
Proof.
  destruct (Unmarshal_repeated_key_last_wins_in_record_panics_in_map
              fairOrder_plain goMethods_plain) as [H1 H2].
  rewrite H1, H2. split; reflexivity.
Defined.

(** ** The encoder, one call at a time *)

Lemma marshalValue_eq E addr ro path v out :
  marshalValue E addr ro path v out =
  match underlying v with
  | VPointer _ None => Ok out
  | VPointer _ (Some x) => marshalDereferenced E true ro path x out
  | _ => marshalDereferenced E addr ro path v out
  end.
Proof.
  assert (Hd : forall a x,
             (if ro then Panic errUnexported
              else match asMarshaler E a x with
                   | Some m => marshaler out path m
                   | None =>
                       match underlying x with
                       | VStruct fs => marshalStruct E a path fs out
                       | VMap _ _ (Some es) => marshalMap E path es out
                       | VMap _ _ None => marshalMap E path [] out
                       | VSlice _ xs => marshalSlice E true path xs out
                       | VArray _ xs => marshalSlice E a path xs out
                       | VInterface (Some y) => marshalValue E false false path y out
                       | VInterface None => Ok out
                       | _ => marshalScalar E out path x
                       end
                   end)
             = marshalDereferenced E a ro path x out) by reflexivity.
  destruct v as [b|s|bits i|bits u|bits f|k n|t [x|]|[e|]|t xs|t xs
                 |kt et [es|]|fs|name u];
    try reflexivity; try (rewrite <- Hd; reflexivity).
  destruct u as [b|s|bits i|bits u|bits f|k n|t [x|]|[e|]|t xs|t xs
                 |kt et [es|]|fs|name' u];
    try reflexivity; try (rewrite <- Hd; reflexivity).
Qed.

(** ** Unsupported kinds *)

Lemma isOk_bind_false {A B} (r : result A) (k : A -> result B) :
  (forall a, isOk (k a) = false) -> isOk (bind r k) = false.
Proof. destruct r; simpl; auto. Qed.

Lemma isOk_bind_false_l {A B} (r : result A) (k : A -> result B) :
  isOk r = false -> isOk (bind r k) = false.
Proof. destruct r; simpl; auto; discriminate. Qed.

Section FailingVisit.

Variable E : Env.
Variable go : visit.
Hypothesis go_fails : forall out, isOk (go out) = false.

Lemma structLoop_fails fields t empty :
  In (t, empty, go) fields ->
  Ignore t = false -> (Omit t && empty)%bool = false -> Name t <> "" ->
  forall out, isOk (structLoop fields out) = false.
Proof.
  intros Hin Hi Ho Hn.
  induction fields as [|[[t' e'] go'] rest IH]; [contradiction|].
  intros out. cbn [structLoop].
  destruct Hin as [Heq | Hin].
  - inversion Heq; subst. rewrite Hi, Ho.
    apply String.eqb_neq in Hn. rewrite Hn.
    apply isOk_bind_false_l, go_fails.
  - specialize (IH Hin).
    destruct (Ignore t'); [apply IH|].
    destruct (Omit t' && e')%bool; [apply IH|].
    destruct (String.eqb (Name t') ""); [apply IH|].
    apply isOk_bind_false. intros out'. apply IH.
Qed.

Lemma mapLoop_fails table keys k :
  In k keys ->
  (exists k', find (fun e => String.eqb (fst e) k) table = Some (k', Some go)) ->
  forall out, isOk (mapLoop table keys out) = false.
Proof.
  intros Hin [k' Hfind].
  induction keys as [|k0 rest IH]; [contradiction|].
  intros out. cbn [mapLoop].
  destruct Hin as [Heq | Hin].
  - subst k0. rewrite Hfind. apply isOk_bind_false_l, go_fails.
  - specialize (IH Hin).
    destruct (find (fun e => String.eqb (fst e) k0) table) as [[k1 [go1|]]|];
      try apply IH.
    apply isOk_bind_false. intros out'. apply IH.
Qed.

Lemma sliceLoop_fails elems :
  In (Some go) elems ->
  forall out, isOk (sliceLoop elems out) = false.
Proof.
  intros Hin.
  induction elems as [|[go'|] rest IH]; [contradiction| |].
  - intros out. cbn [sliceLoop]. destruct Hin as [Heq | Hin].
    + inversion Heq; subst. apply isOk_bind_false_l, go_fails.
    + apply isOk_bind_false. intros out'. apply IH, Hin.
  - intros out. cbn [sliceLoop]. destruct Hin as [Heq | Hin];
      [discriminate|]. apply IH, Hin.
Qed.

End FailingVisit.

Lemma find_lookup {A} (f : string -> value -> A) es k mv :
  lookup es k = Some mv ->
  exists k', find (fun e => String.eqb (fst e) k)
                  (map (fun kv => (fst kv, f (fst kv) (snd kv))) es)
             = Some (k', f k' mv).
Proof.
  induction es as [|[k0 v0] es IH]; simpl; [discriminate|].
  destruct (String.eqb k0 k) eqn:Hk.
  - intros H; inversion H; subst. eauto.
  - exact IH.
Qed.

Lemma lookup_In_keys es k mv : lookup es k = Some mv -> In k (map fst es).
Proof.
  induction es as [|[k0 v0] es IH]; simpl; [discriminate|].
  destruct (String.eqb k0 k) eqn:Hk.
  - apply String.eqb_eq in Hk. auto.
  - auto.
Qed.

Lemma marshalScalar_unsupported E out path v k n :
  underlying v = VOther k n -> isOk (marshalScalar E out path v) = false.
Proof.
  intros Hv. unfold marshalScalar, getScalar. rewrite Hv.
  destruct (renderPath path); reflexivity.
Qed.

Lemma reachesUnsupported_not_ok E phase addr v :
  fairOrder E ->
  reachesUnsupported E phase addr v ->
  forall ro path out,
    isOk (if phase then marshalValue E addr ro path v out
          else marshalDereferenced E addr ro path v out) = false.
Proof.
  intros HE H.
  induction H as
    [ addr v t x Hv _ IH
    | addr v Hv _ IH
    | addr v k n Hv Hm
    | addr v fs f fv Hv Hm Hin Hi Ho Hn _ IH
    | addr v kt et es k mv Hv Hm Hl Hnil _ IH
    | addr v t xs x Hv Hm Hin Hnil _ IH
    | addr v t xs x Hv Hm Hin Hnil _ IH
    | addr v x Hv Hm _ IH ];
    intros ro path out.
  - rewrite marshalValue_eq, Hv. apply IH.
  - rewrite marshalValue_eq.
    destruct (underlying v) eqn:Hu; try apply IH.
    exfalso. eapply Hv. reflexivity.
  - unfold marshalDereferenced. destruct ro; [reflexivity|].
    rewrite Hm. unfold marshalKind. rewrite Hv.
    eapply marshalScalar_unsupported; eassumption.
  - unfold marshalDereferenced. destruct ro; [reflexivity|].
    rewrite Hm. unfold marshalKind. rewrite Hv. unfold marshalStruct.
    eapply structLoop_fails with
      (go := marshalValue E addr (negb (isExported (fieldName f)))
               (path ++ [Name (fieldTagOf f)]) fv).
    + intros out'. apply IH.
    + apply in_map_iff. exists (f, fv). split; [reflexivity | exact Hin].
    + exact Hi.
    + exact Ho.
    + exact Hn.
  - unfold marshalDereferenced. destruct ro; [reflexivity|].
    rewrite Hm. unfold marshalKind. rewrite Hv. unfold marshalMap.
    destruct (find_lookup
                (fun k v => if isNilInterface v then None
                            else Some (marshalValue E false false (path ++ [k]) v))
                es k Hl) as [k' Hfind].
    rewrite Hnil in Hfind.
    eapply mapLoop_fails with (k := k).
    + intros out'. apply (IH false (path ++ [k'])).
    + destruct HE as [_ HK].
      eapply Permutation_in; [apply Permutation_sym, HK|].
      eapply lookup_In_keys; eassumption.
    + exists k'. exact Hfind.
  - unfold marshalDereferenced. destruct ro; [reflexivity|].
    rewrite Hm. unfold marshalKind. rewrite Hv. unfold marshalSlice.
    eapply sliceLoop_fails with
      (go := marshalValue E true false (path ++ [""]) x).
    + intros out'. apply IH.
    + apply in_map_iff. exists x. rewrite Hnil. auto.
  - unfold marshalDereferenced. destruct ro; [reflexivity|].
    rewrite Hm. unfold marshalKind. rewrite Hv. unfold marshalSlice.
    eapply sliceLoop_fails with
      (go := marshalValue E addr false (path ++ [""]) x).
    + intros out'. apply IH.
    + apply in_map_iff. exists x. rewrite Hnil. auto.
  - unfold marshalDereferenced. destruct ro; [reflexivity|].
    rewrite Hm. unfold marshalKind. rewrite Hv. apply IH.
Qed.

(** C5, as the spec states it, fails on a record whose channel sits in an
    ignored field: the encoder skips the field and returns the output of
    the other fields, without an error. *)
Lemma Marshal_ignored_channel_field_is_skipped :
  Marshal plain (Some withIgnoredChannel) = Ok "name=x".
Proof. reflexivity. Qed.

(** Where the traversal does come by a channel, the call ends in the
    panic of [getScalar], not in a returned error. *)
Lemma Marshal_channel_entry_panics :
  Marshal plain (Some withChannelEntry) = Panic errScalar.
Proof. reflexivity. Qed.

(** C5 (amended).  When an element of a kind without a case in the
    encoder sits where the traversal comes by, the encode does not
    succeed, at whatever depth the element is: [marshalValue] returns no
    output multimap, and [Marshal] returns no bytes. *)
Theorem Marshal_unsupported_kind_reached_gives_no_output :
  forall E, fairOrder E ->
    (forall addr v ro path out,
        reachesUnsupported E true addr v ->
        isOk (marshalValue E addr ro path v out) = false) /\
    (forall v,
        reachesUnsupported E true false v ->
        isOk (Marshal E (Some v)) = false).
Proof.
  intros E HE. split.
  - intros addr v ro path out H.
    exact (reachesUnsupported_not_ok HE H ro path out).
  - intros v H. unfold Marshal.
    inversion H as [addr v' t x Hv Hx | addr v' Hv Hx | | | | | | ]; subst.
    + rewrite Hv.
      pose proof (reachesUnsupported_not_ok HE Hx false [] []) as Hno.
      cbn beta iota in Hno.
      destruct (underlying x) eqn:Hu; try reflexivity.
      * rewrite marshalValue_eq, Hu.
        destruct (isStringKind key); [|reflexivity].
        apply isOk_bind_false_l. exact Hno.
      * rewrite marshalValue_eq, Hu.
        apply isOk_bind_false_l. exact Hno.
    + pose proof (reachesUnsupported_not_ok HE H false [] []) as Hno.
      cbn beta iota in Hno.
      destruct (underlying v) eqn:Hu; try reflexivity.
      * exfalso. eapply Hv. reflexivity.
      * destruct (isStringKind key); [|reflexivity].
        apply isOk_bind_false_l. exact Hno.
      * apply isOk_bind_false_l. exact Hno.
Qed.

Lemma reachesUnsupported_withChannelEntry :
  reachesUnsupported plain true false withChannelEntry.
Proof.
  apply reach_direct; [discriminate|].
  eapply reach_entry with (k := "c"); try reflexivity.
  apply reach_direct; [discriminate|].
  eapply reach_interface; try reflexivity.
  apply reach_direct; [discriminate|].
  eapply reach_here; reflexivity.
Qed.

Lemma Marshal_unsupported_kind_reached_gives_no_output_witness :
  isOk (Marshal plain (Some withChannelEntry)) = false.
Proof.
  exact (proj2 (Marshal_unsupported_kind_reached_gives_no_output fairOrder_plain)
           withChannelEntry reachesUnsupported_withChannelEntry).
Defined.

(** ** The output multimap and its serialization *)

Section ValuesFacts.

Lemma Get_Add m k v k' :
  Url.Get (Url.Add m k v) k'
  = if String.eqb k k' then Url.Get m k' ++ [v] else Url.Get m k'.
Proof.
  unfold Url.Get.
  induction m as [|[k0 vs] m IH]; simpl.
  - destruct (String.eqb k k'); reflexivity.
  - destruct (String.eqb k0 k) eqn:H0k; simpl.
    + apply String.eqb_eq in H0k; subst k0.
      destruct (String.eqb k k'); reflexivity.
    + destruct (String.eqb k0 k') eqn:H0k'; simpl.
      * apply String.eqb_eq in H0k'; subst k0.
        rewrite String.eqb_sym, H0k. reflexivity.
      * exact IH.
Qed.

Lemma keys_Add m k v :
  forall k', In k' (map fst (Url.Add m k v)) <-> k' = k \/ In k' (map fst m).
Proof.
  induction m as [|[k0 vs] m IH]; simpl; intros k'.
  - intuition.
  - destruct (String.eqb k0 k) eqn:H0k; simpl.
    + apply String.eqb_eq in H0k; subst k0. intuition.
    + rewrite IH. intuition.
Qed.

Lemma NoDup_keys_Add m k v :
  NoDup (map fst m) -> NoDup (map fst (Url.Add m k v)).
Proof.
  induction m as [|[k0 vs] m IH]; simpl; intros H.
  - constructor; [intros []| constructor].
  - inversion H as [|? ? Hnotin Hnd]; subst.
    destruct (String.eqb k0 k) eqn:H0k; simpl.
    + constructor; assumption.
    + constructor; [|apply IH, Hnd].
      rewrite keys_Add. intros [Heq | Hin]; [|contradiction].
      subst. rewrite String.eqb_refl in H0k. discriminate.
Qed.

(** The values of a key after the leaves [ps] have been added. *)
Definition keyed (k : string) (ps : list leaf) : list string :=
  map snd (filter (fun p => String.eqb (renderKey (fst p)) k) ps).

Lemma Get_addAll ps : forall out k,
  Url.Get (addAll out ps) k = Url.Get out k ++ keyed k ps.
Proof.
  unfold addAll, keyed.
  induction ps as [|p ps IH]; simpl; intros out k.
  - symmetry. apply app_nil_r.
  - rewrite IH, Get_Add.
    destruct (String.eqb (renderKey (fst p)) k); simpl.
    + rewrite <- app_assoc. reflexivity.
    + reflexivity.
Qed.

Lemma keys_addAll ps : forall out k,
  In k (map fst (addAll out ps))
  <-> In k (map fst out) \/ exists p, In p ps /\ renderKey (fst p) = k.
Proof.
  unfold addAll.
  induction ps as [|p ps IH]; simpl; intros out k.
  - split; [auto | intros [H | [p [[] _]]]; exact H].
  - rewrite IH, keys_Add. split.
    + intros [[Heq | Hin] | [q [Hq Hk]]]; eauto.
    + intros [Hin | [q [[Heq | Hq] Hk]]]; subst; eauto.
Qed.

Lemma NoDup_keys_addAll ps : forall out,
  NoDup (map fst out) -> NoDup (map fst (addAll out ps)).
Proof.
  unfold addAll.
  induction ps as [|p ps IH]; simpl; intros out H; [exact H|].
  apply IH, NoDup_keys_Add, H.
Qed.

End ValuesFacts.

Section KeyOrder.

Lemma leb_iff a b :
  String.leb a b = true <-> a = b \/ OrdersEx.String_as_OT.lt a b.
Proof.
  unfold String.leb, OrdersEx.String_as_OT.lt, OrdersEx.String_as_OT.compare.
  destruct (String.compare a b) eqn:Hc; cbn.
  - apply String.compare_eq_iff in Hc. intuition.
  - split; [intros _; right | reflexivity].
    change (String.compare a b = Lt). exact Hc.
  - split; [intros H; discriminate H|].
    intros [Heq | Hlt];
      [|change (String.compare a b = Lt) in Hlt; congruence].
    subst. pose proof (String.compare_antisym b b) as Ha.
    rewrite Hc in Ha. discriminate.
Qed.

Lemma leb_refl s : String.leb s s = true.
Proof. apply leb_iff. left. reflexivity. Qed.

Lemma leb_trans a b c :
  String.leb a b = true -> String.leb b c = true -> String.leb a c = true.
Proof.
  rewrite !leb_iff. intros [Hab | Hab] [Hbc | Hbc]; subst; auto.
  right. eapply (@StrictOrder_Transitive _ _ OrdersEx.String_as_OT.lt_strorder);
    eassumption.
Qed.

Lemma leb_false_flip a b : String.leb a b = false -> String.leb b a = true.
Proof.
  intros H. destruct (String.leb_total a b) as [H' | H']; congruence.
Qed.

Lemma insertKey_comm a b l :
  Url.insertKey a (Url.insertKey b l) = Url.insertKey b (Url.insertKey a l).
Proof.
  induction l as [|c l IH]; simpl.
  - destruct (String.leb a b) eqn:Hab, (String.leb b a) eqn:Hba;
      try reflexivity.
    + rewrite (String.leb_antisym _ _ Hab Hba). reflexivity.
    + apply leb_false_flip in Hab. congruence.
  - destruct (String.leb b c) eqn:Hbc, (String.leb a c) eqn:Hac; simpl;
      rewrite ?Hbc, ?Hac.
    + destruct (String.leb a b) eqn:Hab, (String.leb b a) eqn:Hba;
        try reflexivity.
      * rewrite (String.leb_antisym _ _ Hab Hba). reflexivity.
      * apply leb_false_flip in Hab. congruence.
    + destruct (String.leb a b) eqn:Hab.
      * rewrite (leb_trans _ _ _ Hab Hbc) in Hac. discriminate.
      * reflexivity.
    + destruct (String.leb b a) eqn:Hba.
      * rewrite (leb_trans _ _ _ Hba Hac) in Hbc. discriminate.
      * reflexivity.
    + rewrite IH. reflexivity.
Qed.

Lemma sortKeys_Permutation l1 l2 :
  Permutation l1 l2 -> Url.sortKeys l1 = Url.sortKeys l2.
Proof.
  unfold Url.sortKeys.
  induction 1; simpl.
  - reflexivity.
  - congruence.
  - apply insertKey_comm.
  - congruence.
Qed.

Lemma insertKey_Permutation k l : Permutation (Url.insertKey k l) (k :: l).
Proof.
  induction l as [|c l IH]; simpl; [reflexivity|].
  destruct (String.leb k c); [reflexivity|].
  rewrite IH. apply perm_swap.
Qed.

Lemma sortKeys_is_Permutation l : Permutation (Url.sortKeys l) l.
Proof.
  unfold Url.sortKeys.
  induction l as [|k l IH]; simpl; [reflexivity|].
  rewrite insertKey_Permutation. constructor. exact IH.
Qed.

Definition keyLe (a b : string) : Prop := String.leb a b = true.

Lemma insertKey_sorted k l :
  StronglySorted keyLe l -> StronglySorted keyLe (Url.insertKey k l).
Proof.
  induction 1 as [|c l Hs IH Hall]; simpl.
  - constructor; constructor.
  - destruct (String.leb k c) eqn:Hkc.
    + constructor; [constructor; assumption|].
      constructor; [exact Hkc|].
      eapply Forall_impl; [|exact Hall].
      intros x Hx. eapply leb_trans; eassumption.
    + constructor; [exact IH|].
      eapply Permutation_Forall;
        [apply Permutation_sym, insertKey_Permutation|].
      constructor; [|exact Hall].
      apply leb_false_flip, Hkc.
Qed.

Lemma sortKeys_sorted l : StronglySorted keyLe (Url.sortKeys l).
Proof.
  unfold Url.sortKeys.
  induction l as [|k l IH]; simpl; [constructor|].
  apply insertKey_sorted, IH.
Qed.

End KeyOrder.

Lemma flat_map_ext_In {A B} (f g : A -> list B) l :
  (forall a, In a l -> f a = g a) -> flat_map f l = flat_map g l.
Proof.
  induction l as [|a l IH]; simpl; intros H; [reflexivity|].
  rewrite (H a), IH; auto.
Qed.

Section EncodeFacts.

Lemma Encode_pairs m : Url.Encode m = Url.joinAmp (map escapePair (Url.encodePairs m)).
Proof. reflexivity. Qed.

Lemma encodePairs_ext m1 m2 :
  NoDup (map fst m1) -> NoDup (map fst m2) ->
  (forall k, In k (map fst m1) <-> In k (map fst m2)) ->
  (forall k, Url.Get m1 k = Url.Get m2 k) ->
  Url.encodePairs m1 = Url.encodePairs m2.
Proof.
  intros H1 H2 Hk Hg. unfold Url.encodePairs.
  rewrite (sortKeys_Permutation (NoDup_Permutation H1 H2 Hk)).
  apply flat_map_ext. intros k. rewrite Hg. reflexivity.
Qed.

Lemma keyed_nonempty k ps :
  keyed k ps <> [] <-> exists p, In p ps /\ renderKey (fst p) = k.
Proof.
  unfold keyed. induction ps as [|p ps IH]; simpl.
  - split; [congruence | intros [p [[] _]]].
  - destruct (String.eqb (renderKey (fst p)) k) eqn:Hk; simpl.
    + apply String.eqb_eq in Hk. split; [eauto | discriminate].
    + apply String.eqb_neq in Hk. rewrite IH. split.
      * intros [q [Hq Hkq]]. eauto.
      * intros [q [[Heq | Hq] Hkq]]; subst; [contradiction | eauto].
Qed.

(** The serialization depends on the values of each key only. *)
Lemma encodeLeaves_keyed ps qs :
  (forall k, keyed k ps = keyed k qs) -> encodeLeaves ps = encodeLeaves qs.
Proof.
  intros H. unfold encodeLeaves. rewrite !Encode_pairs. f_equal. f_equal.
  apply encodePairs_ext.
  - apply NoDup_keys_addAll. constructor.
  - apply NoDup_keys_addAll. constructor.
  - intros k. rewrite !keys_addAll. simpl.
    rewrite <- !keyed_nonempty, H. reflexivity.
  - intros k. rewrite !Get_addAll, H. reflexivity.
Qed.

Lemma StronglySorted_app {A} (R : A -> A -> Prop) l1 l2 :
  StronglySorted R l1 -> StronglySorted R l2 ->
  (forall a b, In a l1 -> In b l2 -> R a b) ->
  StronglySorted R (l1 ++ l2).
Proof.
  induction 1 as [|a l1 Hs IH Hall]; simpl; intros H2 Hcross; [exact H2|].
  constructor.
  - apply IH; [exact H2|]. intros; apply Hcross; simpl; auto.
  - apply Forall_app. split; [exact Hall|].
    apply Forall_forall. intros b Hb. apply Hcross; simpl; auto.
Qed.

Lemma encodePairs_sorted m : sortedByKey (Url.encodePairs m).
Proof.
  unfold sortedByKey, Url.encodePairs.
  pose proof (sortKeys_sorted (map fst m)) as Hs.
  induction Hs as [|k ks Hs IH Hall]; simpl; [constructor|].
  apply StronglySorted_app.
  - induction (Url.Get m k) as [|v vs IHv]; simpl; constructor; [exact IHv|].
    apply Forall_forall. intros [k' v'] Hin.
    apply in_map_iff in Hin. destruct Hin as [x [Hx _]].
    inversion Hx; subst. apply leb_refl.
  - exact IH.
  - intros [k1 v1] [k2 v2] H1 H2.
    apply in_map_iff in H1. destruct H1 as [x [Hx _]]. inversion Hx; subst.
    apply in_flat_map in H2. destruct H2 as [k' [Hk' Hin]].
    apply in_map_iff in Hin. destruct Hin as [y [Hy _]]. inversion Hy; subst.
    simpl. rewrite Forall_forall in Hall. apply Hall, Hk'.
Qed.

(** The pairs of a multimap, key by key in the order of its list. *)
Definition pairsIn (m : Values) : list (string * string) :=
  flat_map (fun e => map (fun v => (fst e, v)) (snd e)) m.

Lemma Get_head k vs m : Url.Get ((k, vs) :: m) k = vs.
Proof. unfold Url.Get. simpl. rewrite String.eqb_refl. reflexivity. Qed.

Lemma Get_tail k0 vs m k : k0 <> k -> Url.Get ((k0, vs) :: m) k = Url.Get m k.
Proof.
  intros H. unfold Url.Get. simpl.
  apply String.eqb_neq in H. rewrite H. reflexivity.
Qed.

Lemma pairsIn_by_keys m :
  NoDup (map fst m) ->
  pairsIn m = flat_map (fun k => map (fun v => (k, v)) (Url.Get m k)) (map fst m).
Proof.
  unfold pairsIn.
  induction m as [|[k vs] m IH]; simpl; intros H; [reflexivity|].
  inversion H as [|? ? Hnotin Hnd]; subst.
  rewrite Get_head. f_equal. rewrite (IH Hnd).
  apply flat_map_ext_In. intros k' Hk'.
  rewrite Get_tail; [reflexivity|]. intros Heq; subst. contradiction.
Qed.

Lemma encodePairs_Permutation m :
  NoDup (map fst m) -> Permutation (Url.encodePairs m) (pairsIn m).
Proof.
  intros H. rewrite pairsIn_by_keys by exact H. unfold Url.encodePairs.
  apply Permutation_flat_map, sortKeys_is_Permutation.
Qed.

Lemma pairsIn_Add m k v :
  Permutation (pairsIn (Url.Add m k v)) (pairsIn m ++ [(k, v)]).
Proof.
  unfold pairsIn.
  induction m as [|[k0 vs] m IH]; simpl; [reflexivity|].
  destruct (String.eqb k0 k) eqn:Hk; simpl.
  - apply String.eqb_eq in Hk; subst k0.
    rewrite map_app. simpl. rewrite <- !app_assoc.
    apply Permutation_app_head. simpl.
    apply Permutation_cons_append.
  - rewrite IH, app_assoc. reflexivity.
Qed.

Lemma pairsIn_addAll ps : forall out,
  Permutation (pairsIn (addAll out ps)) (pairsIn out ++ map rendered ps).
Proof.
  unfold addAll.
  induction ps as [|p ps IH]; simpl; intros out.
  - rewrite app_nil_r. reflexivity.
  - rewrite IH, pairsIn_Add, <- app_assoc. reflexivity.
Qed.

(** What [Encode] writes: the leaves as pairs, in ascending key order. *)
Lemma encodeLeaves_sorted_pairs ps :
  exists pairs,
    encodeLeaves ps = Url.joinAmp (map escapePair pairs) /\
    sortedByKey pairs /\
    Permutation pairs (map rendered ps).
Proof.
  exists (Url.encodePairs (addAll [] ps)). split; [|split].
  - reflexivity.
  - apply encodePairs_sorted.
  - rewrite encodePairs_Permutation
      by (apply NoDup_keys_addAll; constructor).
    rewrite pairsIn_addAll. reflexivity.
Qed.

End EncodeFacts.

(** ** The traversal as a list of leaves *)

Section ValueInduction.

Variable P : value -> Prop.

Hypothesis on_bool : forall b, P (VBool b).
Hypothesis on_string : forall s, P (VString s).
Hypothesis on_int : forall b i, P (VInt b i).
Hypothesis on_uint : forall b u, P (VUint b u).
Hypothesis on_float : forall b f, P (VFloat b f).
Hypothesis on_other : forall k n, P (VOther k n).
Hypothesis on_nil_pointer : forall t, P (VPointer t None).
Hypothesis on_pointer : forall t x, P x -> P (VPointer t (Some x)).
Hypothesis on_nil_interface : P (VInterface None).
Hypothesis on_interface : forall x, P x -> P (VInterface (Some x)).
Hypothesis on_slice : forall t xs, Forall P xs -> P (VSlice t xs).
Hypothesis on_array : forall t xs, Forall P xs -> P (VArray t xs).
Hypothesis on_nil_map : forall kt et, P (VMap kt et None).
Hypothesis on_map :
  forall kt et es, Forall (fun kv => P (snd kv)) es -> P (VMap kt et (Some es)).
Hypothesis on_struct :
  forall fs, Forall (fun fv => P (snd fv)) fs -> P (VStruct fs).
Hypothesis on_named : forall n v, P v -> P (VNamed n v).

Fixpoint value_induction (v : value) : P v :=
  match v with
  | VBool b => on_bool b
  | VString s => on_string s
  | VInt b i => on_int b i
  | VUint b u => on_uint b u
  | VFloat b f => on_float b f
  | VOther k n => on_other k n
  | VPointer t None => on_nil_pointer t
  | VPointer t (Some x) => on_pointer t (value_induction x)
  | VInterface None => on_nil_interface
  | VInterface (Some x) => on_interface (value_induction x)
  | VSlice t xs =>
      on_slice t
        ((fix all (l : list value) : Forall P l :=
            match l with
            | [] => Forall_nil P
            | x :: l' => Forall_cons x (value_induction x) (all l')
            end) xs)
  | VArray t xs =>
      on_array t
        ((fix all (l : list value) : Forall P l :=
            match l with
            | [] => Forall_nil P
            | x :: l' => Forall_cons x (value_induction x) (all l')
            end) xs)
  | VMap kt et None => on_nil_map kt et
  | VMap kt et (Some es) =>
      on_map kt et
        ((fix all (l : list (string * value))
            : Forall (fun kv => P (snd kv)) l :=
            match l with
            | [] => Forall_nil _
            | kv :: l' => Forall_cons kv (value_induction (snd kv)) (all l')
            end) es)
  | VStruct fs =>
      on_struct
        ((fix all (l : list (structField * value))
            : Forall (fun fv => P (snd fv)) l :=
            match l with
            | [] => Forall_nil _
            | fv :: l' => Forall_cons fv (value_induction (snd fv)) (all l')
            end) fs)
  | VNamed n u => on_named n (value_induction u)
  end.

End ValueInduction.

Lemma leaves_eq E addr ro path v :
  leaves E addr ro path v =
  match underlying v with
  | VPointer _ None => Ok []
  | VPointer _ (Some x) => leavesDereferenced E true ro path x
  | _ => leavesDereferenced E addr ro path v
  end.
Proof.
  assert (Hd : forall a x,
             (if ro then Panic errUnexported
              else match asMarshaler E a x with
                   | Some m => s <- m ;; _ <- renderPath path ;; Ok [(path, s)]
                   | None =>
                       match underlying x with
                       | VStruct fs => leavesStruct E a path fs
                       | VMap _ _ (Some es) => leavesMap E path es
                       | VMap _ _ None => Ok []
                       | VSlice _ xs => leavesSlice E true path xs
                       | VArray _ xs => leavesSlice E a path xs
                       | VInterface (Some y) => leaves E false false path y
                       | VInterface None => Ok []
                       | _ => _ <- renderPath path ;; s <- getScalar E x ;;
                              Ok [(path, s)]
                       end
                   end)
             = leavesDereferenced E a ro path x) by reflexivity.
  destruct v as [b|s|bits i|bits u|bits f|k n|t [x|]|[e|]|t xs|t xs
                 |kt et [es|]|fs|name u];
    try reflexivity; try (rewrite <- Hd; reflexivity).
  destruct u as [b|s|bits i|bits u|bits f|k n|t [x|]|[e|]|t xs|t xs
                 |kt et [es|]|fs|name' u];
    try reflexivity; try (rewrite <- Hd; reflexivity).
Qed.

(** A visit [go] adds the leaves [l] to the output, or fails as [l]
    does. *)
Definition emits (go : visit) (l : result (list leaf)) : Prop :=
  forall out, go out = (ps <- l ;; Ok (addAll out ps)).

Lemma renderKey_ok path k : renderPath path = Ok k -> renderKey path = k.
Proof. unfold renderKey. intros H. rewrite H. reflexivity. Qed.

Lemma addAll_app out ps qs : addAll out (ps ++ qs) = addAll (addAll out ps) qs.
Proof. unfold addAll. apply fold_left_app. Qed.

Lemma emits_then (go : visit) (l : result (list leaf))
      (rest : visit) (ls : result (list leaf)) :
  emits go l -> emits rest ls ->
  emits (fun out => out' <- go out ;; rest out')
        (xs <- l ;; ys <- ls ;; Ok (xs ++ ys)).
Proof.
  intros Hgo Hrest out. rewrite Hgo.
  destruct l as [ps| |]; simpl; try reflexivity.
  rewrite Hrest. destruct ls as [qs| |]; simpl; try reflexivity.
  rewrite addAll_app. reflexivity.
Qed.

Lemma emits_nothing : emits (fun out => Ok out) (Ok []).
Proof. intros out. reflexivity. Qed.

Section Emits.

Variable E : Env.

Definition emitsValue (v : value) : Prop :=
  forall addr ro path,
    emits (marshalValue E addr ro path v) (leaves E addr ro path v).

Definition emitsDereferenced (v : value) : Prop :=
  forall addr ro path,
    emits (marshalDereferenced E addr ro path v)
          (leavesDereferenced E addr ro path v).

Lemma marshalStruct_emits fs :
  Forall (fun fv => emitsValue (snd fv)) fs ->
  forall addr path,
    emits (marshalStruct E addr path fs) (leavesStruct E addr path fs).
Proof.
  intros H addr path. unfold marshalStruct, leavesStruct.
  induction H as [|[f fv] fs Hfv _ IH]; simpl.
  - apply emits_nothing.
  - intros out. cbn [structLoop fst snd].
    destruct (Ignore (fieldTagOf f)); [rewrite IH; simpl;
      destruct (concatResults _); reflexivity|].
    destruct (Omit (fieldTagOf f) && isEmptyValue E fv)%bool;
      [rewrite IH; simpl; destruct (concatResults _); reflexivity|].
    destruct (String.eqb (Name (fieldTagOf f)) "");
      [rewrite IH; simpl; destruct (concatResults _); reflexivity|].
    exact (emits_then (Hfv addr _ _) IH out).
Qed.

Lemma marshalSlice_emits xs :
  Forall emitsValue xs ->
  forall addr path,
    emits (marshalSlice E addr path xs) (leavesSlice E addr path xs).
Proof.
  intros H addr path. unfold marshalSlice, leavesSlice.
  induction H as [|x xs Hx _ IH]; simpl.
  - apply emits_nothing.
  - intros out. cbn [sliceLoop].
    destruct (isNilInterface x).
    + rewrite IH. simpl. destruct (concatResults _); reflexivity.
    + exact (emits_then (Hx addr false _) IH out).
Qed.

Lemma mapLoop_emits (table : list (string * option visit))
      (byKey : string -> result (list leaf)) :
  (forall k,
      match find (fun e => String.eqb (fst e) k) table with
      | Some (_, Some go) => emits go (byKey k)
      | _ => byKey k = Ok []
      end) ->
  forall keys,
    emits (mapLoop table keys) (concatResults (map byKey keys)).
Proof.
  intros Htable keys.
  induction keys as [|k keys IH]; simpl.
  - apply emits_nothing.
  - intros out. cbn [mapLoop]. specialize (Htable k).
    destruct (find (fun e => String.eqb (fst e) k) table) as [[k' [go|]]|].
    + exact (emits_then Htable IH out).
    + rewrite Htable, IH. simpl. destruct (concatResults _); reflexivity.
    + rewrite Htable, IH. simpl. destruct (concatResults _); reflexivity.
Qed.

Lemma marshalMap_emits es :
  Forall (fun kv => emitsValue (snd kv)) es ->
  forall path, emits (marshalMap E path es) (leavesMap E path es).
Proof.
  intros H path. unfold marshalMap, leavesMap.
  apply mapLoop_emits. intros k. unfold leavesOfKey.
  induction H as [|[k0 v0] es Hv _ IH]; simpl; [reflexivity|].
  destruct (String.eqb k0 k); [|exact IH].
  destruct (isNilInterface v0); [reflexivity|].
  apply Hv.
Qed.

Lemma marshaler_emits path (m : result string) :
  emits (fun out => marshaler out path m)
        (s <- m ;; _ <- renderPath path ;; Ok [(path, s)]).
Proof.
  intros out. unfold marshaler.
  destruct m as [s| |]; simpl; try reflexivity.
  destruct (renderPath path) as [k| |] eqn:Hk; simpl; try reflexivity.
  unfold addAll. simpl. rewrite (renderKey_ok _ Hk). reflexivity.
Qed.

Lemma marshalScalar_emits path v :
  emits (fun out => marshalScalar E out path v)
        (_ <- renderPath path ;; s <- getScalar E v ;; Ok [(path, s)]).
Proof.
  intros out. unfold marshalScalar.
  destruct (renderPath path) as [k| |] eqn:Hk; simpl; try reflexivity.
  destruct (getScalar E v) as [s| |]; simpl; try reflexivity.
  unfold addAll. simpl. rewrite (renderKey_ok _ Hk). reflexivity.
Qed.

(** From the switch on the kind to the whole of [marshalValue]. *)
Lemma emitsDereferenced_of_kind v :
  (forall addr path,
      emits (marshalKind E addr path v) (leavesKind E addr path v)) ->
  emitsDereferenced v.
Proof.
  intros H addr ro path out. unfold marshalDereferenced, leavesDereferenced.
  destruct ro; [reflexivity|].
  destruct (asMarshaler E addr v) as [m|].
  - apply marshaler_emits.
  - apply H.
Qed.

Definition emitsKind (v : value) : Prop :=
  forall addr path,
    emits (marshalKind E addr path v) (leavesKind E addr path v).

Lemma emitsValue_of_kind v :
  emitsKind v ->
  (forall t x, underlying v = VPointer t (Some x) -> emitsKind x) ->
  emitsValue v.
Proof.
  intros Hv Hx addr ro path out. rewrite marshalValue_eq, leaves_eq.
  destruct (underlying v) as [b|s|bits i|bits u|bits f|k n|t [x|]|[e|]|t xs|t xs
                              |kt et [es|]|fs|name u] eqn:Hu;
    try (apply emitsDereferenced_of_kind; exact Hv).
  - apply emitsDereferenced_of_kind. eapply Hx. reflexivity.
  - reflexivity.
Qed.

Lemma emitsKind_scalar v :
  match underlying v with
  | VStruct _ | VMap _ _ _ | VSlice _ _ | VArray _ _ | VInterface _ => False
  | _ => True
  end ->
  emitsKind v.
Proof.
  intros H addr path out. unfold marshalKind, leavesKind.
  destruct (underlying v); try contradiction; apply marshalScalar_emits.
Qed.

Theorem marshalValue_emits_leaves : forall v, emitsValue v /\ emitsKind v.
Proof.
  apply value_induction.
  - intros b. assert (K : emitsKind (VBool b))
      by (apply emitsKind_scalar; exact I).
    split; [apply emitsValue_of_kind; [exact K | discriminate] | exact K].
  - intros s. assert (K : emitsKind (VString s))
      by (apply emitsKind_scalar; exact I).
    split; [apply emitsValue_of_kind; [exact K | discriminate] | exact K].
  - intros b i. assert (K : emitsKind (VInt b i))
      by (apply emitsKind_scalar; exact I).
    split; [apply emitsValue_of_kind; [exact K | discriminate] | exact K].
  - intros b u. assert (K : emitsKind (VUint b u))
      by (apply emitsKind_scalar; exact I).
    split; [apply emitsValue_of_kind; [exact K | discriminate] | exact K].
  - intros b f. assert (K : emitsKind (VFloat b f))
      by (apply emitsKind_scalar; exact I).
    split; [apply emitsValue_of_kind; [exact K | discriminate] | exact K].
  - intros k n. assert (K : emitsKind (VOther k n))
      by (apply emitsKind_scalar; exact I).
    split; [apply emitsValue_of_kind; [exact K | discriminate] | exact K].
  - intros t. assert (K : emitsKind (VPointer t None))
      by (apply emitsKind_scalar; exact I).
    split; [apply emitsValue_of_kind; [exact K | discriminate] | exact K].
  - intros t x [_ Kx]. assert (K : emitsKind (VPointer t (Some x)))
      by (apply emitsKind_scalar; exact I).
    split; [apply emitsValue_of_kind; [exact K |] | exact K].
    intros t' x' Heq. inversion Heq; subst. exact Kx.
  - assert (K : emitsKind (VInterface None))
      by (intros addr path out; reflexivity).
    split; [apply emitsValue_of_kind; [exact K | discriminate] | exact K].
  - intros x [Vx _]. assert (K : emitsKind (VInterface (Some x)))
      by (intros addr path; apply Vx).
    split; [apply emitsValue_of_kind; [exact K | discriminate] | exact K].
  - intros t xs H. assert (K : emitsKind (VSlice t xs)).
    { intros addr path. apply marshalSlice_emits.
      eapply Forall_impl; [|exact H]. intros x [Vx _]. exact Vx. }
    split; [apply emitsValue_of_kind; [exact K | discriminate] | exact K].
  - intros t xs H. assert (K : emitsKind (VArray t xs)).
    { intros addr path. apply marshalSlice_emits.
      eapply Forall_impl; [|exact H]. intros x [Vx _]. exact Vx. }
    split; [apply emitsValue_of_kind; [exact K | discriminate] | exact K].
  - intros kt et. assert (K : emitsKind (VMap kt et None)).
    { intros addr path out. unfold marshalKind, leavesKind, marshalMap.
      cbn [underlying map]. induction (mapKeys E []) as [|k ks IH];
        [reflexivity | exact IH]. }
    split; [apply emitsValue_of_kind; [exact K | discriminate] | exact K].
  - intros kt et es H. assert (K : emitsKind (VMap kt et (Some es))).
    { intros addr path. apply marshalMap_emits.
      eapply Forall_impl; [|exact H]. intros kv [Vx _]. exact Vx. }
    split; [apply emitsValue_of_kind; [exact K | discriminate] | exact K].
  - intros fs H. assert (K : emitsKind (VStruct fs)).
    { intros addr path. apply marshalStruct_emits.
      eapply Forall_impl; [|exact H]. intros fv [Vx _]. exact Vx. }
    split; [apply emitsValue_of_kind; [exact K | discriminate] | exact K].
  - intros n u [Vu Ku].
    assert (K : emitsKind (VNamed n u)).
    { intros addr path out. specialize (Ku addr path out).
      unfold marshalKind, leavesKind in *. cbn [underlying].
      destruct u; try exact Ku.
      unfold marshalKind, leavesKind. apply marshalScalar_emits. }
    split; [|exact K].
    intros addr ro path out. rewrite marshalValue_eq, leaves_eq.
    cbn [underlying].
    destruct u as [b|s|bits i|bits u|bits f|k n0|t [x|]|[e|]|t xs|t xs
                   |kt et [es|]|fs|name u];
      try (apply emitsDereferenced_of_kind; exact K).
    + specialize (Vu addr ro path out).
      rewrite marshalValue_eq, leaves_eq in Vu. exact Vu.
    + reflexivity.
Qed.

(** What [marshalValue] returns is what it was given, with the leaves
    added. *)
Corollary marshalValue_leaves addr ro path v out :
  marshalValue E addr ro path v out
  = (ps <- leaves E addr ro path v ;; Ok (addAll out ps)).
Proof. apply marshalValue_emits_leaves. Qed.

End Emits.

(** ** The order of map iteration *)

Section Agreement.

Lemma under_app p xs ys : under p (xs ++ ys) = under p xs ++ under p ys.
Proof. unfold under. apply filter_app. Qed.

Lemma under_flat_map {A} p (g : A -> list leaf) l :
  under p (flat_map g l) = flat_map (fun a => under p (g a)) l.
Proof.
  induction l as [|a l IH]; simpl; [reflexivity|].
  rewrite under_app, IH. reflexivity.
Qed.

Lemma agree_refl ps : agree ps ps.
Proof. intros p. reflexivity. Qed.

Lemma agree_app xs ys xs' ys' :
  agree xs xs' -> agree ys ys' -> agree (xs ++ ys) (xs' ++ ys').
Proof. intros H1 H2 p. rewrite !under_app, H1, H2. reflexivity. Qed.

Lemma samePath_true p q : samePath p q = true <-> p = q.
Proof.
  unfold samePath. destruct (list_eq_dec string_dec p q); split;
    congruence.
Qed.

Lemma under_In p x ps : In x (under p ps) <-> In x ps /\ fst x = p.
Proof.
  unfold under. rewrite filter_In, samePath_true. reflexivity.
Qed.

Lemma agree_In ps qs x : agree ps qs -> In x ps -> In x qs.
Proof.
  intros H Hin. assert (Hu : In x (under (fst x) ps))
    by (apply under_In; auto).
  rewrite H in Hu. apply under_In in Hu. tauto.
Qed.

Lemma agree_sym ps qs : agree ps qs -> agree qs ps.
Proof. intros H p. symmetry. apply H. Qed.

Lemma agree_trans ps qs rs : agree ps qs -> agree qs rs -> agree ps rs.
Proof. intros H1 H2 p. rewrite H1. apply H2. Qed.

Lemma prefixed_app path xs ys :
  prefixed path xs -> prefixed path ys -> prefixed path (xs ++ ys).
Proof.
  intros H1 H2 x Hin. apply in_app_or in Hin. destruct Hin; auto.
Qed.

Lemma prefixed_weaken path k ps :
  prefixed (path ++ [k]) ps -> prefixed path ps.
Proof.
  intros H x Hin. destruct (H x Hin) as [suffix Hs].
  exists (k :: suffix). rewrite Hs, <- app_assoc. reflexivity.
Qed.

(** A leaf below [path ++ [k]] is not under a path whose next segment
    is another key. *)
Lemma under_other_key path k p ps :
  prefixed (path ++ [k]) ps ->
  nth (List.length path) p "" <> k ->
  under p ps = [].
Proof.
  intros Hpre Hk. unfold under.
  induction ps as [|x ps IH]; simpl; [reflexivity|].
  destruct (samePath (fst x) p) eqn:Hs.
  - exfalso. apply samePath_true in Hs.
    destruct (Hpre x (or_introl eq_refl)) as [suffix Hx].
    apply Hk. rewrite <- Hs, Hx, <- app_assoc. simpl.
    rewrite app_nth2 by lia. rewrite Nat.sub_diag. reflexivity.
  - apply IH. intros y Hy. apply Hpre. right. exact Hy.
Qed.

(** Of blocks of which one at most is not empty, the concatenation is
    that one block, in whatever order the blocks come. *)
Lemma flat_map_single (h : string -> list leaf) k0 l :
  NoDup l ->
  (forall k, In k l -> k <> k0 -> h k = []) ->
  flat_map h l = if in_dec string_dec k0 l then h k0 else [].
Proof.
  induction 1 as [|k l Hnotin Hnd IH]; intros Hother; simpl.
  - reflexivity.
  - destruct (string_dec k k0) as [Heq | Hne].
    + subst k. rewrite IH by (intros; apply Hother; simpl; auto).
      destruct (in_dec string_dec k0 l); [contradiction|].
      apply app_nil_r.
    + rewrite (Hother k (or_introl eq_refl) Hne). simpl.
      rewrite IH by (intros; apply Hother; simpl; auto).
      destruct (in_dec string_dec k0 l); reflexivity.
Qed.

Lemma in_dec_Permutation (k : string) l1 l2 (X Y : list leaf) :
  Permutation l1 l2 ->
  (if in_dec string_dec k l1 then X else Y)
  = (if in_dec string_dec k l2 then X else Y).
Proof.
  intros H.
  destruct (in_dec string_dec k l1) as [H1 | H1],
           (in_dec string_dec k l2) as [H2 | H2]; try reflexivity; exfalso.
  - apply H2. eapply Permutation_in; eassumption.
  - apply H1. eapply Permutation_in; [apply Permutation_sym|]; eassumption.
Qed.

Lemma concatResults_ok {A} (f : A -> result (list leaf)) l ps :
  concatResults (map f l) = Ok ps <->
  (forall a, In a l -> isOk (f a) = true) /\
  ps = flat_map (fun a => okBlock (f a)) l.
Proof.
  revert ps. induction l as [|a l IH]; simpl; intros ps.
  - split.
    + intros H; inversion H; subst. split; [intros a []| reflexivity].
    + intros [_ H]; subst. reflexivity.
  - destruct (f a) as [b| |] eqn:Hfa; simpl.
    + destruct (concatResults (map f l)) as [ys| |] eqn:Hrest; simpl.
      * destruct (IH ys) as [IH1 _]. destruct (IH1 eq_refl) as [Hall Hys].
        split.
        -- intros H; inversion H; subst. split; [|reflexivity].
           intros a' [Heq | Hin]; [subst; rewrite Hfa; reflexivity | auto].
        -- intros [_ H]; subst. reflexivity.
      * split; [discriminate|]. intros [Hall _].
        destruct (IH (flat_map (fun a => okBlock (f a)) l)) as [_ IH2].
        assert (Hc : forall a0, In a0 l -> isOk (f a0) = true)
          by (intros; apply Hall; auto).
        specialize (IH2 (conj Hc eq_refl)). discriminate.
      * split; [discriminate|]. intros [Hall _].
        destruct (IH (flat_map (fun a => okBlock (f a)) l)) as [_ IH2].
        assert (Hc : forall a0, In a0 l -> isOk (f a0) = true)
          by (intros; apply Hall; auto).
        specialize (IH2 (conj Hc eq_refl)). discriminate.
    + split; [discriminate|]. intros [Hall _].
      specialize (Hall a (or_introl eq_refl)). rewrite Hfa in Hall.
      discriminate.
    + split; [discriminate|]. intros [Hall _].
      specialize (Hall a (or_introl eq_refl)). rewrite Hfa in Hall.
      discriminate.
Qed.

End Agreement.

Section Related.

Lemma related_same path r :
  (forall ps, r = Ok ps -> prefixed path ps) -> related path r r.
Proof.
  intros H. split; [exact H | split; [exact H|]].
  intros ps Hr. exists ps. split; [exact Hr | apply agree_refl].
Qed.

Lemma related_nil path : related path (Ok []) (Ok []).
Proof.
  apply related_same. intros ps H. inversion H; subst. intros x [].
Qed.

Lemma related_weaken path k r1 r2 :
  related (path ++ [k]) r1 r2 -> related path r1 r2.
Proof.
  intros [H1 [H2 H3]]. split; [|split; [|exact H3]].
  - intros ps Hr. eapply prefixed_weaken, H1, Hr.
  - intros ps Hr. eapply prefixed_weaken, H2, Hr.
Qed.

Lemma related_leaf path (r1 r2 : result string) :
  r1 = r2 ->
  related path (s <- r1 ;; Ok [(path, s)]) (s <- r2 ;; Ok [(path, s)]).
Proof.
  intros <-. apply related_same. intros ps H.
  destruct r1 as [s| |]; simpl in H; inversion H; subst.
  intros x [Hx | []]; subst. exists []. simpl. symmetry. apply app_nil_r.
Qed.

Lemma related_seq path r1 r2 rs1 rs2 :
  related path r1 r2 -> related path rs1 rs2 ->
  related path (xs <- r1 ;; ys <- rs1 ;; Ok (xs ++ ys))
               (xs <- r2 ;; ys <- rs2 ;; Ok (xs ++ ys)).
Proof.
  intros [A1 [A2 A3]] [B1 [B2 B3]]. split; [|split].
  - intros ps H. destruct r1 as [xs| |]; simpl in H; try discriminate.
    destruct rs1 as [ys| |]; simpl in H; inversion H; subst.
    apply prefixed_app; auto.
  - intros ps H. destruct r2 as [xs| |]; simpl in H; try discriminate.
    destruct rs2 as [ys| |]; simpl in H; inversion H; subst.
    apply prefixed_app; auto.
  - intros ps H. destruct r1 as [xs| |]; simpl in H; try discriminate.
    destruct rs1 as [ys| |]; simpl in H; inversion H; subst.
    destruct (A3 xs eq_refl) as [xs' [Hx Hax]].
    destruct (B3 ys eq_refl) as [ys' [Hy Hay]].
    subst. exists (xs' ++ ys'). split; [reflexivity|].
    apply agree_app; assumption.
Qed.

Lemma related_concat {A} path (f1 f2 : A -> result (list leaf)) l :
  (forall a, In a l -> related path (f1 a) (f2 a)) ->
  related path (concatResults (map f1 l)) (concatResults (map f2 l)).
Proof.
  induction l as [|a l IH]; simpl; intros H.
  - apply related_nil.
  - apply related_seq; [apply H; auto | apply IH; intros; apply H; auto].
Qed.

(** The step of a map: the blocks of the keys, taken in two orders. *)
Lemma related_permuted path (f1 f2 : string -> result (list leaf)) ks ks1 ks2 :
  NoDup ks -> Permutation ks1 ks -> Permutation ks2 ks ->
  (forall k, related (path ++ [k]) (f1 k) (f2 k)) ->
  related path (concatResults (map f1 ks1)) (concatResults (map f2 ks2)).
Proof.
  intros Hnd P1 P2 Hrel.
  assert (Hpre : forall (f : string -> result (list leaf)) l ps,
             (forall k ps, f k = Ok ps -> prefixed (path ++ [k]) ps) ->
             concatResults (map f l) = Ok ps -> prefixed path ps).
  { intros f l ps Hf Hc. apply concatResults_ok in Hc.
    destruct Hc as [_ ->]. intros x Hin.
    apply in_flat_map in Hin. destruct Hin as [k [_ Hx]].
    destruct (f k) as [b| |] eqn:Hfk; simpl in Hx; try contradiction.
    eapply prefixed_weaken; [eapply Hf; exact Hfk | exact Hx]. }
  split; [|split].
  - intros ps. apply Hpre. intros k b.
    destruct (Hrel k) as [Hp1 _]. apply Hp1.
  - intros ps. apply Hpre. intros k b.
    destruct (Hrel k) as [_ [Hp2 _]]. apply Hp2.
  - intros ps1 Hc1. apply concatResults_ok in Hc1.
    destruct Hc1 as [Hall1 ->].
    assert (Hall2 : forall k, In k ks2 -> isOk (f2 k) = true).
    { intros k Hk.
      assert (Hk1 : In k ks1).
      { eapply Permutation_in; [apply Permutation_sym, P1|].
        eapply Permutation_in; eassumption. }
      specialize (Hall1 k Hk1).
      destruct (f1 k) as [b| |] eqn:Hf1; try discriminate.
      destruct (Hrel k) as [_ [_ Hs]].
      destruct (Hs b Hf1) as [b2 [Hf2 _]]. rewrite Hf2. reflexivity. }
    exists (flat_map (fun k => okBlock (f2 k)) ks2). split.
    + apply concatResults_ok. split; [exact Hall2 | reflexivity].
    + intros p. rewrite !under_flat_map.
      set (k0 := nth (List.length path) p "").
      assert (Hnd1 : NoDup ks1)
        by (eapply Permutation_NoDup; [apply Permutation_sym|]; eassumption).
      assert (Hnd2 : NoDup ks2)
        by (eapply Permutation_NoDup; [apply Permutation_sym|]; eassumption).
      rewrite (@flat_map_single (fun k => under p (okBlock (f1 k))) k0 ks1 Hnd1).
      2:{ intros k _ Hne. destruct (f1 k) as [b| |] eqn:Hf1; try reflexivity.
          destruct (Hrel k) as [Hp1 _].
          eapply under_other_key; [apply Hp1; exact Hf1|].
          fold k0. congruence. }
      rewrite (@flat_map_single (fun k => under p (okBlock (f2 k))) k0 ks2 Hnd2).
      2:{ intros k _ Hne. destruct (f2 k) as [b| |] eqn:Hf2; try reflexivity.
          destruct (Hrel k) as [_ [Hp2 _]].
          eapply under_other_key; [apply Hp2; exact Hf2|].
          fold k0. congruence. }
      rewrite (@in_dec_Permutation k0 ks1 ks2 _ _
                 (Permutation_trans P1 (Permutation_sym P2))).
      destruct (in_dec string_dec k0 ks2) as [Hin | _]; [|reflexivity].
      assert (Hk1 : In k0 ks1).
      { eapply Permutation_in; [apply Permutation_sym, P1|].
        eapply Permutation_in; eassumption. }
      specialize (Hall1 k0 Hk1).
      destruct (f1 k0) as [b| |] eqn:Hf1; try discriminate.
      destruct (Hrel k0) as [_ [_ Hs]].
      destruct (Hs b Hf1) as [b2 [Hf2 Hag]]. rewrite Hf2. simpl.
      apply Hag.
Qed.

End Related.

Section OrderIndependence.

Variables E1 E2 : Env.
Hypothesis fair1 : fairOrder E1.
Hypothesis fair2 : fairOrder E2.
Hypothesis same : sameCodecs E1 E2.

Lemma asMarshaler_same addr v : asMarshaler E1 addr v = asMarshaler E2 addr v.
Proof.
  destruct same as [Hp [Hv _]]. unfold asMarshaler.
  rewrite Hp, Hv. reflexivity.
Qed.

Lemma getScalar_same v : getScalar E1 v = getScalar E2 v.
Proof.
  destruct same as [_ [_ [Hf _]]]. unfold getScalar.
  destruct (underlying v); try reflexivity. rewrite Hf. reflexivity.
Qed.

Lemma isEmptyValue_same v : isEmptyValue E1 v = isEmptyValue E2 v.
Proof.
  destruct same as [_ [_ [_ Hz]]]. unfold isEmptyValue.
  destruct (underlying v); try reflexivity. apply Hz.
Qed.

Lemma related_one path (r : result (list leaf)) :
  (forall ps, r = Ok ps -> exists s, ps = [(path, s)]) -> related path r r.
Proof.
  intros H. apply related_same. intros ps Hr.
  destruct (H ps Hr) as [s ->]. intros x [<- | []].
  exists []. simpl. symmetry. apply app_nil_r.
Qed.

Lemma related_hook path (m : result string) :
  related path (s <- m ;; _ <- renderPath path ;; Ok [(path, s)])
               (s <- m ;; _ <- renderPath path ;; Ok [(path, s)]).
Proof.
  apply related_one. intros ps H.
  destruct m as [s| |]; simpl in H; try discriminate.
  destruct (renderPath path); simpl in H; inversion H. eauto.
Qed.

Lemma related_scalar path v :
  related path (_ <- renderPath path ;; s <- getScalar E1 v ;; Ok [(path, s)])
               (_ <- renderPath path ;; s <- getScalar E2 v ;; Ok [(path, s)]).
Proof.
  rewrite getScalar_same. apply related_one. intros ps H.
  destruct (renderPath path); simpl in H; try discriminate.
  destruct (getScalar E2 v); simpl in H; inversion H. eauto.
Qed.

Definition relatedValue (v : value) : Prop :=
  forall addr ro path,
    related path (leaves E1 addr ro path v) (leaves E2 addr ro path v).

Definition relatedKind (v : value) : Prop :=
  forall addr path,
    related path (leavesKind E1 addr path v) (leavesKind E2 addr path v).

Lemma relatedDereferenced_of_kind v :
  relatedKind v ->
  forall addr ro path,
    related path (leavesDereferenced E1 addr ro path v)
                 (leavesDereferenced E2 addr ro path v).
Proof.
  intros H addr ro path. unfold leavesDereferenced.
  destruct ro.
  - apply related_same. discriminate.
  - rewrite asMarshaler_same.
    destruct (asMarshaler E2 addr v); [apply related_hook | apply H].
Qed.

Lemma relatedValue_of_kind v :
  relatedKind v ->
  (forall t x, underlying v = VPointer t (Some x) -> relatedKind x) ->
  relatedValue v.
Proof.
  intros Hv Hx addr ro path. rewrite !leaves_eq.
  destruct (underlying v) as [b|s|bits i|bits u|bits f|k n|t [x|]|[e|]|t xs|t xs
                              |kt et [es|]|fs|name u] eqn:Hu;
    try (apply relatedDereferenced_of_kind; exact Hv).
  - apply relatedDereferenced_of_kind. eapply Hx. reflexivity.
  - apply related_nil.
Qed.

Lemma relatedKind_scalar v :
  match underlying v with
  | VStruct _ | VMap _ _ _ | VSlice _ _ | VArray _ _ | VInterface _ => False
  | _ => True
  end ->
  relatedKind v.
Proof.
  intros H addr path. unfold leavesKind.
  destruct (underlying v); try contradiction; apply related_scalar.
Qed.

Lemma leavesStruct_related fs :
  Forall (fun fv => relatedValue (snd fv)) fs ->
  forall addr path,
    related path (leavesStruct E1 addr path fs) (leavesStruct E2 addr path fs).
Proof.
  intros H addr path. unfold leavesStruct.
  apply related_concat. intros [f fv] Hin. cbn [fst snd].
  rewrite Forall_forall in H. specialize (H _ Hin). cbn [snd] in H.
  rewrite isEmptyValue_same.
  destruct (Ignore (fieldTagOf f)); [apply related_nil|].
  destruct (Omit (fieldTagOf f) && isEmptyValue E2 fv)%bool;
    [apply related_nil|].
  destruct (String.eqb (Name (fieldTagOf f)) ""); [apply related_nil|].
  eapply related_weaken. apply H.
Qed.

Lemma leavesSlice_related xs :
  Forall relatedValue xs ->
  forall addr path,
    related path (leavesSlice E1 addr path xs) (leavesSlice E2 addr path xs).
Proof.
  intros H addr path. unfold leavesSlice.
  apply related_concat. intros x Hin.
  rewrite Forall_forall in H. specialize (H _ Hin).
  destruct (isNilInterface x); [apply related_nil|].
  eapply related_weaken. apply H.
Qed.

Lemma leavesOfKey_related es :
  Forall (fun kv => relatedValue (snd kv)) es ->
  forall path k,
    related (path ++ [k]) (leavesOfKey E1 path es k) (leavesOfKey E2 path es k).
Proof.
  intros H path k. unfold leavesOfKey.
  induction H as [|[k0 v0] es Hv _ IH]; simpl; [apply related_nil|].
  destruct (String.eqb k0 k) eqn:Hk; [|exact IH].
  apply String.eqb_eq in Hk. subst k0.
  destruct (isNilInterface v0); [apply related_nil | apply Hv].
Qed.

Lemma leavesMap_related es :
  NoDup (map fst es) ->
  Forall (fun kv => relatedValue (snd kv)) es ->
  forall path, related path (leavesMap E1 path es) (leavesMap E2 path es).
Proof.
  intros Hnd H path. unfold leavesMap.
  eapply related_permuted with (ks := map fst es).
  - exact Hnd.
  - apply fair1.
  - apply fair2.
  - intros k. apply leavesOfKey_related, H.
Qed.

Ltac from_kind K :=
  split; [apply relatedValue_of_kind; [exact K | discriminate] | exact K].

Theorem leaves_related :
  forall v, wellKeyed v -> relatedValue v /\ relatedKind v.
Proof.
  apply (@value_induction (fun v => wellKeyed v -> relatedValue v /\ relatedKind v)).
  - intros b _. assert (K : relatedKind (VBool b))
      by (apply relatedKind_scalar; exact I). from_kind K.
  - intros s _. assert (K : relatedKind (VString s))
      by (apply relatedKind_scalar; exact I). from_kind K.
  - intros b i _. assert (K : relatedKind (VInt b i))
      by (apply relatedKind_scalar; exact I). from_kind K.
  - intros b u _. assert (K : relatedKind (VUint b u))
      by (apply relatedKind_scalar; exact I). from_kind K.
  - intros b f _. assert (K : relatedKind (VFloat b f))
      by (apply relatedKind_scalar; exact I). from_kind K.
  - intros k n _. assert (K : relatedKind (VOther k n))
      by (apply relatedKind_scalar; exact I). from_kind K.
  - intros t _. assert (K : relatedKind (VPointer t None))
      by (apply relatedKind_scalar; exact I). from_kind K.
  - intros t x IH W. inversion W; subst.
    destruct (IH ltac:(assumption)) as [_ Kx].
    assert (K : relatedKind (VPointer t (Some x)))
      by (apply relatedKind_scalar; exact I).
    split; [apply relatedValue_of_kind; [exact K |] | exact K].
    intros t' x' Heq. inversion Heq; subst. exact Kx.
  - intros _. assert (K : relatedKind (VInterface None))
      by (intros addr path; apply related_nil). from_kind K.
  - intros x IH W. inversion W; subst.
    destruct (IH ltac:(assumption)) as [Vx _].
    assert (K : relatedKind (VInterface (Some x)))
      by (intros addr path; apply Vx). from_kind K.
  - intros t xs IH W. inversion W as [| | | | | | | | | |? ? Wxs| | | | |]; subst.
    assert (K : relatedKind (VSlice t xs)).
    { intros addr path. apply leavesSlice_related.
      rewrite Forall_forall in *. intros x Hx. apply IH; auto. }
    from_kind K.
  - intros t xs IH W. inversion W as [| | | | | | | | | | |? ? Wxs| | | |]; subst.
    assert (K : relatedKind (VArray t xs)).
    { intros addr path. apply leavesSlice_related.
      rewrite Forall_forall in *. intros x Hx. apply IH; auto. }
    from_kind K.
  - intros kt et _. assert (K : relatedKind (VMap kt et None))
      by (intros addr path; apply related_nil). from_kind K.
  - intros kt et es IH W.
    inversion W as [| | | | | | | | | | | | |? ? ? Hnd Wes| |]; subst.
    assert (K : relatedKind (VMap kt et (Some es))).
    { intros addr path. apply leavesMap_related; [exact Hnd|].
      rewrite Forall_forall in *. intros kv Hkv. apply IH; auto. }
    from_kind K.
  - intros fs IH W. inversion W as [| | | | | | | | | | | | | |? Wfs|]; subst.
    assert (K : relatedKind (VStruct fs)).
    { intros addr path. apply leavesStruct_related.
      rewrite Forall_forall in *. intros fv Hfv. apply IH; auto. }
    from_kind K.
  - intros n u IH W. inversion W; subst.
    destruct (IH ltac:(assumption)) as [Vu Ku].
    assert (K : relatedKind (VNamed n u)).
    { intros addr path. specialize (Ku addr path).
      unfold leavesKind in *. cbn [underlying].
      destruct u; try exact Ku.
      unfold leavesKind. apply related_scalar. }
    split; [|exact K].
    intros addr ro path. rewrite !leaves_eq. cbn [underlying].
    destruct u as [b|s|bits i|bits u|bits f|k n0|t [x|]|[e|]|t xs|t xs
                   |kt et [es|]|fs|name u];
      try (apply relatedDereferenced_of_kind; exact K).
    + specialize (Vu addr ro path). rewrite !leaves_eq in Vu. exact Vu.
    + apply related_nil.
Qed.

End OrderIndependence.

(** ** Canonical and deterministic output *)

Lemma Marshal_leaves E v :
  Marshal E v = (ps <- marshalLeaves E v ;; Ok (encodeLeaves ps)).
Proof.
  assert (H : forall addr rv,
             (out <- marshalValue E addr false [] rv [] ;; Ok (Url.Encode out))
             = (ps <- leaves E addr false [] rv ;; Ok (encodeLeaves ps))).
  { intros addr rv. rewrite marshalValue_leaves.
    destruct (leaves E addr false [] rv); reflexivity. }
  unfold Marshal, marshalLeaves.
  destruct v as [rv0|]; [|reflexivity].
  destruct (underlying rv0) as [b|s|bits i|bits u|bits f|k n|t [x|]|[e|]|t xs|t xs
                                |kt et m|fs|name u];
    try reflexivity; try apply H.
  - destruct (underlying x); try reflexivity; try apply H.
    destruct (isStringKind key); [apply H | reflexivity].
  - destruct (isStringKind kt); [apply H | reflexivity].
Qed.

(** With one path per key, the values of a key are the leaves under
    that path. *)
Lemma agree_keyed ps qs :
  agree ps qs -> renderInjective ps -> forall k, keyed k ps = keyed k qs.
Proof.
  intros Hag Hinj k. unfold keyed.
  destruct (in_dec string_dec k (map (fun x => renderKey (fst x)) ps))
    as [Hin | Hnot].
  - apply in_map_iff in Hin. destruct Hin as [x0 [Hk Hx0]].
    assert (Hps : filter (fun p => String.eqb (renderKey (fst p)) k) ps
                  = under (fst x0) ps).
    { unfold under. apply filter_ext_in. intros a Ha.
      destruct (String.eqb (renderKey (fst a)) k) eqn:Hak.
      - apply String.eqb_eq in Hak. symmetry. apply samePath_true.
        apply Hinj; [assumption | assumption | congruence].
      - destruct (samePath (fst a) (fst x0)) eqn:Hs; [|reflexivity].
        apply samePath_true in Hs. rewrite Hs, Hk, String.eqb_refl in Hak.
        discriminate. }
    assert (Hqs : filter (fun p => String.eqb (renderKey (fst p)) k) qs
                  = under (fst x0) qs).
    { unfold under. apply filter_ext_in. intros a Ha.
      apply (@agree_In qs ps a (agree_sym Hag)) in Ha.
      destruct (String.eqb (renderKey (fst a)) k) eqn:Hak.
      - apply String.eqb_eq in Hak. symmetry. apply samePath_true.
        apply Hinj; [assumption | assumption | congruence].
      - destruct (samePath (fst a) (fst x0)) eqn:Hs; [|reflexivity].
        apply samePath_true in Hs. rewrite Hs, Hk, String.eqb_refl in Hak.
        discriminate. }
    rewrite Hps, Hqs, Hag. reflexivity.
  - assert (Hnone : forall l, (forall a, In a l -> In a ps) ->
               filter (fun p => String.eqb (renderKey (fst p)) k) l = []).
    { intros l Hl. induction l as [|a l IH]; simpl; [reflexivity|].
      destruct (String.eqb (renderKey (fst a)) k) eqn:Hak.
      - exfalso. apply Hnot. apply String.eqb_eq in Hak.
        apply in_map_iff. exists a. split; [exact Hak | apply Hl; simpl; auto].
      - apply IH. intros; apply Hl; simpl; auto. }
    rewrite (Hnone ps) by auto.
    rewrite (Hnone qs)
      by (intros a Ha; apply (@agree_In qs ps a (agree_sym Hag)), Ha).
    reflexivity.
Qed.

Lemma wellKeyed_underlying v : wellKeyed v -> wellKeyed (underlying v).
Proof. intros W. destruct v; simpl; try exact W. inversion W; assumption. Qed.

Lemma marshalLeaves_sameLeaves E1 E2 v :
  fairOrder E1 -> fairOrder E2 -> sameCodecs E1 E2 ->
  (forall rv, v = Some rv -> wellKeyed rv) ->
  sameLeaves (marshalLeaves E1 v) (marshalLeaves E2 v).
Proof.
  intros F1 F2 S W. unfold marshalLeaves.
  destruct v as [rv0|].
  - specialize (W rv0 eq_refl).
    assert (H : forall addr rv, wellKeyed rv ->
               sameLeaves (leaves E1 addr false [] rv) (leaves E2 addr false [] rv)).
    { intros addr rv Wrv. apply (leaves_related F1 F2 S Wrv). }
    assert (Hrefl : forall r : result (list leaf), sameLeaves r r).
    { intros r ps Hr. exists ps. split; [exact Hr | apply agree_refl]. }
    assert (Hchecked : forall addr rv, wellKeyed rv ->
               sameLeaves
                 (match underlying rv with
                  | VStruct _ => leaves E1 addr false [] rv
                  | VMap kt _ _ =>
                      if isStringKind kt then leaves E1 addr false [] rv
                      else Err errMapKeys
                  | _ => Err errTopLevel
                  end)
                 (match underlying rv with
                  | VStruct _ => leaves E2 addr false [] rv
                  | VMap kt _ _ =>
                      if isStringKind kt then leaves E2 addr false [] rv
                      else Err errMapKeys
                  | _ => Err errTopLevel
                  end)).
    { intros addr rv Wrv.
      destruct (underlying rv); try apply Hrefl; try (apply H; exact Wrv).
      destruct (isStringKind key); [apply H; exact Wrv | apply Hrefl]. }
    destruct (underlying rv0) as [b|s|bits i|bits u|bits f|k n|t [x|]|[e|]|t xs|t xs
                                  |kt et m|fs|name u] eqn:Hu;
      cbv beta iota zeta;
      try apply Hrefl; try (apply H; exact W).
    + apply Hchecked. apply wellKeyed_underlying in W. rewrite Hu in W.
      inversion W; assumption.
    + destruct (isStringKind kt); [apply H; exact W | apply Hrefl].
  - intros ps H. exists ps. split; [exact H | apply agree_refl].
Qed.

(** C7, as the spec states it, fails where two leaves of a value render
    to the same key: the two calls below encode the same map and differ
    in nothing but the order in which the run time lists its keys, and
    their outputs differ. *)
Lemma Marshal_colliding_keys_depends_on_map_order :
  fairOrder plain /\ fairOrder plainReversed /\ sameCodecs plain plainReversed /\
  Marshal plain (Some collidingKeys) = Ok "a%5Bb%5D=1&a%5Bb%5D=2" /\
  Marshal plainReversed (Some collidingKeys) = Ok "a%5Bb%5D=2&a%5Bb%5D=1".
Proof.
  split; [exact fairOrder_plain|]. split; [exact fairOrder_plainReversed|].
  split; [repeat split|]. split; vm_compute; reflexivity.
Qed.

(** C7 (amended).  The output of an encode lists the pairs of the
    traversal in ascending order of their rendered paths.  Two encodes
    of the same value, whatever the order in which each iterates over
    the maps, return the same bytes as soon as different paths of the
    value render to different keys. *)
Theorem Marshal_sorted_and_deterministic_without_collisions :
  forall E1 v s,
    Marshal E1 v = Ok s ->
    (exists ps pairs,
        marshalLeaves E1 v = Ok ps /\
        s = Url.joinAmp (map escapePair pairs) /\
        sortedByKey pairs /\
        Permutation pairs (map rendered ps)) /\
    (forall E2 ps,
        fairOrder E1 -> fairOrder E2 -> sameCodecs E1 E2 ->
        (forall rv, v = Some rv -> wellKeyed rv) ->
        marshalLeaves E1 v = Ok ps ->
        renderInjective ps ->
        Marshal E2 v = Ok s).
Proof.
  intros E1 v s HM. rewrite Marshal_leaves in HM.
  destruct (marshalLeaves E1 v) as [ps1| |] eqn:HL; simpl in HM;
    inversion HM; subst. split.
  - destruct (encodeLeaves_sorted_pairs ps1) as [pairs [H1 [H2 H3]]].
    exists ps1, pairs. auto.
  - intros E2 ps F1 F2 S W Hps Hinj. inversion Hps; subst ps1.
    destruct (marshalLeaves_sameLeaves F1 F2 S W HL) as [ps2 [H2 Hag]].
    rewrite Marshal_leaves, H2. simpl. f_equal. symmetry.
    apply encodeLeaves_keyed, agree_keyed; assumption.
Qed.

Lemma wellKeyed_twoEntries : wellKeyed twoEntries.
Proof.
  apply wk_map.
  - repeat constructor; simpl; intuition discriminate.
  - repeat constructor.
Qed.

Lemma Marshal_sorted_and_deterministic_without_collisions_witness :
  Marshal plainReversed (Some twoEntries) = Ok "a=1&b=2".
Proof.
  assert (HM : Marshal plain (Some twoEntries) = Ok "a=1&b=2")
    by (vm_compute; reflexivity).
  refine (proj2 (Marshal_sorted_and_deterministic_without_collisions
                   plain (Some twoEntries) HM)
            plainReversed [(["b"], "2"); (["a"], "1")]
            fairOrder_plain fairOrder_plainReversed _ _ _ _).
  - repeat split.
  - intros rv H. inversion H; subst. exact wellKeyed_twoEntries.
  - vm_compute. reflexivity.
  - intros a b [<- | [<- | []]] [<- | [<- | []]] H;
      try reflexivity; vm_compute in H; discriminate.
Defined.

(** ** Dynamic values *)

Definition dynOrBoxed (v : value) : Prop :=
  dynTree v \/ exists t, v = boxed t /\ dynTree t.

Lemma dleaves_prefixed : forall v path, prefixed path (dleaves path v).
Proof.
  apply (@value_induction (fun v => forall path, prefixed path (dleaves path v)));
    try (repeat intro; cbn [dleaves In] in *; contradiction).
  - intros s path x [<- | []]. exists []. symmetry. apply app_nil_r.
  - intros x IH path. exact (IH path).
  - intros t xs IH path x Hin. cbn [dleaves] in Hin.
    apply in_flat_map in Hin. destruct Hin as [y [Hy Hx]].
    rewrite Forall_forall in IH.
    eapply prefixed_weaken; [apply (IH y Hy) | exact Hx].
  - intros kt et es IH path x Hin. cbn [dleaves] in Hin.
    apply in_flat_map in Hin. destruct Hin as [kv [Hkv Hx]].
    rewrite Forall_forall in IH.
    eapply prefixed_weaken; [apply (IH kv Hkv) | exact Hx].
Qed.

Lemma dynOrBoxed_has_leaves :
  forall v, dynOrBoxed v -> forall path, dleaves path v <> [].
Proof.
  apply (@value_induction
           (fun v => dynOrBoxed v -> forall path, dleaves path v <> []));
    try (intros; match goal with
                 | H : dynOrBoxed _ |- _ =>
                     destruct H as [H | [? [H _]]]; inversion H
                 end; fail).
  - intros s _ path. discriminate.
  - intros x IH [H | [t [Heq Ht]]]; [inversion H|].
    inversion Heq; subst. intros path. cbn [dleaves]. apply IH. left. exact Ht.
  - intros t xs IH [H | [t' [Heq _]]]; [|discriminate Heq].
    inversion H as [|ys Hne Hall|]; subst. intros path. cbn [dleaves].
    destruct xs as [|x xs]; [contradiction|].
    inversion IH as [|? ? IHx _]; subst. inversion Hall as [|? ? Hx _]; subst.
    simpl. intros Happ. apply app_eq_nil in Happ. destruct Happ as [Happ _].
    revert Happ. apply IHx. right. exact Hx.
  - intros kt et es IH [H | [t' [Heq _]]]; [|discriminate Heq].
    inversion H as [| |es' Hne Hnd Hall]; subst. intros path. cbn [dleaves].
    destruct es as [|[k x] es]; [contradiction|].
    inversion IH as [|? ? IHx _]; subst. inversion Hall as [|? ? Hx _]; subst.
    simpl. intros Happ. apply app_eq_nil in Happ. destruct Happ as [Happ _].
    revert Happ. apply IHx. right. exact Hx.
Qed.

Lemma dynTree_has_leaves t path : dynTree t -> dleaves path t <> [].
Proof. intros H. apply dynOrBoxed_has_leaves. left. exact H. Qed.

(** ** Stores into the entries of a map *)

Lemma store_present es k v0 v :
  lookup es k = Some v0 ->
  exists before after,
    es = before ++ (k, v0) :: after /\
    store es k v = before ++ (k, v) :: after /\
    ~ In k (map fst before).
Proof.
  induction es as [|[k1 v1] es IH]; simpl; [discriminate|].
  destruct (String.eqb k1 k) eqn:Hk.
  - apply String.eqb_eq in Hk. subst k1. intros H; inversion H; subst.
    exists [], es. repeat split. intros [].
  - intros H. destruct (IH H) as [before [after [He [Hs Hn]]]].
    exists ((k1, v1) :: before), after. simpl. rewrite He at 1. rewrite Hs.
    repeat split. intros [Heq | Hin]; [|contradiction].
    subst. rewrite String.eqb_refl in Hk. discriminate.
Qed.

Lemma store_absent es k v :
  lookup es k = None -> store es k v = es ++ [(k, v)] /\ ~ In k (map fst es).
Proof.
  induction es as [|[k1 v1] es IH]; simpl.
  - intros _. split; [reflexivity | intros []].
  - destruct (String.eqb k1 k) eqn:Hk; [discriminate|].
    intros H. destruct (IH H) as [Hs Hn]. rewrite Hs. split; [reflexivity|].
    intros [Heq | Hin]; [|contradiction].
    subst. rewrite String.eqb_refl in Hk. discriminate.
Qed.

Lemma keys_store es k v :
  map fst (store es k v)
  = match lookup es k with
    | Some _ => map fst es
    | None => map fst es ++ [k]
    end.
Proof.
  induction es as [|[k1 v1] es IH]; simpl; [reflexivity|].
  destruct (String.eqb k1 k) eqn:Hk; simpl; [reflexivity|].
  rewrite IH. destruct (lookup es k); reflexivity.
Qed.

Lemma lookup_In es k v : lookup es k = Some v -> In (k, v) es.
Proof.
  induction es as [|[k1 v1] es IH]; simpl; [discriminate|].
  destruct (String.eqb k1 k) eqn:Hk.
  - apply String.eqb_eq in Hk. intros H; inversion H; subst. auto.
  - auto.
Qed.

Lemma In_store es k v kv :
  In kv (store es k v) -> kv = (k, v) \/ In kv es.
Proof.
  induction es as [|[k1 v1] es IH]; simpl.
  - intros [H | []]; auto.
  - destruct (String.eqb k1 k) eqn:Hk; simpl.
    + apply String.eqb_eq in Hk. subst. intros [H | H]; auto.
    + intros [H | H]; auto. destruct (IH H); auto.
Qed.

Lemma dynEntries_store es k t :
  dynEntries es -> dynTree t -> dynEntries (store es k (boxed t)).
Proof.
  intros [Hnd Hall] Ht. split.
  - rewrite keys_store. destruct (lookup es k) eqn:Hl; [exact Hnd|].
    apply store_absent with (v := boxed t) in Hl. destruct Hl as [_ Hn].
    apply NoDup_app_remove_l with (l := []). simpl.
    rewrite <- (app_nil_l (map fst es ++ [k])).
    apply Permutation_NoDup with (l := k :: map fst es).
    + apply Permutation_cons_append.
    + constructor; assumption.
  - apply Forall_forall. intros kv Hin. apply In_store in Hin.
    destruct Hin as [-> | Hin]; [exists t; auto|].
    rewrite Forall_forall in Hall. apply Hall, Hin.
Qed.

Lemma dynEntries_lookup es k :
  dynEntries es ->
  dynPrior (lookup es k) /\
  (forall v, lookup es k = Some v -> exists t, v = boxed t /\ dynTree t).
Proof.
  intros [_ Hall]. rewrite Forall_forall in Hall.
  destruct (lookup es k) as [v|] eqn:Hl.
  - apply lookup_In in Hl. destruct (Hall _ Hl) as [t [Hv Ht]].
    simpl in Hv. subst. split; [apply prior_boxed, Ht|].
    intros v Hv. inversion Hv; subst. eauto.
  - split; [constructor | discriminate].
Qed.

(** ** One assignment into a dynamic value *)

Lemma under_nil_of_prefixed prefix k p ps :
  prefixed (prefix ++ [k]) ps ->
  nth (List.length prefix) p "" <> k ->
  under p ps = [].
Proof. apply under_other_key. Qed.

(** The leaves of the entries with other keys are not under a path that
    goes through the key [k]. *)
Lemma under_other_entries prefix k p (es : entries) :
  ~ In k (map fst es) ->
  nth (List.length prefix) p "" = k ->
  under p (flat_map (entryLeaves prefix) es) = [].
Proof.
  intros Hnot Hk. rewrite under_flat_map.
  induction es as [|[k1 v1] es IH]; simpl; [reflexivity|].
  rewrite IH by (intros H; apply Hnot; simpl; auto).
  rewrite app_nil_r. eapply under_other_key.
  - apply dleaves_prefixed.
  - simpl. intros Heq. apply Hnot. simpl. left. congruence.
Qed.

Lemma NoDup_middle (k : string) (before after : list string) :
  NoDup (before ++ k :: after) -> ~ In k before /\ ~ In k after.
Proof.
  intros H. apply NoDup_remove_2 in H. split; intros Hin; apply H;
    apply in_or_app; auto.
Qed.

Lemma map_update prefix es k e :
  dynEntries es ->
  List.length (flat_map (entryLeaves prefix) (store es k (boxed e)))
  + List.length (priorLeaves (prefix ++ [k]) (lookup es k))
  = List.length (flat_map (entryLeaves prefix) es)
    + List.length (dleaves (prefix ++ [k]) e) /\
  (forall new,
      prefixed (prefix ++ [k]) [new] ->
      agree (dleaves (prefix ++ [k]) e)
            (priorLeaves (prefix ++ [k]) (lookup es k) ++ [new]) ->
      agree (flat_map (entryLeaves prefix) (store es k (boxed e)))
            (flat_map (entryLeaves prefix) es ++ [new])).
Proof.
  intros [Hnd _].
  destruct (lookup es k) as [v0|] eqn:Hl.
  - destruct (store_present es k (boxed e) Hl)
      as [before [after [Hes [Hst Hnb]]]].
    rewrite Hst, Hes. rewrite !flat_map_app. cbn [flat_map].
    change (entryLeaves prefix (k, boxed e)) with (dleaves (prefix ++ [k]) e).
    change (entryLeaves prefix (k, v0)) with (dleaves (prefix ++ [k]) v0).
    cbn [priorLeaves].
    rewrite Hes, map_app in Hnd. cbn [map fst] in Hnd.
    apply NoDup_middle in Hnd. destruct Hnd as [_ Hna].
    split.
    + rewrite !length_app. lia.
    + intros new Hnew Hag p.
      rewrite !under_app.
      destruct (string_dec (nth (List.length prefix) p "") k) as [Hk | Hk].
      * rewrite !(@under_other_entries prefix k p _ Hnb Hk).
        rewrite !(@under_other_entries prefix k p _ Hna Hk).
        simpl. rewrite !app_nil_r. rewrite Hag, under_app. reflexivity.
      * rewrite (@under_other_key prefix k p _ (dleaves_prefixed e (prefix ++ [k])) Hk).
        rewrite (@under_other_key prefix k p _ (dleaves_prefixed v0 (prefix ++ [k])) Hk).
        rewrite (@under_other_key prefix k p _ Hnew Hk).
        simpl. rewrite app_nil_r. reflexivity.
  - destruct (store_absent es k (boxed e) Hl) as [Hst _].
    rewrite Hst, flat_map_app. cbn [flat_map priorLeaves].
    change (entryLeaves prefix (k, boxed e)) with (dleaves (prefix ++ [k]) e).
    rewrite app_nil_r. split.
    + rewrite !length_app. simpl. lia.
    + intros new _ Hag. apply agree_app; [apply agree_refl | exact Hag].
Qed.

Lemma priorLeaves_valueOf prefix es k :
  dynEntries es ->
  priorLeaves prefix (valueOf (lookup es k)) = priorLeaves prefix (lookup es k)
  /\ dynPrior (valueOf (lookup es k)).
Proof.
  intros H. destruct (dynEntries_lookup k H) as [_ Hb].
  destruct (lookup es k) as [v|]; [|split; [reflexivity | constructor]].
  destruct (Hb v eq_refl) as [t [-> Ht]]. split; [reflexivity|].
  constructor. exact Ht.
Qed.

(** What [inferSliceValue] does to a dynamic slot when it succeeds. *)
Lemma inferSliceValue_dyn elem old new :
  dynPrior old ->
  inferSliceValue elem old = Ok new ->
  exists xs e,
    elem = Ok e /\
    new = VSlice TInterface (xs ++ [boxed e]) /\
    Forall (fun x => exists t, x = boxed t /\ dynTree t) xs /\
    forall prefix,
      priorLeaves prefix old = flat_map (fun x => dleaves (prefix ++ [""]) x) xs.
Proof.
  intros Hold. unfold inferSliceValue.
  assert (Hfin : forall xs,
             Forall (fun x => exists t, x = boxed t /\ dynTree t) xs ->
             (forall prefix, priorLeaves prefix old
                             = flat_map (fun x => dleaves (prefix ++ [""]) x) xs) ->
             (e <- elem ;; Ok (VSlice TInterface (xs ++ [boxed e]))) = Ok new ->
             exists xs e,
               elem = Ok e /\
               new = VSlice TInterface (xs ++ [boxed e]) /\
               Forall (fun x => exists t, x = boxed t /\ dynTree t) xs /\
               forall prefix,
                 priorLeaves prefix old
                 = flat_map (fun x => dleaves (prefix ++ [""]) x) xs).
  { intros xs Hxs Hpl H. destruct elem as [e| |]; simpl in H; inversion H; subst.
    exists xs, e. auto. }
  inversion Hold as [|t Ht|t Ht]; subst.
  - simpl. intros H. apply (Hfin []); [constructor | reflexivity | exact H].
  - inversion Ht as [s|xs Hne Hall|es Hne Hnd Hall]; subst; simpl.
    + discriminate.
    + destruct xs as [|x xs]; [contradiction|]. simpl. intros H.
      apply (Hfin (x :: xs)); [exact Hall | reflexivity | exact H].
    + discriminate.
  - inversion Ht as [s|xs Hne Hall|es Hne Hnd Hall]; subst; simpl.
    + discriminate.
    + intros H. apply (Hfin xs); [exact Hall | reflexivity | exact H].
    + discriminate.
Qed.

(** What [inferMapValue] does to a dynamic slot when it succeeds. *)
Lemma inferMapValue_dyn rec old seg new :
  dynPrior old ->
  inferMapValue rec old seg = Ok new ->
  exists es e,
    dynEntries es /\
    rec (valueOf (lookup es (Key seg))) = Ok e /\
    new = VMap TString TInterface (Some (store es (Key seg) (boxed e))) /\
    forall prefix, priorLeaves prefix old = flat_map (entryLeaves prefix) es.
Proof.
  intros Hold. unfold inferMapValue.
  assert (Hfin : forall es,
             dynEntries es ->
             (forall prefix, priorLeaves prefix old
                             = flat_map (entryLeaves prefix) es) ->
             (e <- rec (valueOf (lookup es (Key seg))) ;;
              Ok (VMap TString TInterface
                    (Some (store es (Key seg) (VInterface (Some e)))))) = Ok new ->
             exists es e,
               dynEntries es /\
               rec (valueOf (lookup es (Key seg))) = Ok e /\
               new = VMap TString TInterface (Some (store es (Key seg) (boxed e))) /\
               forall prefix,
                 priorLeaves prefix old = flat_map (entryLeaves prefix) es).
  { intros es Hes Hpl H.
    destruct (rec (valueOf (lookup es (Key seg)))) as [e| |] eqn:Hr;
      simpl in H; inversion H; subst.
    exists es, e. auto. }
  inversion Hold as [|t Ht|t Ht]; subst.
  - simpl. intros H.
    apply (Hfin []); [split; constructor | reflexivity | exact H].
  - inversion Ht as [s|xs Hne Hall|es Hne Hnd Hall]; subst; simpl.
    + discriminate.
    + destruct xs as [|x xs]; [contradiction|]. simpl. discriminate.
    + intros H. apply (Hfin es); [split; assumption | reflexivity | exact H].
  - inversion Ht as [s|xs Hne Hall|es Hne Hnd Hall]; subst; simpl.
    + discriminate.
    + discriminate.
    + intros H. apply (Hfin es); [split; assumption | reflexivity | exact H].
Qed.

Lemma store_nonempty (es : entries) k v : store es k v <> [].
Proof.
  induction es as [|[k1 v1] es IH]; simpl; [discriminate|].
  destruct (String.eqb k1 k); discriminate.
Qed.

(** One inference into a dynamic slot: the result is a dynamic value with
    at most one leaf more than before, and when no leaf was lost, its
    leaves are the old ones and the new one, path by path. *)
Lemma inferInterfaceValue_step : forall path,
  wfPath path ->
  forall old val new prefix,
    dynPrior old ->
    inferInterfaceValue old path val = Ok new ->
    dynTree new /\
    List.length (dleaves prefix new) <= List.length (priorLeaves prefix old) + 1 /\
    (List.length (dleaves prefix new) = List.length (priorLeaves prefix old) + 1 ->
     agree (dleaves prefix new)
           (priorLeaves prefix old ++ [(prefix ++ map Key path, val)])).
Proof.
  induction path as [|seg rest IH]; intros Hwf old val new prefix Hold Hinf.
  - simpl in Hinf. inversion Hinf; subst. cbn [dleaves List.length map].
    rewrite app_nil_r. split; [constructor|]. split; [lia|].
    intros Hlen. destruct (priorLeaves prefix old); [|simpl in Hlen; lia].
    apply agree_refl.
  - inversion Hwf as [|? ? Hseg Hrest]; subst.
    cbn [inferInterfaceValue] in Hinf.
    destruct (Index seg) eqn:Hidx.
    + destruct (@inferSliceValue_dyn _ _ _ Hold Hinf) as [xs [e [He [-> [Hxs Hpl]]]]].
      destruct (IH Hrest None val e (prefix ++ [""]) prior_none He)
        as [Hte [Hle Hag]].
      cbn [priorLeaves List.length] in Hle, Hag.
      pose proof (@dynTree_has_leaves e (prefix ++ [""]) Hte) as Hne.
      assert (Hone : List.length (dleaves (prefix ++ [""]) e) = 0 + 1).
      { destruct (dleaves (prefix ++ [""]) e); [contradiction | simpl in *; lia]. }
      specialize (Hag Hone). rewrite Hpl.
      cbn [dleaves]. rewrite flat_map_app. cbn [flat_map]. rewrite app_nil_r.
      change (dleaves (prefix ++ [""]) (boxed e))
        with (dleaves (prefix ++ [""]) e).
      split; [|split].
      * constructor.
        -- intros Hnil. apply app_eq_nil in Hnil. destruct Hnil; discriminate.
        -- apply Forall_app. split; [exact Hxs|]. constructor; [|constructor].
           exists e. auto.
      * rewrite !length_app. lia.
      * intros _. apply agree_app; [apply agree_refl|].
        cbn [map]. rewrite (Hseg eq_refl).
        rewrite <- app_assoc in Hag. exact Hag.
    + destruct (@inferMapValue_dyn _ _ _ _ Hold Hinf) as [es [e [Hes [He [-> Hpl]]]]].
      destruct (@priorLeaves_valueOf (prefix ++ [Key seg]) es (Key seg) Hes)
        as [Hsame Hprior].
      destruct (IH Hrest _ val e (prefix ++ [Key seg]) Hprior He)
        as [Hte [Hle Hag]].
      rewrite Hsame in Hle, Hag.
      destruct (@map_update prefix es (Key seg) e Hes) as [Hcount Hupd].
      rewrite Hpl.
      change (dleaves prefix
                (VMap TString TInterface (Some (store es (Key seg) (boxed e)))))
        with (flat_map (entryLeaves prefix) (store es (Key seg) (boxed e))).
      split; [|split].
      * destruct (@dynEntries_store es (Key seg) e Hes Hte) as [Hnd Hall].
        constructor; [apply store_nonempty | exact Hnd | exact Hall].
      * lia.
      * intros Hlen. apply Hupd.
        -- intros x [<- | []]. exists (map Key rest).
           cbn [fst map]. rewrite <- app_assoc. reflexivity.
        -- cbn [map]. rewrite <- app_assoc in Hag. apply Hag. lia.
Qed.

(** ** The paths [parseKey] returns *)

Lemma take_nonempty i key :
  0 < i -> i < String.length key -> Str.take i key <> "".
Proof.
  destruct i as [|i]; [lia|]. destruct key; simpl; [lia | discriminate].
Qed.

Lemma parseKey_loop_segments key path :
  Forall segmentOk path ->
  forall p, parseKey_loop key path = Ok p -> Forall segmentOk p.
Proof.
  apply (parseKey_loop_elim
           (fun key path r =>
              Forall segmentOk path ->
              forall p, r = Ok p -> Forall segmentOk p)); clear key path.
  - intros key path _ Hpath p H. inversion H; subst. exact Hpath.
  - intros key path p e _ Hne Hpath q H. inversion H; subst; clear H.
    unfold parseKey_body in e.
    destruct (Str.IndexByte key lbracket) as [i|] eqn:Hi.
    + destruct (Str.IndexByte (Str.drop (i + 1) key) rbracket); discriminate.
    + inversion e; subst. apply Forall_app. split; [exact Hpath|].
      constructor; [|constructor]. unfold segmentOk. simpl.
      destruct key; [discriminate | discriminate].
  - intros key path k p e IH _ Hne Hpath q H. apply IH; [|exact H].
    unfold parseKey_body in e.
    destruct (Str.IndexByte key lbracket) as [i|] eqn:Hi; [|discriminate].
    destruct (Str.IndexByte (Str.drop (i + 1) key) rbracket) as [j|] eqn:Hj;
      [|discriminate].
    inversion e; subst; clear e.
    assert (Hfirst : Forall segmentOk
                       (if Nat.ltb 0 i then path ++ [named (Str.take i key)]
                        else path)).
    { destruct (Nat.ltb 0 i) eqn:Hlt; [|exact Hpath].
      apply Nat.ltb_lt in Hlt. apply IndexByte_lt in Hi.
      apply Forall_app. split; [exact Hpath|]. constructor; [|constructor].
      unfold segmentOk. simpl. apply take_nonempty; assumption. }
    destruct (Str.isEmpty (Str.take j (Str.drop (i + 1) key))) eqn:Hpart;
      apply Forall_app; (split; [exact Hfirst|]);
      (constructor; [|constructor]); unfold segmentOk; simpl; [reflexivity|].
    intros Heq. rewrite Heq in Hpart. discriminate.
  - intros key path e _ _ _ p H. discriminate.
Qed.

Lemma segmentOk_wfPath path : Forall segmentOk path -> wfPath path.
Proof.
  unfold wfPath. apply Forall_impl. intros seg H Hidx.
  unfold segmentOk in H. rewrite Hidx in H. exact H.
Qed.

Lemma parseKey_wfPath key path : parseKey key = Ok path -> wfPath path.
Proof.
  intros H. apply segmentOk_wfPath.
  exact (@parseKey_loop_segments key [] (Forall_nil _) path H).
Qed.

Lemma keyPath_ok key path : parseKey key = Ok path -> keyPath key = map Key path.
Proof. intros H. unfold keyPath. rewrite H. reflexivity. Qed.

(** ** Decoding into a dynamic map, assignment by assignment *)

Section DynamicDecode.

Variable E : Env.
Hypothesis methods : goMethods E.

Lemma assign_dynamicMap_empty_path m val :
  assign E true (dynamicMap m) [] val = (dynamicMap m, Err errUnsupported).
Proof.
  cbn [assign]. unfold deref, dynamicMap. cbn [underlying].
  rewrite assignLeaf_methodless by (exact methods || reflexivity).
  reflexivity.
Qed.

Lemma assign_dynamicMap_segment m seg rest val :
  assign E true (dynamicMap m) (seg :: rest) val
  = assignMapInterface (dynamicMap m) TString TInterface (topEntries m)
      seg rest val.
Proof. destruct m; reflexivity. Qed.

(** One assignment that succeeds leaves a dynamic map with at most one
    leaf more, and when none was lost, with the new leaf after the old
    ones, path by path. *)
Lemma assign_dynamic_step m path val t' :
  dynEntries (topEntries m) ->
  wfPath path ->
  assign E true (dynamicMap m) path val = (t', Ok tt) ->
  exists es',
    t' = dynamicMap (Some es') /\ dynEntries es' /\
    List.length (dleaves [] t') <= List.length (dleaves [] (dynamicMap m)) + 1 /\
    (List.length (dleaves [] t') = List.length (dleaves [] (dynamicMap m)) + 1 ->
     agree (dleaves [] t') (dleaves [] (dynamicMap m) ++ [(map Key path, val)])).
Proof.
  intros Hes Hwf Hassign. destruct path as [|seg rest].
  - rewrite assign_dynamicMap_empty_path in Hassign. discriminate.
  - rewrite assign_dynamicMap_segment in Hassign.
    unfold assignMapInterface in Hassign.
    inversion Hwf as [|? ? _ Hrest]; subst.
    destruct (inferInterfaceValue (lookup (topEntries m) (Key seg)) rest val)
      as [new| |] eqn:Hinf; try discriminate.
    inversion Hassign; subst; clear Hassign.
    destruct (@dynEntries_lookup (topEntries m) (Key seg) Hes) as [Hprior _].
    destruct (@inferInterfaceValue_step rest Hrest _ val new ([] ++ [Key seg])
                Hprior Hinf) as [Hnew [Hle Hag]].
    destruct (@map_update [] (topEntries m) (Key seg) new Hes) as [Hcount Hupd].
    exists (store (topEntries m) (Key seg) (boxed new)).
    assert (Hold : dleaves [] (dynamicMap m)
                   = flat_map (entryLeaves []) (topEntries m))
      by (destruct m; reflexivity).
    rewrite Hold.
    change (dleaves [] (VMap TString TInterface
                          (Some (store (topEntries m) (Key seg)
                                   (VInterface (Some new))))))
      with (flat_map (entryLeaves [])
              (store (topEntries m) (Key seg) (boxed new))).
    split; [reflexivity|]. split; [apply dynEntries_store; assumption|].
    split; [lia|].
    intros Hlen. apply Hupd.
    + intros x [<- | []]. exists (map Key rest). reflexivity.
    + apply Hag. lia.
Qed.

(** The values of one key, assigned in order. *)
Lemma assignAll_dynamic path : wfPath path -> forall vals m t',
  dynEntries (topEntries m) ->
  assignAll E (dynamicMap m) path vals = (t', Ok tt) ->
  exists m',
    t' = dynamicMap m' /\ dynEntries (topEntries m') /\
    List.length (dleaves [] t')
    <= List.length (dleaves [] (dynamicMap m)) + List.length vals /\
    (List.length (dleaves [] t')
     = List.length (dleaves [] (dynamicMap m)) + List.length vals ->
     agree (dleaves [] t')
           (dleaves [] (dynamicMap m) ++ map (fun x => (map Key path, x)) vals)).
Proof.
  intros Hwf. induction vals as [|val vals IH]; intros m t' Hes Hall.
  - simpl in Hall. inversion Hall; subst. exists m.
    cbn [map List.length]. rewrite app_nil_r.
    split; [reflexivity|]. split; [exact Hes|]. split; [lia|].
    intros _. apply agree_refl.
  - cbn [assignAll] in Hall.
    destruct (assign E true (dynamicMap m) path val) as [v1 r1] eqn:Hone.
    destruct r1 as [[]| |]; try (inversion Hall; fail).
    destruct (@assign_dynamic_step m path val v1 Hes Hwf Hone)
      as [es1 [-> [Hes1 [Hle1 Hag1]]]].
    destruct (IH (Some es1) t' Hes1 Hall) as [m' [-> [Hes' [Hle Hag]]]].
    exists m'. cbn [map List.length].
    split; [reflexivity|]. split; [exact Hes'|]. split; [lia|].
    intros Hlen.
    eapply agree_trans; [apply Hag; lia|].
    change (dleaves [] (dynamicMap m) ++
            (map Key path, val) :: map (fun x => (map Key path, x)) vals)
      with (dleaves [] (dynamicMap m) ++
            [(map Key path, val)] ++ map (fun x => (map Key path, x)) vals).
    rewrite app_assoc. apply agree_app; [apply Hag1; lia | apply agree_refl].
Qed.

Lemma inputLeaves_cons rawKey vals kvs :
  inputLeaves ((rawKey, vals) :: kvs)
  = map (fun x => (keyPath rawKey, x)) vals ++ inputLeaves kvs.
Proof. reflexivity. Qed.

(** The keys of the input, assigned in the order the run time yields
    them. *)
Lemma unmarshalKeys_dynamic : forall kvs m t',
  dynEntries (topEntries m) ->
  unmarshalKeys E (dynamicMap m) kvs = (t', Ok tt) ->
  exists m',
    t' = dynamicMap m' /\ dynEntries (topEntries m') /\
    List.length (dleaves [] t')
    <= List.length (dleaves [] (dynamicMap m)) + List.length (inputLeaves kvs) /\
    (List.length (dleaves [] t')
     = List.length (dleaves [] (dynamicMap m)) + List.length (inputLeaves kvs) ->
     agree (dleaves [] t') (dleaves [] (dynamicMap m) ++ inputLeaves kvs)).
Proof.
  induction kvs as [|[rawKey vals] kvs IH]; intros m t' Hes Hall.
  - simpl in Hall. inversion Hall; subst. exists m.
    cbn [inputLeaves flat_map List.length]. rewrite app_nil_r.
    split; [reflexivity|]. split; [exact Hes|]. split; [lia|].
    intros _. apply agree_refl.
  - cbn [unmarshalKeys] in Hall.
    destruct (parseKey rawKey) as [path| |] eqn:Hkey; try discriminate.
    destruct (assignAll E (dynamicMap m) path vals) as [v1 r1] eqn:Hone.
    destruct r1 as [[]| |]; try discriminate.
    destruct (@assignAll_dynamic path (@parseKey_wfPath rawKey path Hkey) vals m v1 Hes Hone)
      as [m1 [-> [Hes1 [Hle1 Hag1]]]].
    destruct (IH m1 t' Hes1 Hall) as [m' [-> [Hes' [Hle Hag]]]].
    exists m'. rewrite inputLeaves_cons, (@keyPath_ok rawKey path Hkey).
    rewrite length_app, length_map. unfold leaf in *.
    split; [reflexivity|]. split; [exact Hes'|]. split; [lia|].
    intros Hlen.
    eapply agree_trans; [apply Hag; lia|].
    rewrite app_assoc. apply agree_app; [apply Hag1; lia | apply agree_refl].
Qed.

End DynamicDecode.

(** ** The encoder on a dynamic value *)

Lemma concatResults_all_ok {A B} (f : A -> result (list B)) (g : A -> list B) l :
  (forall a, In a l -> f a = Ok (g a)) ->
  concatResults (map f l) = Ok (flat_map g l).
Proof.
  induction l as [|a l IH]; intros H; simpl; [reflexivity|].
  rewrite (H a (or_introl eq_refl)). simpl.
  rewrite IH by (intros b Hb; apply H; right; exact Hb). reflexivity.
Qed.

Lemma leavesOfKey_In E path es kv :
  NoDup (map fst es) -> In kv es ->
  leavesOfKey E path es (fst kv)
  = if isNilInterface (snd kv) then Ok []
    else leaves E false false (path ++ [fst kv]) (snd kv).
Proof.
  unfold leavesOfKey.
  induction es as [|[k0 v0] es IH]; intros Hnd Hin; [contradiction|].
  inversion Hnd as [|? ? Hnot Hnd']; subst. cbn [map find fst snd].
  destruct Hin as [<- | Hin].
  - cbn [fst snd]. rewrite String.eqb_refl.
    destruct (isNilInterface v0); reflexivity.
  - destruct (String.eqb k0 (fst kv)) eqn:Hk.
    + apply String.eqb_eq in Hk. subst k0. exfalso. apply Hnot.
      apply in_map. exact Hin.
    + apply IH; assumption.
Qed.

Lemma asMarshaler_methodless E addr v :
  goMethods E -> methodless v = true -> asMarshaler E addr v = None.
Proof.
  intros HE Hv. destruct (HE v Hv) as [_ [_ [Hp Hv']]].
  unfold asMarshaler. rewrite Hp, Hv'. destruct addr; reflexivity.
Qed.

Lemma goMethods_inListOrder E : goMethods E -> goMethods (inListOrder E).
Proof. intros H v Hv. exact (H v Hv). Qed.

Lemma fairOrder_inListOrder E : fairOrder (inListOrder E).
Proof. split; intros; apply Permutation_refl. Qed.

Lemma sameCodecs_inListOrder E : sameCodecs (inListOrder E) E.
Proof. repeat split. Qed.

Lemma dynTree_methodless t : dynTree t -> methodless t = true.
Proof. intros H. inversion H; reflexivity. Qed.

Lemma renderPath_nonempty path : path <> [] -> exists k, renderPath path = Ok k.
Proof. destruct path; [contradiction | intros _; simpl; eauto]. Qed.

Section EncodeDynamic.

Variable E : Env.
Hypothesis methods : goMethods E.

Let E' := inListOrder E.

Lemma leavesMap_dynamic path es :
  NoDup (map fst es) ->
  Forall (fun kv => exists t, snd kv = boxed t /\ dynTree t) es ->
  (forall kv, In kv es ->
     leaves E' false false (path ++ [fst kv]) (snd kv)
     = Ok (dleaves (path ++ [fst kv]) (snd kv))) ->
  leavesMap E' path es = Ok (flat_map (entryLeaves path) es).
Proof.
  intros Hnd Hall Hrec. unfold leavesMap.
  change (mapKeys E' (map fst es)) with (map fst es).
  rewrite map_map. apply concatResults_all_ok. intros kv Hin.
  rewrite leavesOfKey_In by assumption.
  rewrite Forall_forall in Hall. destruct (Hall kv Hin) as [t [Hkv _]].
  rewrite Hkv at 1. cbn [isNilInterface boxed underlying].
  apply Hrec. exact Hin.
Qed.

Lemma leavesSlice_dynamic addr path xs :
  Forall (fun x => exists t, x = boxed t /\ dynTree t) xs ->
  (forall x, In x xs ->
     leaves E' addr false (path ++ [""]) x = Ok (dleaves (path ++ [""]) x)) ->
  leavesSlice E' addr path xs
  = Ok (flat_map (fun x => dleaves (path ++ [""]) x) xs).
Proof.
  intros Hall Hrec. unfold leavesSlice.
  apply concatResults_all_ok. intros x Hin.
  rewrite Forall_forall in Hall. destruct (Hall x Hin) as [t [Hx _]].
  rewrite Hx at 1. cbn [isNilInterface boxed underlying].
  apply Hrec. exact Hin.
Qed.

Lemma leaves_methodless addr path v :
  methodless v = true ->
  (forall t p, underlying v <> VPointer t p) ->
  leaves E' addr false path v = leavesKind E' addr path v.
Proof.
  intros Hv Hnp. rewrite leaves_eq.
  assert (Hd : leavesDereferenced E' addr false path v = leavesKind E' addr path v).
  { unfold leavesDereferenced.
    rewrite asMarshaler_methodless
      by (apply goMethods_inListOrder, methods || exact Hv).
    reflexivity. }
  destruct (underlying v) eqn:Hu; try exact Hd.
  exfalso. eapply Hnp. reflexivity.
Qed.

(** On a dynamic value reached by a path that is not empty, the
    traversal in list order yields the leaves in the order of the
    lists. *)
Lemma leaves_dynamic :
  forall v, dynOrBoxed v ->
  forall addr path, path <> [] -> leaves E' addr false path v = Ok (dleaves path v).
Proof.
  apply (@value_induction
           (fun v => dynOrBoxed v ->
                     forall addr path, path <> [] ->
                       leaves E' addr false path v = Ok (dleaves path v)));
    try (intros; match goal with
                 | H : dynOrBoxed _ |- _ =>
                     destruct H as [H | [? [H _]]]; inversion H
                 end; fail).
  - intros s _ addr path Hpath.
    rewrite leaves_methodless by (reflexivity || discriminate).
    unfold leavesKind. cbn [underlying].
    destruct (renderPath_nonempty Hpath) as [k ->]. reflexivity.
  - intros x IH [H | [t [Heq Ht]]] addr path Hpath; [inversion H|].
    inversion Heq; subst.
    rewrite leaves_methodless
      by (apply (dynTree_methodless Ht) || discriminate).
    unfold leavesKind. cbn [underlying dleaves].
    apply IH; [left; exact Ht | exact Hpath].
  - intros t xs IH [H | [t' [Heq _]]] addr path Hpath; [|discriminate Heq].
    inversion H as [|ys Hne Hall|]; subst.
    rewrite leaves_methodless by (reflexivity || discriminate).
    unfold leavesKind. cbn [underlying dleaves].
    apply leavesSlice_dynamic; [exact Hall|].
    intros x Hin. rewrite Forall_forall in IH, Hall.
    apply (IH x Hin); [right; exact (Hall x Hin)|].
    intros Hnil. apply app_eq_nil in Hnil. destruct Hnil; discriminate.
  - intros kt et es IH [H | [t' [Heq _]]] addr path Hpath; [|discriminate Heq].
    inversion H as [| |es' Hne Hnd Hall]; subst.
    rewrite leaves_methodless by (reflexivity || discriminate).
    unfold leavesKind. cbn [underlying dleaves].
    apply leavesMap_dynamic; [exact Hnd | exact Hall |].
    intros kv Hin. rewrite Forall_forall in IH, Hall.
    apply (IH kv Hin); [right; exact (Hall kv Hin)|].
    intros Hnil. apply app_eq_nil in Hnil. destruct Hnil; discriminate.
Qed.

(** The same for the top-level map, whose path is empty. *)
Lemma leaves_dynamicMap addr m :
  dynEntries (topEntries m) ->
  leaves E' addr false [] (dynamicMap m) = Ok (dleaves [] (dynamicMap m)).
Proof.
  intros [Hnd Hall].
  rewrite leaves_methodless by (reflexivity || discriminate).
  unfold leavesKind, dynamicMap. cbn [underlying dleaves].
  destruct m as [es|]; [|reflexivity]. cbn [topEntries] in *.
  apply leavesMap_dynamic; [exact Hnd | exact Hall|].
  intros kv Hin. rewrite Forall_forall in Hall.
  apply leaves_dynamic; [right; exact (Hall kv Hin) | discriminate].
Qed.

End EncodeDynamic.

(** ** The pairs of an input under one canonical key *)

Lemma dynOrBoxed_wellKeyed : forall v, dynOrBoxed v -> wellKeyed v.
Proof.
  apply (@value_induction (fun v => dynOrBoxed v -> wellKeyed v));
    try (intros; constructor; fail).
  - intros t x IH [H | [t' [Heq _]]]; [inversion H | discriminate Heq].
  - intros x IH [H | [t [Heq Ht]]]; [inversion H|].
    inversion Heq; subst. constructor. apply IH. left. exact Ht.
  - intros t xs IH [H | [t' [Heq _]]]; [|discriminate Heq].
    inversion H as [|ys Hne Hall|]; subst. constructor.
    rewrite Forall_forall in *. intros x Hin.
    apply (IH x Hin). right. exact (Hall x Hin).
  - intros t xs IH [H | [t' [Heq _]]]; [inversion H | discriminate Heq].
  - intros kt et es IH [H | [t' [Heq _]]]; [|discriminate Heq].
    inversion H as [| |es' Hne Hnd Hall]; subst. constructor; [exact Hnd|].
    rewrite Forall_forall in *. intros kv Hin.
    apply (IH kv Hin). right. exact (Hall kv Hin).
  - intros fs IH [H | [t' [Heq _]]]; [inversion H | discriminate Heq].
  - intros n v IH [H | [t' [Heq _]]]; [inversion H | discriminate Heq].
Qed.

Lemma wellKeyed_dynamicMap m : dynEntries (topEntries m) -> wellKeyed (dynamicMap m).
Proof.
  intros [Hnd Hall]. destruct m as [es|]; [|constructor].
  constructor; [exact Hnd|]. cbn [topEntries] in Hall.
  rewrite Forall_forall in *. intros kv Hin.
  apply dynOrBoxed_wellKeyed. right. exact (Hall kv Hin).
Qed.

Lemma keyed_app k xs ys : keyed k (xs ++ ys) = keyed k xs ++ keyed k ys.
Proof. unfold keyed. rewrite filter_app, map_app. reflexivity. Qed.

Lemma keyed_of_key k rawKey vals :
  keyed k (map (fun x => (keyPath rawKey, x)) vals)
  = if String.eqb (renderKey (keyPath rawKey)) k then vals else [].
Proof.
  unfold keyed. induction vals as [|x vals IH]; simpl.
  - destruct (String.eqb (renderKey (keyPath rawKey)) k); reflexivity.
  - destruct (String.eqb (renderKey (keyPath rawKey)) k); simpl;
      [rewrite IH; reflexivity | exact IH].
Qed.

Lemma keyed_inputLeaves_cons k rawKey vals kvs :
  keyed k (inputLeaves ((rawKey, vals) :: kvs))
  = (if String.eqb (renderKey (keyPath rawKey)) k then vals else [])
    ++ keyed k (inputLeaves kvs).
Proof. rewrite inputLeaves_cons, keyed_app, keyed_of_key. reflexivity. Qed.

Lemma distinctRender_Permutation kvs kvs' :
  Permutation kvs kvs' -> distinctRender kvs -> distinctRender kvs'.
Proof.
  intros Hp H kv1 kv2 H1 H2.
  apply Permutation_sym in Hp.
  apply H; [exact (Permutation_in _ Hp H1) | exact (Permutation_in _ Hp H2)].
Qed.

Lemma distinctRender_tail kv kvs : distinctRender (kv :: kvs) -> distinctRender kvs.
Proof. intros H kv1 kv2 H1 H2. apply H; right; assumption. Qed.

(** With one entry per raw key and no two raw keys that render alike,
    the values under a canonical key do not depend on the order of the
    entries. *)
Lemma keyed_inputLeaves_Permutation kvs kvs' :
  Permutation kvs kvs' ->
  NoDup (map fst kvs) -> distinctRender kvs ->
  forall k, keyed k (inputLeaves kvs) = keyed k (inputLeaves kvs').
Proof.
  induction 1 as [|[rk vals] l l' Hp IH|[rk1 vals1] [rk2 vals2] l|l l' l'' Hp1 IH1 Hp2 IH2];
    intros Hnd Hdr k.
  - reflexivity.
  - rewrite !keyed_inputLeaves_cons. f_equal.
    inversion Hnd; subst. apply IH; [assumption|].
    eapply distinctRender_tail; exact Hdr.
  - rewrite !keyed_inputLeaves_cons.
    destruct (String.eqb (renderKey (keyPath rk1)) k) eqn:H1;
      destruct (String.eqb (renderKey (keyPath rk2)) k) eqn:H2;
      try reflexivity; try (rewrite app_nil_r; reflexivity).
    exfalso. apply String.eqb_eq in H1, H2.
    assert (Heq : rk2 = rk1).
    { apply (Hdr (rk2, vals2) (rk1, vals1)); simpl; auto. congruence. }
    subst. inversion Hnd as [|? ? Hnot _]; subst. apply Hnot. simpl. auto.
  - rewrite IH1 by assumption. apply IH2.
    + eapply Permutation_NoDup; [|exact Hnd].
      apply Permutation_map. exact Hp1.
    + eapply distinctRender_Permutation; eassumption.
Qed.

Lemma In_inputLeaves x kvs :
  In x (inputLeaves kvs) -> exists kv, In kv kvs /\ fst x = keyPath (fst kv).
Proof.
  unfold inputLeaves. intros H. apply in_flat_map in H.
  destruct H as [kv [Hkv Hx]]. apply in_map_iff in Hx.
  destruct Hx as [s [<- _]]. exists kv. auto.
Qed.

Lemma renderInjective_inputLeaves kvs :
  distinctRender kvs -> renderInjective (inputLeaves kvs).
Proof.
  intros H a b Ha Hb Heq.
  destruct (In_inputLeaves _ _ Ha) as [kv1 [H1 E1]].
  destruct (In_inputLeaves _ _ Hb) as [kv2 [H2 E2]].
  rewrite E1, E2 in *. f_equal. apply H; assumption.
Qed.

Lemma inputLeaves_Permutation kvs kvs' :
  Permutation kvs kvs' ->
  List.length (inputLeaves kvs) = List.length (inputLeaves kvs').
Proof.
  intros H. apply Permutation_length. unfold inputLeaves.
  apply Permutation_flat_map. exact H.
Qed.

(** [url.ParseQuery] returns a map: one entry per key. *)
Lemma parseQuery_NoDup : forall pieces m failed m',
  NoDup (map fst m) ->
  Url.parseQuery m pieces failed = Ok m' -> NoDup (map fst m').
Proof.
  induction pieces as [|p ps IH]; intros m failed m' Hnd H; simpl in H.
  - destruct failed; inversion H; subst. exact Hnd.
  - destruct (Url.parsePiece m p) as [m1|] eqn:Hp.
    + apply (IH m1 failed m'); [|exact H].
      unfold Url.parsePiece in Hp.
      destruct (Strings.ContainsByte p ";"); [discriminate|].
      destruct (Str.isEmpty p); [inversion Hp; subst; exact Hnd|].
      destruct (Strings.Cut p "=") as [key value].
      destruct (Url.QueryUnescape key); try discriminate.
      destruct (Url.QueryUnescape value); try discriminate.
      inversion Hp; subst. apply NoDup_keys_Add. exact Hnd.
    + apply (IH m true m'); assumption.
Qed.

Lemma ParseQuery_NoDup query values :
  Url.ParseQuery query = Ok values -> NoDup (map fst values).
Proof. apply parseQuery_NoDup. constructor. Qed.

(** ** Decoding into a dynamic map, then encoding *)

Section RoundTrip.

Variables E E' : Env.
Hypothesis methods : goMethods E.
Hypothesis methods' : goMethods E'.
Hypothesis fair : fairOrder E.
Hypothesis fair' : fairOrder E'.

(** The decoded map holds the pairs of the input, path by path, when it
    has as many leaves as the input has pairs. *)
Lemma unmarshalForm_dynamic values t :
  unmarshalForm E values (dynamicMap None) = (t, Ok tt) ->
  exists m,
    t = dynamicMap m /\ dynEntries (topEntries m) /\
    List.length (dleaves [] t) <= List.length (inputLeaves values) /\
    (List.length (dleaves [] t) = List.length (inputLeaves values) ->
     agree (dleaves [] t) (inputLeaves (rangeValues E values))).
Proof.
  intros H. unfold unmarshalForm in H.
  destruct (@unmarshalKeys_dynamic E methods (rangeValues E values) None t)
    as [m [-> [Hes [Hle Hag]]]]; [split; constructor | exact H |].
  destruct fair as [Hrange _].
  rewrite (inputLeaves_Permutation (Hrange values)) in Hle, Hag.
  exists m. split; [reflexivity|]. split; [exact Hes|].
  split; [exact Hle | exact Hag].
Qed.

Lemma marshalLeaves_round_trip values m target :
  NoDup (map fst values) ->
  distinctRender values ->
  dynEntries (topEntries m) ->
  agree (dleaves [] (dynamicMap m)) (inputLeaves (rangeValues E values)) ->
  marshalled target = Some (dynamicMap m) ->
  target <> None ->
  Marshal E' target = Ok (canonicalize values).
Proof.
  intros Hnd Hdr Hes Hag Htarget Hsome.
  assert (Hlist : marshalLeaves (inListOrder E') target
                  = Ok (dleaves [] (dynamicMap m))).
  { destruct target as [rv0|]; [|contradiction].
    unfold marshalled in Htarget. unfold marshalLeaves.
    destruct (underlying rv0) as [b|s|bits i|bits u|bits f|k n|t p|e|t xs|t xs
                                  |kt et mm|fs|name u] eqn:Hu;
      try (inversion Htarget as [Hrv]; subst rv0; cbn in Hu; discriminate Hu).
    - subst p. cbn [underlying dynamicMap isStringKind].
      apply leaves_dynamicMap; assumption.
    - inversion Htarget as [Hrv]. subst rv0. cbn in Hu.
      inversion Hu; subst. cbn [isStringKind].
      apply leaves_dynamicMap; assumption. }
  assert (Hwk : forall rv, target = Some rv -> wellKeyed rv).
  { intros rv ->. unfold marshalled in Htarget.
    destruct rv; simpl in Htarget; try discriminate;
      try (inversion Htarget; subst; apply wellKeyed_dynamicMap; assumption).
    - subst. constructor. apply wellKeyed_dynamicMap. assumption.
    - destruct rv; simpl in Htarget; try discriminate.
      subst. do 2 constructor. apply wellKeyed_dynamicMap. assumption. }
  destruct (@marshalLeaves_sameLeaves (inListOrder E') E' target
              (fairOrder_inListOrder E') fair' (sameCodecs_inListOrder E') Hwk
              _ Hlist) as [ps [Hps Hag']].
  rewrite Marshal_leaves, Hps. cbn [bind]. f_equal. unfold canonicalize.
  apply encodeLeaves_keyed. intros k.
  destruct fair as [Hrange _].
  rewrite (@keyed_inputLeaves_Permutation values (rangeValues E values)
             (Permutation_sym (Hrange values)) Hnd Hdr k).
  symmetry. apply agree_keyed.
  - eapply agree_trans; [apply agree_sym; exact Hag | exact Hag'].
  - apply renderInjective_inputLeaves.
    eapply distinctRender_Permutation; [|exact Hdr].
    apply Permutation_sym, Hrange.
Qed.

End RoundTrip.

(** C1, as the spec states it, fails in two ways.  A key without an index
    marker that comes twice keeps its last value only, so the decoded map
    has lost a pair of the input; and the brackets of a rendered path are
    percent-encoded in the output, so the spec's example does not come
    back byte for byte. *)
Lemma Marshal_after_Unmarshal_repeated_key_loses_a_pair :
  Url.ParseQuery "a=1&a=2" = Ok [("a", ["1"; "2"])] /\
  canonicalize [("a", ["1"; "2"])] = "a=1&a=2" /\
  snd (Unmarshal plain "a=1&a=2" newDynamicMap) = Ok tt /\
  Marshal plain (fst (Unmarshal plain "a=1&a=2" newDynamicMap)) = Ok "a=2" /\
  snd (Unmarshal plain "data[items][]=a&data[items][]=b" newDynamicMap) = Ok tt /\
  Marshal plain
    (fst (Unmarshal plain "data[items][]=a&data[items][]=b" newDynamicMap))
  = Ok "data%5Bitems%5D%5B%5D=a&data%5Bitems%5D%5B%5D=b".
Proof. repeat split; vm_compute; reflexivity. Qed.

(** C1 (amended).  Take an input that parses to [values], with no two
    raw keys that render to the same canonical key.  If decoding it into
    a pointer to an empty [map[string]interface{}] succeeds and loses no
    pair, then encoding the decoded value returns the canonical form of
    the input: its pairs under their rendered paths, in ascending order
    of the keys, percent-encoded as [url.Values.Encode] does.  The
    orders in which the decoder ranges over the input and the encoder
    over the maps do not matter. *)
Theorem Marshal_after_Unmarshal_dynamic_is_canonical :
  forall E E' data values decoded,
    goMethods E -> fairOrder E -> goMethods E' -> fairOrder E' ->
    Url.ParseQuery (Strings.TrimSpace data) = Ok values ->
    distinctRender values ->
    Unmarshal E data newDynamicMap = (decoded, Ok tt) ->
    lossless values decoded ->
    Marshal E' decoded = Ok (canonicalize values).
Proof.
  intros E E' data values decoded HE HF HE' HF' Hparse Hdr Hdec Hloss.
  unfold Unmarshal, newDynamicMap in Hdec.
  destruct (Nat.eqb (String.length data) 0); [discriminate|].
  cbn [underlying isStringKind] in Hdec. rewrite Hparse in Hdec.
  destruct (unmarshalForm E values (dynamicMap None))
    as [t r] eqn:Hform.
  inversion Hdec; subst; clear Hdec.
  destruct (@unmarshalForm_dynamic E HE HF values t Hform)
    as [m [-> [Hes [_ Hag]]]].
  unfold lossless in Hloss. cbn [pointee underlying rewrap priorLeaves] in Hloss.
  apply (@marshalLeaves_round_trip E E' HE' HF HF' values m).
  - exact (ParseQuery_NoDup _ Hparse).
  - exact Hdr.
  - exact Hes.
  - exact (Hag Hloss).
  - reflexivity.
  - discriminate.
Qed.

Lemma Marshal_after_Unmarshal_dynamic_is_canonical_witness :
  Marshal plainReversed
    (fst (Unmarshal plain "b[x][]=1&a=2&b[x][]=3&c[][k]=v" newDynamicMap))
  = Ok "a=2&b%5Bx%5D%5B%5D=1&b%5Bx%5D%5B%5D=3&c%5B%5D%5Bk%5D=v".
Proof.
  refine (@Marshal_after_Unmarshal_dynamic_is_canonical
            plain plainReversed "b[x][]=1&a=2&b[x][]=3&c[][k]=v"
            [("b[x][]", ["1"; "3"]); ("a", ["2"]); ("c[][k]", ["v"])]
            (fst (Unmarshal plain "b[x][]=1&a=2&b[x][]=3&c[][k]=v" newDynamicMap))
            goMethods_plain fairOrder_plain _ fairOrder_plainReversed _ _ _ _).
  - intros v _. repeat split.
  - vm_compute. reflexivity.
  - intros kv1 kv2 [<- | [<- | [<- | []]]] [<- | [<- | [<- | []]]] H;
      try reflexivity; vm_compute in H; discriminate.
  - vm_compute. reflexivity.
  - vm_compute. reflexivity.
Defined.

(** ** Rendered paths parse back *)

Section RenderParse.

Lemma string_app_assoc (a b c : string) :
  ((a ++ b) ++ c = a ++ (b ++ c))%string.
Proof. induction a as [|x a IH]; simpl; [reflexivity | rewrite IH; reflexivity]. Qed.

Lemma string_app_nil_r (a : string) : (a ++ "")%string = a.
Proof. induction a as [|x a IH]; simpl; [reflexivity | rewrite IH; reflexivity]. Qed.

Lemma IndexByte_app_absent pre c t :
  Strings.ContainsByte pre c = false ->
  Str.IndexByte (pre ++ String c t) c = Some (String.length pre).
Proof.
  induction pre as [|a pre IH]; simpl; intros H.
  - rewrite Ascii.eqb_refl. reflexivity.
  - rewrite ContainsByte_cons in H. apply Bool.orb_false_iff in H.
    destruct H as [Ha Hpre]. rewrite Ha, (IH Hpre). reflexivity.
Qed.

Lemma take_app_length pre t : Str.take (String.length pre) (pre ++ t) = pre.
Proof.
  induction pre as [|a pre IH]; simpl.
  - destruct t; reflexivity.
  - rewrite IH. reflexivity.
Qed.

Lemma drop_app_length pre c t :
  Str.drop (String.length pre + 1) (pre ++ String c t) = t.
Proof. induction pre as [|a pre IH]; simpl; [reflexivity | exact IH]. Qed.

Lemma renderPath_bracketed first rest :
  renderPath (first :: rest) = Ok (first ++ bracketed rest)%string.
Proof.
  unfold renderPath. f_equal. revert first.
  induction rest as [|p rest IH]; intros first; cbn [fold_left bracketed].
  - symmetry. apply string_app_nil_r.
  - rewrite IH. destruct (Str.isEmpty p) eqn:Hp.
    + destruct p; [|discriminate]. rewrite string_app_assoc. reflexivity.
    + rewrite string_app_assoc. f_equal. cbn [append]. f_equal.
      apply string_app_assoc.
Qed.

(** One turn of the loop on a key that goes on with a bracketed part. *)
Lemma parseKey_body_bracket pre p t acc :
  Strings.ContainsByte pre lbracket = false ->
  Strings.ContainsByte p rbracket = false ->
  parseKey_body (pre ++ "[" ++ p ++ "]" ++ t) acc
  = Continue t ((if Nat.ltb 0 (String.length pre)
                 then acc ++ [named pre] else acc) ++ [segmentOf p]).
Proof.
  intros Hpre Hp. unfold parseKey_body.
  change (pre ++ "[" ++ p ++ "]" ++ t)%string
    with (pre ++ String lbracket (p ++ String rbracket t))%string.
  rewrite (@IndexByte_app_absent pre lbracket _ Hpre).
  rewrite drop_app_length, take_app_length.
  rewrite (@IndexByte_app_absent p rbracket _ Hp).
  rewrite drop_app_length, take_app_length.
  unfold segmentOf. destruct (Str.isEmpty p); reflexivity.
Qed.

Lemma parseKey_loop_bracketed : forall rest pre acc,
  Strings.ContainsByte pre lbracket = false ->
  Forall (fun p => noBrackets p = true) rest ->
  parseKey_loop (pre ++ bracketed rest) acc
  = Ok (acc ++ (if Str.isEmpty pre then [] else [named pre])
            ++ map segmentOf rest).
Proof.
  induction rest as [|p rest IH]; intros pre acc Hpre Hrest.
  - cbn [bracketed map]. rewrite string_app_nil_r, app_nil_r.
    rewrite parseKey_loop_eq. destruct (Str.isEmpty pre) eqn:He.
    + rewrite app_nil_r. reflexivity.
    + unfold parseKey_body. unfold Strings.ContainsByte in Hpre.
      destruct (Str.IndexByte pre lbracket); [discriminate | reflexivity].
  - inversion Hrest as [|? ? Hp Hrest']; subst.
    unfold noBrackets in Hp. apply Bool.andb_true_iff in Hp.
    destruct Hp as [_ Hp]. apply Bool.negb_true_iff in Hp.
    cbn [bracketed map]. rewrite parseKey_loop_eq.
    assert (Hne : Str.isEmpty (pre ++ "[" ++ p ++ "]" ++ bracketed rest) = false)
      by (destruct pre; reflexivity).
    rewrite Hne, (@parseKey_body_bracket pre p _ acc Hpre Hp).
    assert (Hnil : Strings.ContainsByte "" lbracket = false) by reflexivity.
    rewrite (IH "" _ Hnil Hrest'). f_equal. cbn [Str.isEmpty app].
    destruct pre; cbn [String.length Nat.ltb Nat.leb Str.isEmpty];
      rewrite <- ?app_assoc; reflexivity.
Qed.

End RenderParse.

(** X1.  Every segment of a path that [parseKey] returns is either an
    index marker without a key or a named segment whose key is not
    empty. *)
Theorem parseKey_segments_are_markers_or_named :
  forall key path, parseKey key = Ok path -> Forall segmentOk path.
Proof.
  intros key path H.
  exact (@parseKey_loop_segments key [] (Forall_nil _) path H).
Qed.

Lemma parseKey_segments_are_markers_or_named_witness :
  Forall segmentOk [named "user"; named "tags"; indexMarker].
Proof.
  apply (@parseKey_segments_are_markers_or_named "user[tags][]").
  vm_compute. reflexivity.
Defined.

(** X2.  What [renderPath] writes for a path, [parseKey] reads back: the
    first name as a named segment, every empty name as an index marker
    and every other name as a named segment, provided the first name is
    not empty and no name holds a bracket. *)
Theorem parseKey_inverts_renderPath :
  forall first rest,
    first <> "" ->
    Forall (fun p => noBrackets p = true) (first :: rest) ->
    exists key,
      renderPath (first :: rest) = Ok key /\
      parseKey key = Ok (named first :: map segmentOf rest).
Proof.
  intros first rest Hne Hall. inversion Hall as [|? ? Hfirst Hrest]; subst.
  exists (first ++ bracketed rest)%string.
  split; [apply renderPath_bracketed|].
  unfold noBrackets in Hfirst. apply Bool.andb_true_iff in Hfirst.
  destruct Hfirst as [Hl _]. apply Bool.negb_true_iff in Hl.
  unfold parseKey. rewrite (@parseKey_loop_bracketed rest first [] Hl Hrest).
  destruct first; [contradiction | reflexivity].
Qed.

Lemma parseKey_inverts_renderPath_witness :
  exists key,
    renderPath ["user"; "tags"; ""] = Ok key /\
    parseKey key = Ok [named "user"; named "tags"; indexMarker].
Proof.
  apply (@parseKey_inverts_renderPath "user" ["tags"; ""]).
  - discriminate.
  - repeat constructor.
Defined.

(** ** Properties of the inference of dynamic values *)

Lemma agree_singleton (x y : leaf) : agree [x] [y] -> x = y.
Proof.
  intros H. specialize (H (fst x)). unfold under in H. cbn [filter] in H.
  assert (Hx : samePath (fst x) (fst x) = true) by (apply samePath_true; reflexivity).
  rewrite Hx in H. destruct (samePath (fst y) (fst x)); inversion H. reflexivity.
Qed.

(** X3.  An inference into a slot that is empty or holds a dynamic value
    returns a dynamic value: a string, a [[]interface{}] or a
    [map[string]interface{}] of such.  It adds at most one leaf, and on
    an empty slot it builds exactly the one leaf of the path. *)
Theorem inferInterfaceValue_builds_dynamic_values :
  forall path old val new prefix,
    wfPath path -> dynPrior old ->
    inferInterfaceValue old path val = Ok new ->
    dynTree new /\
    List.length (dleaves prefix new) <= List.length (priorLeaves prefix old) + 1 /\
    (old = None -> dleaves prefix new = [(prefix ++ map Key path, val)]).
Proof.
  intros path old val new prefix Hwf Hold Hinf.
  destruct (@inferInterfaceValue_step path Hwf old val new prefix Hold Hinf)
    as [Hnew [Hle Hag]].
  split; [exact Hnew|]. split; [exact Hle|].
  intros ->. cbn [priorLeaves List.length app] in *.
  pose proof (@dynTree_has_leaves new prefix Hnew) as Hne.
  destruct (dleaves prefix new) as [|x [|y l]] eqn:Hd;
    [contradiction | | simpl in Hle; lia].
  f_equal. apply agree_singleton. apply Hag. reflexivity.
Qed.

Lemma inferInterfaceValue_builds_dynamic_values_witness :
  dynTree (dynamicMap (Some [("tags", boxed (VSlice TInterface [boxed (VString "go")]))])) /\
  dleaves ["user"] (dynamicMap (Some [("tags", boxed (VSlice TInterface [boxed (VString "go")]))]))
  = [(["user"; "tags"; ""], "go")].
Proof.
  assert (Hwf : wfPath [named "tags"; indexMarker])
    by (repeat constructor; discriminate).
  destruct (@inferInterfaceValue_builds_dynamic_values
              [named "tags"; indexMarker] None "go"
              (dynamicMap (Some [("tags", boxed (VSlice TInterface [boxed (VString "go")]))]))
              ["user"] Hwf prior_none eq_refl) as [H1 [_ H3]].
  split; [exact H1 | exact (H3 eq_refl)].
Defined.

(** X4.  A decode into a pointer to an empty [map[string]interface{}]
    that succeeds leaves a map with one entry per key whose values are
    strings, slices and maps of such only, and with at most one leaf for
    every pair of the input. *)
Theorem Unmarshal_dynamic_map_holds_strings_slices_and_maps :
  forall E data decoded,
    goMethods E -> fairOrder E ->
    Unmarshal E data newDynamicMap = (decoded, Ok tt) ->
    exists values m,
      Url.ParseQuery (Strings.TrimSpace data) = Ok values /\
      pointee decoded = Some (dynamicMap m) /\
      dynEntries (topEntries m) /\
      List.length (dleaves [] (dynamicMap m)) <= List.length (inputLeaves values).
Proof.
  intros E data decoded HE HF Hdec.
  unfold Unmarshal, newDynamicMap in Hdec.
  destruct (Nat.eqb (String.length data) 0); [discriminate|].
  cbn [underlying isStringKind] in Hdec.
  destruct (Url.ParseQuery (Strings.TrimSpace data)) as [values| |];
    try discriminate.
  destruct (unmarshalForm E values (dynamicMap None)) as [t r] eqn:Hform.
  inversion Hdec; subst; clear Hdec.
  destruct (@unmarshalForm_dynamic E HE HF values t Hform)
    as [m [-> [Hes [Hle _]]]].
  exists values, m. repeat split; try assumption; apply Hes.
Qed.

Lemma Unmarshal_dynamic_map_holds_strings_slices_and_maps_witness :
  exists values m,
    Url.ParseQuery (Strings.TrimSpace "a[b]=1&a[c][]=2&a[b]=3") = Ok values /\
    pointee (fst (Unmarshal plain "a[b]=1&a[c][]=2&a[b]=3" newDynamicMap))
    = Some (dynamicMap m) /\
    dynEntries (topEntries m) /\
    List.length (dleaves [] (dynamicMap m)) <= List.length (inputLeaves values).
Proof.
  apply (@Unmarshal_dynamic_map_holds_strings_slices_and_maps
           plain "a[b]=1&a[c][]=2&a[b]=3").
  - exact goMethods_plain.
  - exact fairOrder_plain.
  - vm_compute. reflexivity.
Defined.

(** X5.  A key that goes on below a slot whose shape does not fit its
    next segment makes the decoder panic on a type assertion, and the map
    stays as it was: [a=1] followed by [a[b]=2], or [a[]=1] followed by
    [a[b]=2]. *)
Theorem assign_into_conflicting_dynamic_entry_panics :
  forall E es seg next rest val t,
    lookup es (Key seg) = Some (boxed t) ->
    dynTree t ->
    shapeConflict t next = true ->
    assign E true (dynamicMap (Some es)) (seg :: next :: rest) val
    = (dynamicMap (Some es), Panic errConversion).
Proof.
  intros E es seg next rest val t Hl Ht Hc.
  rewrite assign_dynamicMap_segment. unfold assignMapInterface.
  cbn [topEntries]. rewrite Hl. cbn [inferInterfaceValue].
  unfold inferSliceValue, inferMapValue.
  inversion Ht; subst; cbn in Hc |- *; destruct (Index next);
    try discriminate; reflexivity.
Qed.

Lemma assign_into_conflicting_dynamic_entry_panics_witness :
  assign plain true (dynamicMap (Some [("a", boxed (VString "1"))]))
    [named "a"; named "b"] "2"
  = (dynamicMap (Some [("a", boxed (VString "1"))]), Panic errConversion).
Proof.
  apply (@assign_into_conflicting_dynamic_entry_panics
           plain [("a", boxed (VString "1"))] (named "a") (named "b") [] "2"
           (VString "1")).
  - reflexivity.
  - constructor.
  - reflexivity.
Defined.

(** ** Assignments into structs, slices and pointers *)

Lemma assign_eq E addr v path val :
  assign E addr v path val
  = deref addr v (fun addr v =>
      match path with
      | [] => assignLeaf E addr v val
      | seg :: rest =>
          match underlying v with
          | VInterface None =>
              match inferInterfaceValue (Some v) path val with
              | Ok newVal => set addr v (rewrap v (VInterface (Some newVal)))
              | Err e => (v, Err e)
              | Panic e => (v, Panic e)
              end
          | VInterface (Some x) =>
              let (x', r) :=
                deref false x
                  (fun a y => assignKind E (fun a x => assign E a x rest val)
                                a y seg rest val) in
              (rewrap v (VInterface (Some x')), r)
          | _ => assignKind E (fun a x => assign E a x rest val)
                   addr v seg rest val
          end
      end).
Proof. destruct path; reflexivity. Qed.

Lemma findField_some ts key : forall i j,
  findField ts key i = Some j ->
  exists t, nth_error ts (j - i) = Some t /\ i <= j /\
            Ignore t = false /\ Name t = key.
Proof.
  induction ts as [|t ts IH]; intros i j H; simpl in H; [discriminate|].
  destruct (Ignore t) eqn:Hig.
  - destruct (IH _ _ H) as [t' [Hn [Hle [H1 H2]]]].
    exists t'. replace (j - i) with (S (j - S i)) by lia. simpl.
    repeat split; try assumption; lia.
  - destruct (String.eqb (Name t) key) eqn:Hname.
    + inversion H; subst. exists t. rewrite Nat.sub_diag. simpl.
      apply String.eqb_eq in Hname. auto.
    + destruct (IH _ _ H) as [t' [Hn [Hle [H1 H2]]]].
      exists t'. replace (j - i) with (S (j - S i)) by lia. simpl.
      repeat split; try assumption; lia.
Qed.

(** X6.  A key that names no field of a struct, or only fields that are
    ignored or unexported, is rejected with the unknown-field error and
    the struct is left as it was. *)
Theorem assign_unknown_struct_key_is_rejected :
  forall E addr v fs seg rest val,
    underlying v = VStruct fs ->
    Forall (fun fv =>
              Ignore (fieldTagOf (fst fv)) = true \/
              Name (fieldTagOf (fst fv)) <> Key seg \/
              isExported (fieldName (fst fv)) = false) fs ->
    assign E addr v (seg :: rest) val = (v, Err errUnknownField).
Proof.
  intros E addr v fs seg rest val Hu Hall.
  rewrite assign_eq. unfold deref. rewrite Hu.
  unfold assignKind. rewrite Hu. unfold assignStructField. rewrite Hu.
  unfold findStructField, tags. rewrite Hu.
  destruct (findField (map (fun fv => fieldTagOf (fst fv)) fs) (Key seg) 0)
    as [i|] eqn:Hfind; [|reflexivity].
  destruct (findField_some _ _ _ Hfind) as [t [Hn [_ [Hig Hname]]]].
  rewrite Nat.sub_0_r in Hn. rewrite nth_error_map in Hn.
  destruct (nth_error fs i) as [[f fv]|] eqn:Hfs; [|reflexivity].
  simpl in Hn. inversion Hn; subst t.
  rewrite Forall_forall in Hall.
  destruct (Hall (f, fv) (nth_error_In _ _ Hfs)) as [H | [H | H]];
    cbn [fst] in H.
  - congruence.
  - contradiction.
  - rewrite H, Bool.andb_false_r. reflexivity.
Qed.

Lemma assign_unknown_struct_key_is_rejected_witness :
  assign plain true (zero PersonT) [named "email"] "x"
  = (zero PersonT, Err errUnknownField).
Proof.
  apply (@assign_unknown_struct_key_is_rejected plain true (zero PersonT)
           [ (mkField "Name" "name", VString "");
             (mkField "Age" "age,omitempty", VInt 64 0);
             (mkField "Pronouns" "pronouns", VSlice TString []) ]
           (named "email") [] "x").
  - reflexivity.
  - repeat (apply Forall_cons; [right; left; vm_compute; discriminate|]).
    apply Forall_nil.
Defined.

(** X7.  An assignment into a slice never touches the elements the slice
    holds: with a named segment it fails with the slice-index error, and
    when it succeeds the slice is the old one with one element
    appended. *)
Theorem assign_slice_appends_one_element :
  forall E v t xs seg rest val,
    underlying v = VSlice t xs ->
    (Index seg = false ->
     assign E true v (seg :: rest) val = (v, Err errSliceIndex)) /\
    (forall v', assign E true v (seg :: rest) val = (v', Ok tt) ->
                Index seg = true /\
                exists e, v' = rewrap v (VSlice t (xs ++ [e]))).
Proof.
  intros E v t xs seg rest val Hu.
  assert (Heq : assign E true v (seg :: rest) val
                = assignSliceValue E (fun a x => assign E a x rest val)
                    true v seg rest val).
  { rewrite assign_eq. unfold deref. rewrite Hu.
    unfold assignKind. rewrite Hu. reflexivity. }
  rewrite Heq. unfold assignSliceValue. split.
  - intros ->. reflexivity.
  - intros v'. destruct (Index seg); [|discriminate]. cbn [negb]. rewrite Hu.
    intros H. split; [reflexivity|].
    match type of H with
    | (let (_, _) := ?call in _) = _ => destruct call as [newElem r]
    end.
    destruct r as [[]| |]; try discriminate.
    unfold set in H. inversion H; subst. eauto.
Qed.

Lemma assign_slice_appends_one_element_witness :
  assign plain true (VSlice TString [VString "he"]) [indexMarker] "him"
  = (VSlice TString [VString "he"; VString "him"], Ok tt) /\
  assign plain true (VSlice TString [VString "he"]) [named "0"] "him"
  = (VSlice TString [VString "he"], Err errSliceIndex).
Proof.
  destruct (@assign_slice_appends_one_element plain
              (VSlice TString [VString "he"]) TString [VString "he"]
              (named "0") [] "him" eq_refl) as [H _].
  split; [vm_compute; reflexivity | exact (H eq_refl)].
Defined.

(** X8.  A nil pointer on the way of an assignment is set to a fresh
    value before anything else, so it is no longer nil afterwards also
    when the assignment then fails; a nil pointer that is not addressable
    makes the decoder panic. *)
Theorem assign_allocates_nil_pointer_even_when_it_fails :
  forall E v t path val,
    underlying v = VPointer t None ->
    (exists x, fst (assign E true v path val) = rewrap v (VPointer t (Some x))) /\
    assign E false v path val = (v, Panic errUnaddressable).
Proof.
  intros E v t path val Hu. rewrite !assign_eq. unfold deref. rewrite Hu.
  split; [|reflexivity].
  match goal with
  | |- exists x, fst (let (_, _) := ?call in _) = _ =>
      destruct call as [x r]
  end.
  exists x. reflexivity.
Qed.

Lemma assign_allocates_nil_pointer_even_when_it_fails_witness :
  snd (assign plain true (VPointer (TInt 64) None) [] "oops")
  = Err "setInt: invalid syntax" /\
  exists x, fst (assign plain true (VPointer (TInt 64) None) [] "oops")
            = VPointer (TInt 64) (Some x).
Proof.
  split; [vm_compute; reflexivity|].
  exact (proj1 (@assign_allocates_nil_pointer_even_when_it_fails plain
                  (VPointer (TInt 64) None) (TInt 64) [] "oops" eq_refl)).
Defined.

(** ** The checks of [Unmarshal] and [Marshal] *)

(** X9.  [Unmarshal] returns an error and leaves its argument as it was
    when the input is empty, when the argument is not a non-nil pointer
    to a struct or to a map with string keys, and when the input is not
    a valid query; the empty input is reported before anything else. *)
Theorem Unmarshal_rejects_without_touching_the_target :
  forall E data v,
    (String.length data = 0 -> Unmarshal E data v = (v, Err errEmptyInput)) /\
    (validTarget v = false -> exists e, Unmarshal E data v = (v, Err e)) /\
    (forall e, Url.ParseQuery (Strings.TrimSpace data) = Err e ->
               exists e', Unmarshal E data v = (v, Err e')).
Proof.
  intros E data v. unfold Unmarshal. split; [|split].
  - intros ->. reflexivity.
  - unfold validTarget, pointee, topLevelOk. intros Hv.
    destruct (Nat.eqb (String.length data) 0); [eauto|].
    destruct v as [rv|]; [|eauto].
    destruct (underlying rv) as [b|s|bits i|bits u|bits f|k n|t [x|]|e|t xs|t xs
                                 |kt et m|fs|name u]; eauto.
    destruct (underlying x) as [b|s|bits i|bits u|bits f|k n|t' p|e|t' xs|t' xs
                                |kt et m|fs|name u]; eauto; try discriminate.
    rewrite Hv. eauto.
  - intros e He. destruct (Nat.eqb (String.length data) 0); [eauto|].
    destruct v as [rv|]; [|eauto].
    destruct (underlying rv) as [b|s|bits i|bits u|bits f|k n|t [x|]|e0|t xs|t xs
                                 |kt et m|fs|name u]; eauto.
    rewrite He.
    destruct (underlying x) as [b|s|bits i|bits u|bits f|k n|t' p|e0|t' xs|t' xs
                                |kt et m|fs|name u]; eauto.
    destruct (isStringKind kt); eauto.
Qed.

(** X10.  [Marshal] succeeds only on nil, on a nil pointer, for both of
    which it returns no bytes, and on a struct or a map with string
    keys, passed as it is or through a pointer. *)
Theorem Marshal_succeeds_on_struct_or_string_map_only :
  forall E v s,
    Marshal E v = Ok s ->
    match marshalled v with
    | None => s = ""
    | Some rv => topLevelOk rv = true
    end.
Proof.
  intros E v s. unfold Marshal, marshalled, topLevelOk.
  destruct v as [rv0|]; [|intros H; inversion H; reflexivity].
  destruct (underlying rv0) as [b|s0|bits i|bits u|bits f|k n|t [x|]|e|t xs|t xs
                                |kt et m|fs|name u] eqn:Hu;
    try discriminate; try reflexivity.
  - destruct (underlying x) as [b|s0|bits i|bits u|bits f|k n|t' p|e|t' xs|t' xs
                                |kt et m|fs|name u];
      try discriminate; try reflexivity.
    destruct (isStringKind kt); [reflexivity | discriminate].
  - intros H; inversion H; reflexivity.
  - rewrite Hu. destruct (isStringKind kt); [reflexivity | discriminate].
  - rewrite Hu. reflexivity.
Qed.

Lemma Marshal_succeeds_on_struct_or_string_map_only_witness :
  topLevelOk (dynamicMap (Some [("a", boxed (VString "1"))])) = true.
Proof.
  exact (@Marshal_succeeds_on_struct_or_string_map_only plain
           (Some (VPointer (TMap TString TInterface)
                    (Some (dynamicMap (Some [("a", boxed (VString "1"))])))))
           "a=1" eq_refl).
Defined.

(** X11.  At the top level the path is empty, and the encoder renders the
    path of a value with a [MarshalForm] method without looking at its
    length: a struct or map that is a [Marshaler] makes [Marshal] panic
    on an index out of range as soon as its method returns a text; an
    error of the method is returned as it is. *)
Theorem Marshal_of_top_level_Marshaler_panics :
  forall E viaPointer t rv m,
    topLevelOk rv = true ->
    asMarshaler E viaPointer rv = Some m ->
    Marshal E (passed viaPointer t rv)
    = match m with
      | Ok _ => Panic errIndexRange
      | Err e => Err e
      | Panic e => Panic e
      end.
Proof.
  intros E viaPointer t rv m Htop Hm.
  assert (Hleaves : leaves E viaPointer false [] rv
                    = match m with
                      | Ok _ => Panic errIndexRange
                      | Err e => Err e
                      | Panic e => Panic e
                      end).
  { rewrite leaves_eq. unfold topLevelOk in Htop.
    destruct (underlying rv); try discriminate;
      unfold leavesDereferenced; rewrite Hm; destruct m; reflexivity. }
  rewrite Marshal_leaves. unfold marshalLeaves, passed, topLevelOk in *.
  destruct viaPointer; cbn [underlying].
  - destruct (underlying rv); try discriminate;
      [rewrite Htop|]; rewrite Hleaves; destruct m; reflexivity.
  - destruct (underlying rv) eqn:Hu; try discriminate;
      [rewrite Htop|]; rewrite Hleaves; destruct m; reflexivity.
Qed.

Lemma Marshal_of_top_level_Marshaler_panics_witness :
  Marshal stamped (Some stamp) = Panic errIndexRange.
Proof.
  exact (@Marshal_of_top_level_Marshaler_panics stamped false TString stamp
           (Ok "2025.02.08") eq_refl eq_refl).
Defined.

(** X12.  The traversal of the encoder only adds to the output: under
    every key, the values that were there stay, in their order, in front
    of the new ones. *)
Theorem marshalValue_only_appends :
  forall E addr ro path v out out',
    marshalValue E addr ro path v out = Ok out' ->
    forall k, exists vs, Url.Get out' k = Url.Get out k ++ vs.
Proof.
  intros E addr ro path v out out' H k. rewrite marshalValue_leaves in H.
  destruct (leaves E addr ro path v) as [ps| |]; simpl in H; inversion H; subst.
  exists (keyed k ps). apply Get_addAll.
Qed.

Lemma marshalValue_only_appends_witness :
  exists vs,
    Url.Get [("name", ["ann"; "bob"])] "name" = Url.Get [("name", ["ann"])] "name" ++ vs.
Proof.
  exact (@marshalValue_only_appends plain true false ["name"] (VString "bob")
           [("name", ["ann"])] [("name", ["ann"; "bob"])] eq_refl "name").
Defined.

(** ** Scalars: what [getScalar] writes, [setScalar] reads back *)

Section Decimal.

Open Scope Z_scope.

Lemma digit_char (d : N) :
  (d < 10)%N ->
  Strconv.isDigit (byteOf (48 + N.to_nat d)) = true /\
  Z.of_nat (codeOf (byteOf (48 + N.to_nat d)) - 48) = Z.of_N d.
Proof.
  intros H. unfold Strconv.isDigit, codeOf, byteOf.
  rewrite nat_ascii_embedding by lia.
  split.
  - apply Bool.andb_true_iff. split; apply Nat.leb_le; lia.
  - lia.
Qed.

Lemma digits_cons (d : N) rest acc :
  (d < 10)%N ->
  Strconv.digits (String (byteOf (48 + N.to_nat d)) rest) acc
  = Strconv.digits rest (10 * acc + Z.of_N d).
Proof.
  intros H. destruct (@digit_char d H) as [H1 H2].
  cbn [Strconv.digits]. rewrite H1, H2. reflexivity.
Qed.

Lemma natDigits_spec : forall fuel n rest,
  (n < 2 ^ N.of_nat (S fuel))%N ->
  exists k, forall acc,
    Strconv.digits (Strconv.natDigits (S fuel) n rest) acc
    = Strconv.digits rest (acc * 10 ^ Z.of_nat k + Z.of_N n).
Proof.
  induction fuel as [|fuel IH]; intros n rest Hn.
  - exists 1%nat. intros acc. cbn [Strconv.natDigits].
    assert (Hlt : (n < 2)%N) by exact Hn.
    assert (Hdiv : (n / 10 = 0)%N) by (apply N.div_small; lia).
    assert (Hmod : (n mod 10 = n)%N) by (apply N.mod_small; lia).
    rewrite Hdiv, Hmod. cbn [N.eqb].
    rewrite digits_cons by lia. f_equal. lia.
  - cbn [Strconv.natDigits].
    pose proof (N.div_mod' n 10) as Hdm.
    assert (Hmodlt : (n mod 10 < 10)%N) by (apply N.mod_lt; lia).
    destruct (N.eqb (n / 10) 0) eqn:Hz.
    + apply N.eqb_eq in Hz. exists 1%nat. intros acc.
      rewrite digits_cons by exact Hmodlt. f_equal. lia.
    + assert (Hsmall : (n / 10 < 2 ^ N.of_nat (S fuel))%N).
      { apply N.Div0.div_lt_upper_bound.
        replace (N.of_nat (S (S fuel))) with (N.succ (N.of_nat (S fuel))) in Hn
          by lia.
        rewrite N.pow_succ_r' in Hn. lia. }
      destruct (IH (n / 10)%N
                  (String (byteOf (48 + N.to_nat (n mod 10))) rest) Hsmall)
        as [k Hk].
      exists (S k). intros acc. rewrite Hk.
      rewrite digits_cons by exact Hmodlt. f_equal.
      rewrite Nat2Z.inj_succ, Z.pow_succ_r by lia. lia.
Qed.

Lemma natDigits_keeps_nonempty : forall fuel n rest,
  rest <> EmptyString -> Strconv.natDigits fuel n rest <> EmptyString.
Proof.
  induction fuel as [|fuel IH]; intros n rest H; cbn [Strconv.natDigits].
  - exact H.
  - destruct (N.eqb (n / 10) 0); [discriminate|]. apply IH. discriminate.
Qed.

Lemma natDigits_nonempty fuel n :
  Strconv.natDigits (S fuel) n EmptyString <> EmptyString.
Proof.
  cbn [Strconv.natDigits].
  destruct (N.eqb (n / 10) 0); [discriminate|].
  apply natDigits_keeps_nonempty. discriminate.
Qed.

Lemma decimal_FormatUint n :
  0 <= n ->
  Strconv.decimal (Strconv.FormatUint n) = Some n /\
  Strconv.FormatUint n <> EmptyString.
Proof.
  intros Hn. unfold Strconv.FormatUint.
  set (m := Z.to_N n).
  assert (Hm : (m < 2 ^ N.of_nat (S (N.to_nat (N.log2 m))))%N).
  { replace (N.of_nat (S (N.to_nat (N.log2 m)))) with (N.succ (N.log2 m)) by lia.
    destruct (N.eq_dec m 0) as [-> | Hpos]; [reflexivity|].
    apply N.log2_spec. lia. }
  destruct (@natDigits_spec _ m EmptyString Hm) as [k Hk].
  pose proof (natDigits_nonempty (N.to_nat (N.log2 m)) m) as Hne.
  split; [|exact Hne].
  unfold Strconv.decimal.
  destruct (Strconv.natDigits (S (N.to_nat (N.log2 m))) m EmptyString) eqn:Hs;
    [contradiction|].
  rewrite Hk. cbn [Strconv.digits]. f_equal. subst m. lia.
Qed.

Lemma decimal_first_digit a s n :
  Strconv.decimal (String a s) = Some n -> Strconv.isDigit a = true.
Proof.
  unfold Strconv.decimal. cbn [Strconv.digits].
  destruct (Strconv.isDigit a); [reflexivity | discriminate].
Qed.

Lemma ParseUint_FormatUint u bits :
  0 <= u < 2 ^ Z.of_nat bits ->
  Strconv.ParseUint (Strconv.FormatUint u) bits = Ok u.
Proof.
  intros [H0 H1]. unfold Strconv.ParseUint.
  destruct (@decimal_FormatUint u H0) as [-> _].
  destruct (Z.ltb_spec u (2 ^ Z.of_nat bits)); [reflexivity | lia].
Qed.

Lemma ParseInt_FormatInt i bits :
  - 2 ^ (Z.of_nat bits - 1) <= i < 2 ^ (Z.of_nat bits - 1) ->
  Strconv.ParseInt (Strconv.FormatInt i) bits = Ok i.
Proof.
  intros [Hlo Hhi]. unfold Strconv.FormatInt.
  destruct (Z.ltb_spec i 0) as [Hneg | Hpos].
  - assert (H0 : 0 <= - i) by lia.
    destruct (@decimal_FormatUint (- i) H0) as [Hd _].
    cbn [Strconv.ParseInt]. change (Ascii.eqb "-" "-") with true.
    change (Ascii.eqb "-" "+") with false. cbn [orb]. rewrite Hd.
    destruct (Z.leb_spec (- i) (2 ^ (Z.of_nat bits - 1))); [|lia].
    f_equal. lia.
  - destruct (@decimal_FormatUint i Hpos) as [Hd Hne].
    destruct (Strconv.FormatUint i) as [|a s] eqn:Hs; [contradiction|].
    pose proof (@decimal_first_digit a s i Hd) as Hdigit.
    cbn [Strconv.ParseInt].
    assert (Hplus : Ascii.eqb a "+" = false).
    { destruct (Ascii.eqb a "+") eqn:Ha; [|reflexivity].
      apply Ascii.eqb_eq in Ha. subst a. discriminate Hdigit. }
    assert (Hminus : Ascii.eqb a "-" = false).
    { destruct (Ascii.eqb a "-") eqn:Ha; [|reflexivity].
      apply Ascii.eqb_eq in Ha. subst a. discriminate Hdigit. }
    rewrite Hplus, Hminus. cbn [orb]. rewrite Hd.
    destruct (Z.ltb_spec i (2 ^ (Z.of_nat bits - 1))); [reflexivity | lia].
Qed.

Lemma FormatInt_nonempty i : Strconv.FormatInt i <> EmptyString.
Proof.
  unfold Strconv.FormatInt. destruct (i <? 0); [discriminate|].
  unfold Strconv.FormatUint. apply natDigits_nonempty.
Qed.

End Decimal.

(** X13.  The text [getScalar] writes for a string, a boolean or an
    integer within the range of its width is read back by [assignLeaf]
    into a value of the same type as the value it was written for. *)
Theorem assignLeaf_reads_back_getScalar :
  forall E v old,
    goMethods E ->
    readableScalar v = true ->
    sameScalarType old v = true ->
    exists s, getScalar E v = Ok s /\ assignLeaf E true old s = (v, Ok tt).
Proof.
  intros E v old HE Hv Hold.
  assert (Hleaf : forall x s, sameScalarType x v = true ->
                              assignLeaf E true x s = setScalar E true x s).
  { intros x s Hx. apply assignLeaf_methodless; [exact HE|].
    destruct x; try reflexivity; destruct v; discriminate. }
  destruct v as [b|s|bits i|bits u| | | | | | | | |]; try discriminate;
    destruct old as [b0|s0|bits0 i0|bits0 u0| | | | | | | | |]; try discriminate;
    try (cbn in Hold; apply Nat.eqb_eq in Hold; subst bits0);
    unfold getScalar; cbn [underlying].
  - exists (Strconv.FormatBool b). split; [reflexivity|].
    rewrite Hleaf by reflexivity. destruct b; reflexivity.
  - exists s. split; [reflexivity|]. rewrite Hleaf by reflexivity. reflexivity.
  - exists (Strconv.FormatInt i). split; [reflexivity|].
    rewrite Hleaf by (cbn; apply Nat.eqb_refl).
    cbn in Hv. apply Bool.andb_true_iff in Hv. destruct Hv as [Hlo Hhi].
    apply Z.leb_le in Hlo. apply Z.ltb_lt in Hhi.
    unfold setScalar, setInt. cbn [underlying].
    pose proof (FormatInt_nonempty i) as Hne.
    destruct (Strconv.FormatInt i) as [|a rest] eqn:Hs; [contradiction|].
    cbn [Str.isEmpty]. rewrite <- Hs.
    rewrite ParseInt_FormatInt by (split; assumption). reflexivity.
  - exists (Strconv.FormatUint u). split; [reflexivity|].
    rewrite Hleaf by (cbn; apply Nat.eqb_refl).
    cbn in Hv. apply Bool.andb_true_iff in Hv. destruct Hv as [Hlo Hhi].
    apply Z.leb_le in Hlo. apply Z.ltb_lt in Hhi.
    unfold setScalar, setUint. cbn [underlying].
    destruct (@decimal_FormatUint u Hlo) as [_ Hne].
    destruct (Strconv.FormatUint u) as [|a rest] eqn:Hs; [contradiction|].
    cbn [Str.isEmpty]. rewrite <- Hs.
    rewrite ParseUint_FormatUint by (split; assumption). reflexivity.
Qed.

Lemma assignLeaf_reads_back_getScalar_witness :
  exists s, getScalar plain (VInt 8 (-128)) = Ok s /\
            assignLeaf plain true (VInt 8 5) s = (VInt 8 (-128), Ok tt).
Proof.
  apply (@assignLeaf_reads_back_getScalar plain (VInt 8 (-128)) (VInt 8 5)).
  - exact goMethods_plain.
  - reflexivity.
  - reflexivity.
Defined.

(** ** Struct tags *)

Lemma Split_nonempty s sep : Strings.Split s sep <> [].
Proof.
  induction s as [|a s IH]; simpl; [discriminate|].
  destruct (Ascii.eqb a sep); [discriminate|].
  destruct (Strings.Split s sep); discriminate.
Qed.

Lemma parseTag_flags flags : forall t,
  fold_left
    (fun t p =>
       let p := Strings.TrimSpace p in
       if String.eqb p "omitempty" then mkTag (Name t) true (Ignore t)
       else if String.eqb p "ignore" then mkTag (Name t) (Omit t) true
       else t)
    flags t
  = mkTag (Name t)
          (Omit t || existsb (isFlag "omitempty") flags)
          (Ignore t || existsb (isFlag "ignore") flags).
Proof.
  induction flags as [|p flags IH]; intros [n o i]; cbn [fold_left existsb].
  - cbn [Name Omit Ignore]. rewrite !Bool.orb_false_r. reflexivity.
  - rewrite IH. unfold isFlag. cbn zeta.
    destruct (String.eqb (Strings.TrimSpace p) "omitempty") eqn:Ho.
    + apply String.eqb_eq in Ho. rewrite Ho.
      change (String.eqb "omitempty" "ignore") with false.
      cbn [Name Omit Ignore orb]. rewrite Bool.orb_true_r. reflexivity.
    + destruct (String.eqb (Strings.TrimSpace p) "ignore");
        cbn [Name Omit Ignore orb]; rewrite ?Bool.orb_true_r; reflexivity.
Qed.

(** X14.  [parseTag] in closed form.  The text of a tag always splits
    into a first part and flags; the tag is ignored when the first part
    is a hyphen or some flag is [ignore], it omits empty values when
    some flag is [omitempty], whatever the order and the number of the
    flags, and every other flag is passed over.  The two early returns
    of the function give nothing else. *)
Theorem parseTag_closed_form :
  forall str,
    exists first flags,
      Strings.Split (Strings.TrimSpace str) ","%char = first :: flags /\
      parseTag str = tagOfParts first flags.
Proof.
  intros str. unfold parseTag. cbn zeta.
  destruct (String.eqb (Strings.TrimSpace str) "-") eqn:Hdash.
  - apply String.eqb_eq in Hdash. rewrite Hdash.
    exists "-", []. split; reflexivity.
  - destruct (Strings.Split (Strings.TrimSpace str) ",") as [|first flags] eqn:Hs.
    + exfalso. exact (Split_nonempty _ _ Hs).
    + exists first, flags. split; [reflexivity|].
      rewrite parseTag_flags. unfold tagOfParts. cbn zeta.
      destruct (String.eqb (Strings.TrimSpace first) "-"); reflexivity.
Qed.

(** ** The fields a struct is encoded with *)

Lemma prefix_app (a b : string) : String.prefix a (a ++ b) = true.
Proof.
  induction a as [|x a IH]; simpl; [destruct b; reflexivity|].
  destruct (ascii_dec x x); [exact IH | contradiction].
Qed.

Lemma leaves_prefixed E addr ro path v ps :
  fairOrder E -> wellKeyed v ->
  leaves E addr ro path v = Ok ps -> prefixed path ps.
Proof.
  intros HF W H.
  assert (S : sameCodecs E E) by (repeat split).
  destruct (leaves_related HF HF S W) as [HV _].
  destruct (HV addr ro path) as [Hpre _]. exact (Hpre ps H).
Qed.

(** X15.  Every key in the output of the encoder for a struct starts
    with the name of a field that is kept: one that is not ignored and
    that is not both tagged [omitempty] and empty. *)
Theorem marshalValue_struct_keys_start_with_kept_fields :
  forall E addr v fs out',
    fairOrder E -> wellKeyed v ->
    underlying v = VStruct fs ->
    marshalValue E addr false [] v [] = Ok out' ->
    forall k, In k (map fst out') ->
      exists fv, In fv fs /\ keptField E fv = true /\
                 String.prefix (Name (fieldTagOf (fst fv))) k = true.
Proof.
  intros E addr v fs out' HF W Hu HM k Hk.
  rewrite marshalValue_leaves in HM.
  destruct (leaves E addr false [] v) as [ps| |] eqn:HL; simpl in HM;
    inversion HM; subst; clear HM.
  apply keys_addAll in Hk. destruct Hk as [[] | [leaf [Hleaf Hkey]]].
  rewrite leaves_eq, Hu in HL. unfold leavesDereferenced in HL.
  destruct (asMarshaler E addr v) as [m|].
  { destruct m; simpl in HL; discriminate. }
  unfold leavesKind in HL. rewrite Hu in HL. unfold leavesStruct in HL.
  apply concatResults_ok in HL. destruct HL as [_ ->].
  apply in_flat_map in Hleaf. destruct Hleaf as [[f x] [Hfv Hin]].
  cbn [fst snd] in Hin.
  apply wellKeyed_underlying in W. rewrite Hu in W.
  inversion W as [| | | | | | | | | | | | | |? Wfs|]; subst.
  rewrite Forall_forall in Wfs. specialize (Wfs _ Hfv). cbn [snd] in Wfs.
  exists (f, x). split; [exact Hfv|]. unfold keptField. cbn [fst snd].
  destruct (Ignore (fieldTagOf f)); [contradiction|].
  destruct (Omit (fieldTagOf f) && isEmptyValue E x)%bool; [contradiction|].
  destruct (String.eqb (Name (fieldTagOf f)) ""); [contradiction|].
  split; [reflexivity|].
  destruct (leaves E addr (negb (isExported (fieldName f)))
              ([] ++ [Name (fieldTagOf f)]) x) as [block| |] eqn:Hb;
    try contradiction.
  cbn [okBlock] in Hin.
  destruct (@leaves_prefixed E _ _ _ x block HF Wfs Hb leaf Hin) as [suffix Hs].
  rewrite Hs. cbn [app]. unfold renderKey.
  rewrite renderPath_bracketed. apply prefix_app.
Qed.

Lemma marshalValue_struct_keys_start_with_kept_fields_witness :
  exists fv,
    In fv [ (mkField "Name" "name", VString "ann");
            (mkField "Age" "age,omitempty", VInt 64 0);
            (mkField "Pronouns" "pronouns", VSlice TString [VString "she"]) ] /\
    keptField plain fv = true /\
    String.prefix (Name (fieldTagOf (fst fv))) "pronouns[]" = true.
Proof.
  apply (@marshalValue_struct_keys_start_with_kept_fields plain true
           (VNamed "Person"
              (VStruct [ (mkField "Name" "name", VString "ann");
                         (mkField "Age" "age,omitempty", VInt 64 0);
                         (mkField "Pronouns" "pronouns",
                          VSlice TString [VString "she"]) ]))
           _ [("name", ["ann"]); ("pronouns[]", ["she"])]
           fairOrder_plain).
  - repeat constructor.
  - reflexivity.
  - vm_compute. reflexivity.
  - simpl. auto.
Defined.

(** ** An assignment into a struct touches one field *)

Lemma setNth_fst {A B} (l : list (A * B)) : forall i a b b',
  nth_error l i = Some (a, b) ->
  map fst (setNth i (a, b') l) = map fst l.
Proof.
  induction l as [|[a0 b0] l IH]; intros i a b b' H.
  - destruct i; discriminate.
  - destruct i as [|i]; simpl in *.
    + inversion H; subst. reflexivity.
    + rewrite (IH i a b b' H). reflexivity.
Qed.

Lemma setNth_other {A} (l : list A) : forall i j x,
  i <> j -> nth_error (setNth i x l) j = nth_error l j.
Proof.
  induction l as [|y l IH]; intros i j x Hij.
  - destruct i; reflexivity.
  - destruct i as [|i], j as [|j]; simpl; try reflexivity; try contradiction.
    apply IH. intros Heq. apply Hij. f_equal. exact Heq.
Qed.

(** X16.  Whatever a key assigns below a struct, and whether or not the
    assignment succeeds, the struct keeps its fields and their tags, and
    every field but the one the key names keeps its value. *)
Theorem assign_struct_leaves_other_fields :
  forall E addr v fs seg rest val,
    underlying v = VStruct fs ->
    exists fs',
      fst (assign E addr v (seg :: rest) val) = rewrap v (VStruct fs') /\
      map fst fs' = map fst fs /\
      forall j, findStructField v (Key seg) <> Some j ->
                nth_error fs' j = nth_error fs j.
Proof.
  intros E addr v fs seg rest val Hu.
  rewrite assign_eq. unfold deref. rewrite Hu.
  unfold assignKind. rewrite Hu. unfold assignStructField. rewrite Hu.
  assert (Hsame : exists fs',
             v = rewrap v (VStruct fs') /\ map fst fs' = map fst fs /\
             forall j, findStructField v (Key seg) <> Some j ->
                       nth_error fs' j = nth_error fs j).
  { exists fs. split; [symmetry; apply rewrap_underlying; exact Hu|]. auto. }
  destruct (findStructField v (Key seg)) as [i|] eqn:Hfind; [|exact Hsame].
  destruct (nth_error fs i) as [[f fv]|] eqn:Hnth; [|exact Hsame].
  destruct (addr && isExported (fieldName f))%bool; [|exact Hsame].
  destruct (assign E true fv rest val) as [fv' r].
  exists (setNth i (f, fv') fs). split; [reflexivity|]. split.
  - eapply setNth_fst. exact Hnth.
  - intros j Hj. apply setNth_other. intros Heq. apply Hj. congruence.
Qed.

Lemma assign_struct_leaves_other_fields_witness :
  exists fs',
    fst (assign plain true (zero PersonT) [named "age"] "30")
    = rewrap (zero PersonT) (VStruct fs') /\
    map fst fs' = [mkField "Name" "name"; mkField "Age" "age,omitempty";
                   mkField "Pronouns" "pronouns"] /\
    forall j, findStructField (zero PersonT) "age" <> Some j ->
              nth_error fs' j
              = nth_error [ (mkField "Name" "name", VString "");
                            (mkField "Age" "age,omitempty", VInt 64 0);
                            (mkField "Pronouns" "pronouns", VSlice TString []) ] j.
Proof.
  exact (@assign_struct_leaves_other_fields plain true (zero PersonT)
           [ (mkField "Name" "name", VString "");
             (mkField "Age" "age,omitempty", VInt 64 0);
             (mkField "Pronouns" "pronouns", VSlice TString []) ]
           (named "age") [] "30" eq_refl).
Defined.

(** X17.  The empty text is not a number or a boolean for [strconv], yet
    the decoder takes it for the zero value: an integer, unsigned
    integer, float or boolean that receives the empty string is set to
    zero, whatever it held. *)
Theorem assignLeaf_empty_text_gives_zero :
  forall E v,
    goMethods E -> methodless v = true ->
    match v with
    | VInt bits _ =>
        Strconv.ParseInt "" bits = Err Strconv.errSyntax /\
        assignLeaf E true v "" = (VInt bits 0, Ok tt)
    | VUint bits _ =>
        Strconv.ParseUint "" bits = Err Strconv.errSyntax /\
        assignLeaf E true v "" = (VUint bits 0, Ok tt)
    | VFloat bits _ => assignLeaf E true v "" = (VFloat bits 0, Ok tt)
    | VBool _ =>
        Strconv.ParseBool "" = Err Strconv.errSyntax /\
        assignLeaf E true v "" = (VBool false, Ok tt)
    | _ => True
    end.
Proof.
  intros E v HE Hv. destruct v; try exact I;
    rewrite assignLeaf_methodless by (exact HE || exact Hv);
    try split; reflexivity.
Qed.

Lemma assignLeaf_empty_text_gives_zero_witness :
  Strconv.ParseInt "" 64 = Err Strconv.errSyntax /\
  assignLeaf plain true (VInt 64 30) "" = (VInt 64 0, Ok tt).
Proof.
  exact (@assignLeaf_empty_text_gives_zero plain (VInt 64 30)
           goMethods_plain eq_refl).
Defined.

Lemma Unmarshal_rejects_without_touching_the_target_witness :
  Unmarshal plain "" newPerson = (newPerson, Err errEmptyInput) /\
  exists e, Unmarshal plain "a=1" (Some (VString "x")) = (Some (VString "x"), Err e).
Proof.
  destruct (Unmarshal_rejects_without_touching_the_target plain "" newPerson)
    as [H1 _].
  destruct (Unmarshal_rejects_without_touching_the_target plain "a=1"
              (Some (VString "x"))) as [_ [H2 _]].
  split; [exact (H1 eq_refl) | exact (H2 eq_refl)].
Defined.

(** ** Interface values on both sides *)

Lemma inferInterfaceValue_nil_interface seg rest val :
  inferInterfaceValue (Some (VInterface None)) (seg :: rest) val
  = inferInterfaceValue None (seg :: rest) val.
Proof. cbn [inferInterfaceValue]. destruct (Index seg); reflexivity. Qed.

(** X18.  A nil value of interface kind that is not a map entry, such as
    a struct field of type [interface{}], takes a key that goes on below
    it: the value inferred for the rest of the path is stored in it.  A
    key that ends at it is refused as an unsupported type, although the
    same key ending at an entry of a [map[string]interface{}] stores the
    string; and a nil interface that is not addressable makes the decoder
    panic. *)
Theorem assign_nil_interface_needs_a_longer_key :
  forall E val,
    goMethods E ->
    assign E true (VInterface None) [] val = (VInterface None, Err errUnsupported) /\
    (forall seg rest,
        exists new,
          inferInterfaceValue None (seg :: rest) val = Ok new /\
          assign E true (VInterface None) (seg :: rest) val
          = (VInterface (Some new), Ok tt) /\
          assign E false (VInterface None) (seg :: rest) val
          = (VInterface None, Panic errUnaddressable)).
Proof.
  intros E val HE. split.
  - rewrite assign_eq. unfold deref. cbn [underlying].
    rewrite assignLeaf_methodless by (exact HE || reflexivity). reflexivity.
  - intros seg rest.
    destruct (inferInterfaceValue_fresh (seg :: rest) val) as [new Hnew].
    exists new. split; [exact Hnew|].
    rewrite !assign_eq. unfold deref. cbn [underlying].
    rewrite inferInterfaceValue_nil_interface, Hnew. split; reflexivity.
Qed.

Lemma assign_nil_interface_needs_a_longer_key_witness :
  assign plain true (VInterface None) [] "1" = (VInterface None, Err errUnsupported) /\
  exists new,
    inferInterfaceValue None [named "x"] "1" = Ok new /\
    assign plain true (VInterface None) [named "x"] "1"
    = (VInterface (Some new), Ok tt) /\
    assign plain false (VInterface None) [named "x"] "1"
    = (VInterface None, Panic errUnaddressable).
Proof.
  destruct (@assign_nil_interface_needs_a_longer_key plain "1" goMethods_plain)
    as [H1 H2].
  split; [exact H1 | exact (H2 (named "x") [])].
Defined.

Lemma sliceLoop_skips_nil E addr path : forall xs out,
  sliceLoop
    (map (fun x =>
            if isNilInterface x then None
            else Some (marshalValue E addr false (path ++ [""]) x)) xs) out
  = sliceLoop
      (map (fun x =>
              if isNilInterface x then None
              else Some (marshalValue E addr false (path ++ [""]) x))
           (filter (fun x => negb (isNilInterface x)) xs)) out.
Proof.
  induction xs as [|x xs IH]; intros out; [reflexivity|].
  cbn [map filter]. destruct (isNilInterface x) eqn:Hx; cbn [negb].
  - cbn [sliceLoop]. apply IH.
  - cbn [map sliceLoop]. rewrite Hx. cbn [sliceLoop].
    destruct (marshalValue E addr false (path ++ [""]) x out); simpl;
      [apply IH | reflexivity | reflexivity].
Qed.

(** X19.  A nil interface among the elements of a slice leaves no trace
    in the output, not even an empty index: the slice is encoded as the
    slice without its nil elements is. *)
Theorem marshalValue_slice_drops_nil_elements :
  forall E addr path t xs out,
    goMethods E ->
    marshalValue E addr false path (VSlice t xs) out
    = marshalValue E addr false path
        (VSlice t (filter (fun x => negb (isNilInterface x)) xs)) out.
Proof.
  intros E addr path t xs out HE. rewrite !marshalValue_eq.
  cbn [underlying]. unfold marshalDereferenced.
  rewrite !asMarshaler_methodless by (exact HE || reflexivity).
  unfold marshalKind. cbn [underlying]. unfold marshalSlice.
  apply sliceLoop_skips_nil.
Qed.

Lemma marshalValue_slice_drops_nil_elements_witness :
  marshalValue plain true false ["a"]
    (VSlice TInterface [boxed (VString "x"); VInterface None; boxed (VString "y")]) []
  = Ok [("a[]", ["x"; "y"])].
Proof.
  rewrite (@marshalValue_slice_drops_nil_elements plain true ["a"] TInterface
             [boxed (VString "x"); VInterface None; boxed (VString "y")] []
             goMethods_plain).
  vm_compute. reflexivity.
Defined.
